(** * A shallow embedding of the djabi/backup storage and snapshot engine

    The development follows the Go sources:
    - [internal/backup/store.go]   (Store, FileEntry, LinkEntry, DirectoryEntry, entrySorter)
    - [internal/backup/ignore.go]  (Pattern, IgnoreMatcher)
    - [internal/backup/root.go]    (BackupRoot, BackupRoots, AllBackupRoots)
    - [internal/backup/check.go]   (Verify, verifyBlob, traverseDirectory)
    - [internal/backup/util.go]    (Prune, HashCache)
    - [internal/unreferenced.go]   (FindUnreferenced, GetReachableBlobs, GetAllBlobs)
    - [internal/backup_entry.go]   (BackupFile, BackupLink, BackupDirectory)

    Go strings are byte strings and are modelled by [string]; Go maps are
    modelled by [gmap] and [gset]; the file system is modelled by explicit
    values that are threaded through the operations that write to it. *)

From Stdlib Require Import ZArith String Ascii List Lia Bool Permutation DecimalString.
From stdpp Require Import gmap strings list sorting.

Local Open Scope Z_scope.

(* ===================================================================== *)
(** ** Go byte strings                                                    *)
(* ===================================================================== *)

Module GoString.

Definition LF : ascii := Ascii.ascii_of_nat 10.
Definition CR : ascii := Ascii.ascii_of_nat 13.
Definition SP : ascii := Ascii.ascii_of_nat 32.

(** [len(s)] *)
Definition len (s : string) : nat := String.length s.

(** [s[i]] for an index known to be in range; out of range Go panics, the
    callers below guard every use with a length test. *)
Definition byte_at (s : string) (i : nat) : option ascii := String.get i s.

(** [s[i:j]] *)
Definition slice (s : string) (i j : nat) : string := String.substring i (j - i) s.

(** [s[i:]] *)
Fixpoint slice_from (s : string) (i : nat) {struct i} : string :=
  match i, s with
  | O, _ => s
  | S i', String _ s' => slice_from s' i'
  | S _, EmptyString => EmptyString
  end.

(** [strings.HasPrefix(s, p)] *)
Definition HasPrefix (s p : string) : bool := String.prefix p s.

(** [strings.HasSuffix(s, p)] *)
Definition HasSuffix (s p : string) : bool :=
  (String.length p <=? String.length s)%nat &&
  String.eqb (slice_from s (String.length s - String.length p)) p.

(** [strings.TrimSuffix(s, p)] *)
Definition TrimSuffix (s p : string) : string :=
  if HasSuffix s p then String.substring 0 (String.length s - String.length p) s else s.

(** [strings.Contains(s, "/")] specialised to one byte. *)
Fixpoint contains_byte (c : ascii) (s : string) : bool :=
  match s with
  | EmptyString => false
  | String d s' => Ascii.eqb c d || contains_byte c s'
  end.

(** [s < t] on Go strings is the bytewise lexicographic order. *)
Definition lt (s t : string) : bool := String.ltb s t.

(** The white space removed by [strings.TrimSpace], restricted to the
    one-byte code points (tab, LF, VT, FF, CR and space). *)
Definition is_space (c : ascii) : bool :=
  let n := Ascii.nat_of_ascii c in
  ((9 <=? n)%nat && (n <=? 13)%nat) || (n =? 32)%nat.

Fixpoint trim_left (s : string) : string :=
  match s with
  | String c s' => if is_space c then trim_left s' else s
  | EmptyString => EmptyString
  end.

Fixpoint trim_right (s : string) : string :=
  match s with
  | EmptyString => EmptyString
  | String c s' =>
      match trim_right s' with
      | EmptyString => if is_space c then EmptyString else String c EmptyString
      | t => String c t
      end
  end.

Definition TrimSpace (s : string) : string := trim_right (trim_left s).

(** [dropCR] of package bufio: one trailing carriage return is removed. *)
Fixpoint dropCR (s : string) : string :=
  match s with
  | EmptyString => EmptyString
  | String c EmptyString => if Ascii.eqb c CR then EmptyString else s
  | String c s' => String c (dropCR s')
  end.

(** The successive tokens of a [bufio.Scanner] with the default split
    function [ScanLines], before [dropCR]: the data is cut at every line
    feed, and a last line without line feed is a token when it is not
    empty. *)
Fixpoint raw_lines (data : string) : list string :=
  match data with
  | EmptyString => []
  | String c rest =>
      if Ascii.eqb c LF then EmptyString :: raw_lines rest
      else match raw_lines rest with
           | [] => [String c EmptyString]
           | l :: ls => String c l :: ls
           end
  end.

(** [for scanner.Scan() { line := scanner.Text() ... }] : the lines seen by
    the loop body.  The 64 KiB token limit of [bufio.Scanner] is outside
    the model. *)
Definition ScanLines (data : string) : list string := map dropCR (raw_lines data).

End GoString.

Import GoString.

(* ===================================================================== *)
(** ** Demonstration codec                                                *)
(* ===================================================================== *)

(** The engine below is parametric in the gzip codec and in the content
    digest (packages compress/gzip and crypto/md5 of the Go library).  The
    concrete examples further down run it with this small stand-in: a
    "compressed" stream is the two gzip magic bytes followed by the payload,
    and the digest of a string is a polynomial hash of its bytes, printed as
    32 hexadecimal digits. *)

Inductive gz_result :=
| GzInvalid                       (* gzip.NewReader fails: not a gzip stream *)
| GzCorrupt (prefix : string)     (* header accepted, reading fails after [prefix] *)
| GzOk (payload : string).        (* a complete stream *)

Module Demo.

Definition magic : string :=
  String (Ascii.ascii_of_nat 31) (String (Ascii.ascii_of_nat 139) EmptyString).

Definition gzip (payload : string) : string := magic +:+ payload.

Definition gunzip (bytes : string) : gz_result :=
  if String.prefix magic bytes then GzOk (slice_from bytes 2) else GzInvalid.

Definition hex_digit (n : Z) : ascii :=
  Ascii.ascii_of_nat (Z.to_nat (if n <? 10 then 48 + n else 87 + n)).

(** The [n] low hexadecimal digits of [z], the highest first. *)
Fixpoint hex (n : nat) (z : Z) (acc : string) : string :=
  match n with
  | O => acc
  | S n' => hex n' (z / 16) (String (hex_digit (z mod 16)) acc)
  end.

(** A polynomial hash of the bytes, modulo [2^128]. *)
Fixpoint poly (s : string) (acc : Z) : Z :=
  match s with
  | EmptyString => acc
  | String c s' =>
      poly s' ((acc * 1000003 + Z.of_nat (Ascii.nat_of_ascii c) + 1) mod 2 ^ 128)
  end.

Definition md5hex (s : string) : string := hex 32 (poly s 0) EmptyString.

(** A stand-in for [path.Match]: [*] stands for any run of bytes other than
    [/], [?] for one such byte, every other byte for itself. *)
Fixpoint path_Match (pattern : string) : string -> bool :=
  match pattern with
  | EmptyString => fun name => String.eqb name EmptyString
  | String p pattern' =>
      if Ascii.eqb p "*" then
        fix star (name : string) : bool :=
          path_Match pattern' name
          || match name with
             | EmptyString => false
             | String c name' => negb (Ascii.eqb c "/") && star name'
             end
      else if Ascii.eqb p "?" then
        fun name =>
          match name with
          | EmptyString => false
          | String c name' => negb (Ascii.eqb c "/") && path_Match pattern' name'
          end
      else
        fun name =>
          match name with
          | EmptyString => false
          | String c name' => Ascii.eqb p c && path_Match pattern' name'
          end
  end.

End Demo.

(* ===================================================================== *)
(** ** The store on disk                                                  *)
(* ===================================================================== *)

(** A regular file below [<store>/data/<shard>/].  [breadable] is false when
    [os.Open] fails on it for a reason other than absence, [bremovable] is
    false when [os.Remove] fails on it. *)
Record blob_file := BlobFile {
  bbytes : string;
  breadable : bool;
  bremovable : bool
}.

(** An entry of [<store>/data]: a shard directory with its files, or
    something that is not a directory. *)
Inductive data_entry :=
| Shard (files : gmap string blob_file)
| DataStray.

(** An entry of a project directory [<store>/snapshots/<project>/]: a file
    (with its content, [None] when it cannot be read) or a sub-directory. *)
Inductive head_entry :=
| HeadFile (content : option string)
| HeadSubdir.

(** An entry of [<store>/snapshots]: a project directory or a file lying
    directly in [snapshots/]. *)
Inductive snap_entry :=
| ProjectDir (heads : gmap string head_entry)
| SnapFile (content : option string).

Record Store := MkStore {
  StoreData : gmap string data_entry;
  StoreSnapshots : gmap string snap_entry
}.

(** [Store.DataStore]: the path of the blob of [hash], as the pair of the
    shard directory name and the file name; [None] is the empty path that
    the code returns for a hash shorter than two bytes.  A hash holding a
    path separator leads [filepath.Join] out of the two-level layout; such a
    path names no file of the model. *)
Definition DataStore (hash : string) : option (string * string) :=
  if (len hash <? 2)%nat then None
  else Some (slice hash 0 2, hash +:+ ".gz").

Definition lookup_file (s : Store) (p : option (string * string)) : option blob_file :=
  match p with
  | None => None
  | Some (shard, file) =>
      match StoreData s !! shard with
      | Some (Shard files) => files !! file
      | _ => None
      end
  end.

(** [os.Stat(b.Store.DataStore(hash))] *)
Definition stat_blob (s : Store) (hash : string) : option blob_file :=
  lookup_file s (DataStore hash).

(** The shard of the digest is taken by something that is not a directory:
    [os.Stat] and [os.Open] of the blob path fail with [ENOTDIR], which
    [os.IsNotExist] does not accept. *)
Definition under_stray (s : Store) (hash : string) : bool :=
  match DataStore hash with
  | Some (shard, _) =>
      match StoreData s !! shard with
      | Some DataStray => true
      | _ => false
      end
  | None => false
  end.

Inductive open_result :=
| OpenNotExist              (* the error satisfies os.IsNotExist *)
| OpenDenied                (* any other error *)
| Opened (bytes : string).

(** [os.Open(b.Store.DataStore(hash))] *)
Definition open_blob (s : Store) (hash : string) : open_result :=
  match stat_blob s hash with
  | None => if under_stray s hash then OpenDenied else OpenNotExist
  | Some f => if breadable f then Opened (bbytes f) else OpenDenied
  end.

(* ===================================================================== *)
(** ** Snapshot heads (root.go)                                           *)
(* ===================================================================== *)

Definition digit_val (c : ascii) : option Z :=
  let n := Z.of_nat (Ascii.nat_of_ascii c) in
  if (48 <=? n) && (n <=? 57) then Some (n - 48) else None.

(** Two decimal digits at offset [i]. *)
Definition two_digits (s : string) (i : nat) : option Z :=
  match byte_at s i, byte_at s (S i) with
  | Some a, Some b =>
      match digit_val a, digit_val b with
      | Some x, Some y => Some (10 * x + y)
      | _, _ => None
      end
  | _, _ => None
  end.

Definition is_leap (y : Z) : bool :=
  ((y mod 4 =? 0) && negb (y mod 100 =? 0)) || (y mod 400 =? 0).

Definition days_in (y m : Z) : Z :=
  if m =? 2 then (if is_leap y then 29 else 28)
  else if (m =? 4) || (m =? 6) || (m =? 9) || (m =? 11) then 30
  else 31.

(** [time.ParseInLocation("060102-150405", name, time.Local)]: six fields of
    two digits with a dash after the third, each field in range; a two-digit
    year from 69 on is in the 1900s.  The result is the wall-clock reading
    packed into one number, which orders heads as [Time.Before] does within
    one time zone offset. *)
Definition parse_timestamp (name : string) : option Z :=
  if negb (len name =? 13)%nat then None else
  match two_digits name 0, two_digits name 2, two_digits name 4,
        byte_at name 6,
        two_digits name 7, two_digits name 9, two_digits name 11 with
  | Some yy, Some mo, Some dd, Some dash, Some hh, Some mi, Some ss =>
      let year := if 69 <=? yy then 1900 + yy else 2000 + yy in
      if Ascii.eqb dash "-"
         && (1 <=? mo) && (mo <=? 12)
         && (1 <=? dd) && (dd <=? days_in year mo)
         && (hh <? 24) && (mi <? 60) && (ss <? 60)
      then Some (((((year * 13 + mo) * 32 + dd) * 24 + hh) * 60 + mi) * 60 + ss)
      else None
  | _, _, _, _, _, _, _ => None
  end.

(** [BackupRoot]: [BackupHead] is kept as the list of path components below
    [snapshots/]. *)
Record BackupRoot := MkRoot {
  Time : Z;
  BackupHead : list string;
  hash : string
}.

(** [NewBackupRoot(b, headPath)] for a head file with the given base name and
    content ([None]: [ioutil.ReadFile] fails). *)
Definition NewBackupRoot (headPath : list string) (name : string)
    (content : option string) : option BackupRoot :=
  match parse_timestamp name with
  | None => None
  | Some t =>
      match content with
      | None => None
      | Some c =>
          let h := TrimSpace c in
          if (len h =? 0)%nat then None
          else Some {| Time := t; BackupHead := headPath; hash := h |}
      end
  end.

(** [sort.Sort(BackupRoots(roots))]: ascending by [Time]. *)
Fixpoint insert_root (r : BackupRoot) (rs : list BackupRoot) : list BackupRoot :=
  match rs with
  | [] => [r]
  | r' :: rs' => if Time r' <? Time r then r' :: insert_root r rs' else r :: rs
  end.

Definition sort_roots (rs : list BackupRoot) : list BackupRoot :=
  fold_right insert_root [] rs.

(** The inner loop over the files of one project directory. *)
Definition project_roots (project : string) (heads : gmap string head_entry)
    : list BackupRoot :=
  omap (fun '(name, e) =>
          match e with
          | HeadSubdir => None
          | HeadFile content => NewBackupRoot [project; name] name content
          end) (map_to_list heads).

(** [Backup.AllBackupRoots]: only the entries of [snapshots/] that are
    directories are searched. *)
Definition AllBackupRoots (s : Store) : list BackupRoot :=
  sort_roots
    (flat_map (fun '(p, e) =>
                 match e with
                 | ProjectDir heads => project_roots p heads
                 | SnapFile _ => []
                 end) (map_to_list (StoreSnapshots s))).

(** [Backup.BackupRoots]: the heads of the current project, or of every
    project directory when no project name is configured.  [None] is the
    error of [os.ReadDir] on a project path that is not a directory. *)
Definition BackupRoots (s : Store) (ProjectName : string) : option (list BackupRoot) :=
  if negb (String.eqb ProjectName "") then
    match StoreSnapshots s !! ProjectName with
    | None => Some []
    | Some (ProjectDir heads) => Some (sort_roots (project_roots ProjectName heads))
    | Some (SnapFile _) => None
    end
  else Some (AllBackupRoots s).


(* ===================================================================== *)
(** ** The engine, for a given codec and digest                           *)
(* ===================================================================== *)

(* ===================================================================== *)
(** ** Paths (path/filepath)                                              *)
(* ===================================================================== *)

(** An absolute, clean path is the list of its components.  The model is
    that of a POSIX host: the separator is [/] and [filepath.ToSlash] is the
    identity. *)
Abbreviation path := (list string).

Fixpoint join_slash (components : list string) : string :=
  match components with
  | [] => EmptyString
  | [c] => c
  | c :: rest => c +:+ "/" +:+ join_slash rest
  end.

Fixpoint strip_common (base targ : path) : path * path :=
  match base, targ with
  | b :: base', t :: targ' =>
      if String.eqb b t then strip_common base' targ' else (base, targ)
  | _, _ => (base, targ)
  end.

(** [filepath.Rel(base, targ)] on absolute clean paths, where it never
    fails: the components that [targ] has beyond the common prefix, after
    one [..] for each that [base] has; [.] when nothing is left. *)
Definition Rel_components (base targ : path) : list string :=
  let '(b, t) := strip_common base targ in
  repeat ".." (length b) ++ t.

Definition Rel (base targ : path) : string :=
  match Rel_components base targ with
  | [] => "."
  | cs => join_slash cs
  end.

(** [filepath.Base] of a path: its last component. *)
Definition Base (p : path) : string := List.last p "/".

(** [filepath.Base(relPath)] for the result of [Rel]. *)
Definition Base_rel (base targ : path) : string :=
  List.last (Rel_components base targ) ".".

(* ===================================================================== *)
(** ** Ignore patterns (ignore.go)                                        *)
(* ===================================================================== *)

Record Pattern := MkPattern {
  raw : string;
  pattern : string;
  isNegation : bool;
  isDirOnly : bool;
  isRooted : bool;
  Source : string
}.

(** A value of type [*IgnoreMatcher]: the nil pointer, or a matcher with its
    patterns, its parent and the directory it is anchored at. *)
Inductive IgnoreMatcher :=
| nil_matcher
| MkMatcher (patterns : list Pattern) (parent : IgnoreMatcher) (dir : path).

Definition patterns (m : IgnoreMatcher) : list Pattern :=
  match m with MkMatcher ps _ _ => ps | nil_matcher => [] end.
Definition parent (m : IgnoreMatcher) : IgnoreMatcher :=
  match m with MkMatcher _ p _ => p | nil_matcher => nil_matcher end.
Definition dir (m : IgnoreMatcher) : path :=
  match m with MkMatcher _ _ d => d | nil_matcher => [] end.

(** [NewIgnoreMatcher] *)
Definition NewIgnoreMatcher (dir : path) (parent : IgnoreMatcher) : IgnoreMatcher :=
  MkMatcher [] parent dir.

(** The body of the scanner loop of [IgnoreMatcher.loadFile]: the pattern of
    one line, if the line holds one. *)
Definition parse_pattern (filename : string) (text : string) : option Pattern :=
  let line := TrimSpace text in
  if String.eqb line EmptyString || HasPrefix line "#" then None
  else
    let raw := line in
    let '(neg, line) :=
      if HasPrefix line "!" then (true, slice_from line 1) else (false, line) in
    let '(dironly, line) :=
      if HasSuffix line "/" then (true, slice line 0 (len line - 1)) else (false, line) in
    let '(rooted, line) :=
      if HasPrefix line "/" then (true, slice_from line 1) else (false, line) in
    Some {| raw := raw; pattern := line; isNegation := neg; isDirOnly := dironly;
            isRooted := rooted; Source := filename |}.

(** [IgnoreMatcher.loadFile] on the content of a readable file. *)
Definition loadFile (m : IgnoreMatcher) (filename content : string) : IgnoreMatcher :=
  MkMatcher (patterns m ++ omap (parse_pattern filename) (ScanLines content))
            (parent m) (dir m).

(* ===================================================================== *)
(** ** The source tree and the entries of a backup (store.go)             *)
(* ===================================================================== *)

(** What the builder finds at a path of the source: a regular file with its
    modification time in milliseconds and its bytes ([readable] is false
    when [os.Open] fails on it), a symbolic link with its target, or a
    directory with what [os.ReadDir] lists ([readable] is false when
    [os.ReadDir] fails). *)
Inductive node :=
| NFile (mtime : Z) (readable : bool) (content : string)
| NSymlink (target : string)
| NDir (readable : bool) (children : list (string * node)).

Definition is_dir (n : node) : bool :=
  match n with NDir _ _ => true | _ => false end.

Definition is_symlink (n : node) : bool :=
  match n with NSymlink _ => true | _ => false end.

(** [EntryType] *)
Definition EntryTypeFile : Z := 0.
Definition EntryTypeDirectory : Z := 1.
Definition EntryTypeLink : Z := 2.

Record IgnoredEntry := MkIgnored {
  Path : path;
  IgnoredName : string;
  Reason : option Pattern
}.

(** The three implementations of the interface [Entry].  A [FileEntry]
    stands with the state of the file at [e.path] that [Save] reads again; a
    [DirectoryEntry] stands with the outcome of its [scan]: [content] is
    [None] when [scan] returns an error. *)
Inductive Entry :=
| FileEntry (path : path) (name hash : string) (readable : bool) (bytes : string)
| LinkEntry (path : path) (name target hash : string)
| DirectoryEntry (path : path) (name : string) (matcher : IgnoreMatcher)
    (content : option (list Entry)) (ignored : list IgnoredEntry).

Definition Name (e : Entry) : string :=
  match e with
  | FileEntry _ name _ _ _ => name
  | LinkEntry _ name _ _ => name
  | DirectoryEntry _ name _ _ _ => name
  end.

(** [Entry.Type()] *)
Definition Type_ (e : Entry) : Z :=
  match e with
  | FileEntry _ _ _ _ _ => EntryTypeFile
  | LinkEntry _ _ _ _ => EntryTypeLink
  | DirectoryEntry _ _ _ _ _ => EntryTypeDirectory
  end.

(** The letter [ContentAsText] prints for an entry type. *)
Definition typeChar (t : Z) : ascii :=
  if t =? EntryTypeDirectory then "D"%char
  else if t =? EntryTypeLink then "L"%char
  else "F"%char.

(** [BackupStats] *)
Record BackupStats := MkStats {
  FilesTotal : Z;
  FilesArchived : Z;
  DirsTotal : Z;
  DirsArchived : Z;
  BytesArchived : Z
}.

(** The part of the [Backup] structure that [Save] changes: the store on
    disk and the statistics. *)
Record backup_state := MkState {
  store : Store;
  Stats : BackupStats
}.

(** ** Concrete values used in the examples *)

Module Scenario.

Definition nl : string := String LF EmptyString.

(** The digest of the empty listing, and of one file. *)
Definition empty_digest : string := "d41d8cd98f00b204e9800998ecf8427e".
Definition file_digest : string := "49f68a5c8493ec2c0bf489821c21fc3b".
Definition dir_digest : string := "0123456789abcdef0123456789abcdef".

Definition blob (payload : string) : blob_file :=
  {| bbytes := Demo.gzip payload; breadable := true; bremovable := true |}.

(** One snapshot of an empty source, written without a project name: its
    head lies directly in [snapshots/]. *)
Definition legacy_store : Store :=
  {| StoreData := {[ "d4" := Shard {[ empty_digest +:+ ".gz" := blob "" ]} ]};
     StoreSnapshots := {[ "250101-120000" := SnapFile (Some (empty_digest +:+ nl)) ]} |}.

(** The same snapshot written for the project [proj]. *)
Definition project_store : Store :=
  {| StoreData := {[ "d4" := Shard {[ empty_digest +:+ ".gz" := blob "" ]} ]};
     StoreSnapshots :=
       {[ "proj" := ProjectDir {[ "250101-120000" := HeadFile (Some (empty_digest +:+ nl)) ]} ]} |}.

(** A directory blob with one good line and one line that is too short. *)
Definition ragged_listing : string :=
  "F 49f68a5c8493ec2c0bf489821c21fc3b a.txt" +:+ nl +:+ "F 49f6 b.txt" +:+ nl.

Definition ragged_store : Store :=
  {| StoreData := {[ "01" := Shard {[ dir_digest +:+ ".gz" := blob ragged_listing ]} ]};
     StoreSnapshots := ∅ |}.


(** The top of a source tree. *)
Definition top : path := ["home"; "u"; "src"].

(** A source whose [.backup] is a symbolic link. *)
Definition linked_config : node :=
  NDir true [(".backup", NSymlink "/mnt/config")].

(** A source that ignores every dot file and has a [.backup] directory. *)
Definition dotfiles_ignored : node :=
  NDir true [(".backup", NDir true [("config.toml", NFile 3 true "name = 1")]);
             (".gitignore", NFile 4 true ".*")].

(** The source of the first end-to-end scenario: two files with the same
    content, one of them in a sub-directory. *)
Definition small_source : node :=
  NDir true [("a.txt", NFile 1 true "hi");
             ("sub", NDir true [("b.txt", NFile 2 true "hi")])].

(** A source with a file whose name ends in a carriage return. *)
Definition cr_source : node :=
  NDir true [(String "a" (String CR EmptyString), NFile 1 true "hi")].


Definition hi_digest : string := "00000000000000000000000006422de5".
Definition one_file_digest : string := "9e0f7dacb524d2ebe8f04d624b1f1958".


(** One snapshot of [one_file_source] whose file blob was replaced by bytes
    that are not a gzip stream. *)
Definition garbage : blob_file :=
  {| bbytes := "not gzip"; breadable := true; bremovable := true |}.




(** The snapshot of [one_file_source] as a backup writes it. *)
Definition one_file_store : Store :=
  {| StoreData :=
       {[ "9e" := Shard {[ one_file_digest +:+ ".gz"
                           := blob ("F " +:+ hi_digest +:+ " a.txt" +:+ nl) ]};
          "00" := Shard {[ hi_digest +:+ ".gz" := blob "hi" ]} ]};
     StoreSnapshots :=
       {[ "proj" := ProjectDir
                      {[ "250101-120000" := HeadFile (Some (one_file_digest +:+ nl)) ]} ]} |}.

(** A store with the blob of the content [hi]. *)
Definition file_store : Store :=
  {| StoreData := {[ "00" := Shard {[ hi_digest +:+ ".gz" := blob "hi" ]} ]};
     StoreSnapshots := ∅ |}.

Definition empty_store : Store := {| StoreData := ∅; StoreSnapshots := ∅ |}.

Definition empty_state : backup_state :=
  {| store := empty_store;
     Stats := {| FilesTotal := 0; FilesArchived := 0; DirsTotal := 0;
                 DirsArchived := 0; BytesArchived := 0 |} |}.

(** The one-file store with leftovers: a blob to which no snapshot refers,
    and a partial file of an interrupted write. *)
Definition old_digest : string := "ffffffffffffffffffffffffffffffff".

Definition cluttered_store : Store :=
  {| StoreData :=
       {[ "9e" := Shard {[ one_file_digest +:+ ".gz"
                           := blob ("F " +:+ hi_digest +:+ " a.txt" +:+ nl) ]};
          "00" := Shard {[ hi_digest +:+ ".gz" := blob "hi";
                           hi_digest +:+ ".gz.partial" := garbage ]};
          "ff" := Shard {[ old_digest +:+ ".gz" := blob "old" ]} ]};
     StoreSnapshots :=
       {[ "proj" := ProjectDir
                      {[ "250101-120000" := HeadFile (Some (one_file_digest +:+ nl)) ]} ]} |}.

(** The root of the snapshot of the stores above. *)
Definition one_file_root : BackupRoot :=
  {| Time := default 0 (parse_timestamp "250101-120000");
     BackupHead := ["proj"; "250101-120000"];
     hash := one_file_digest |}.
End Scenario.

Section Engine.

(** [gzip.NewReader] followed by reading the stream to its end. *)
Variable gunzip : string -> gz_result.
(** A [gzip.Writer] fed with the payload and closed. *)
Variable gzip : string -> string.
(** [fmt.Sprintf("%x", md5.Sum(data))] *)
Variable md5hex : string -> string.

(** The lines a scanner yields over a decompressed stream, and whether
    [scanner.Err()] is set when the loop ends. *)
Definition scan_stream (r : gz_result) : option (list string * bool) :=
  match r with
  | GzInvalid => None
  | GzCorrupt prefix => Some (ScanLines prefix, true)
  | GzOk payload => Some (ScanLines payload, false)
  end.

(* --------------------------------------------------------------------- *)
(** *** Reachability (unreferenced.go)                                    *)
(* --------------------------------------------------------------------- *)

(** What the store readers write to standard error. *)
Inductive warning :=
| WarnInvalidEntry (line : string)      (* "Warning: invalid directory entry: %s" *)
| WarnUnknownType (typeChar : ascii).   (* "Warning: unknown entry type: %c" *)

Inductive reach_error :=
| ReachOpenError (hash : string)       (* os.Open fails, the blob exists *)
| ReachGzipError (hash : string)       (* "failed to read blob" *)
| ReachScannerError (hash : string).   (* "scanner error for blob" *)

(** The two maps [reachable] and [visitedDirs], used as sets, and the
    warnings written to standard error (the traversal writes none). *)
Record reach_state := MkReach {
  reachable : gset string;
  visitedDirs : gset string;
  reach_warnings : list warning
}.

Definition mark_reachable_hash (h : string) (st : reach_state) : reach_state :=
  {| reachable := {[h]} ∪ reachable st;
     visitedDirs := visitedDirs st;
     reach_warnings := reach_warnings st |}.

Definition mark_visited (h : string) (st : reach_state) : reach_state :=
  {| reachable := reachable st;
     visitedDirs := {[h]} ∪ visitedDirs st;
     reach_warnings := reach_warnings st |}.

Inductive traverse_result :=
| TrOutOfFuel
| TrError (e : reach_error)
| TrOk (st : reach_state).

(** The body of the scanner loop of [traverseReachable] for one line; [rec]
    is the recursive call. *)
Definition traverse_line (rec : string -> reach_state -> traverse_result)
    (line : string) (st : reach_state) : traverse_result :=
  if (len line <? 36)%nat then TrOk st
  else
    let typeChar := byte_at line 0 in
    let childHash := slice line 2 34 in
    let st := mark_reachable_hash childHash st in
    if bool_decide (typeChar = Some "D"%char)
       && negb (bool_decide (childHash ∈ visitedDirs st))
    then rec childHash st
    else TrOk st.

(** The scanner loop and the test of [scanner.Err()] after it. *)
Fixpoint traverse_lines (rec : string -> reach_state -> traverse_result)
    (hash : string) (scan_err : bool) (lines : list string) (st : reach_state)
    : traverse_result :=
  match lines with
  | [] => if scan_err then TrError (ReachScannerError hash) else TrOk st
  | line :: rest =>
      match traverse_line rec line st with
      | TrOk st' => traverse_lines rec hash scan_err rest st'
      | r => r
      end
  end.

(** [Backup.traverseReachable].  The recursion follows the listing graph of
    the store, which the code bounds with [visitedDirs]; here [fuel] bounds
    the depth of the recursion, and [traverseReachable_fuel] below shows that
    the number of blobs of the store is always enough. *)
Fixpoint traverseReachable (s : Store) (fuel : nat) (hash : string)
    (st : reach_state) : traverse_result :=
  match fuel with
  | O => TrOutOfFuel
  | S fuel' =>
      let st := mark_visited hash st in
      match open_blob s hash with
      | OpenNotExist => TrOk st
      | OpenDenied => TrError (ReachOpenError hash)
      | Opened bytes =>
          match scan_stream (gunzip bytes) with
          | None => TrError (ReachGzipError hash)
          | Some (lines, scan_err) =>
              traverse_lines (traverseReachable s fuel') hash scan_err lines st
          end
      end
  end.

(** [Backup.markReachable] *)
Definition markReachable (s : Store) (fuel : nat) (hash : string)
    (st : reach_state) : traverse_result :=
  let st := mark_reachable_hash hash st in
  if bool_decide (hash ∈ visitedDirs st) then TrOk st
  else traverseReachable s fuel hash st.

(** [Backup.GetAllBlobs]: the names, without the suffix, of the [.gz] files
    of every shard directory. *)
Definition shard_blobs (files : gmap string blob_file) : gset string :=
  list_to_set
    (omap (fun '(name, _) =>
             if HasSuffix name ".gz" then Some (TrimSuffix name ".gz") else None)
          (map_to_list files)).

Definition GetAllBlobs (s : Store) : gset string :=
  ⋃ (omap (fun '(_, e) =>
             match e with
             | Shard files => Some (shard_blobs files)
             | DataStray => None
             end) (map_to_list (StoreData s))).

(** The files of the store that can be opened as blobs of some digest; their
    number bounds the depth of the traversal. *)
Definition store_fuel (s : Store) : nat := S (size (GetAllBlobs s)).

Definition empty_reach : reach_state :=
  {| reachable := ∅; visitedDirs := ∅; reach_warnings := [] |}.

(** The loop of [GetReachableBlobs] over the roots. *)
Fixpoint mark_roots (s : Store) (fuel : nat) (roots : list BackupRoot)
    (st : reach_state) : traverse_result :=
  match roots with
  | [] => TrOk st
  | root :: rest =>
      match markReachable s fuel (hash root) st with
      | TrOk st' => mark_roots s fuel rest st'
      | r => r
      end
  end.

(** [Backup.GetReachableBlobs] *)
Definition GetReachableBlobs (s : Store) : traverse_result :=
  mark_roots s (store_fuel s) (AllBackupRoots s) empty_reach.

Inductive find_result :=
| FindOutOfFuel
| FindError (e : reach_error)
| Found (unreferenced : list string).

(** [Backup.FindUnreferenced].  The Go loop ranges over a map, in no
    particular order; the model takes the order of [elements]. *)
Definition FindUnreferenced (s : Store) : find_result :=
  match GetReachableBlobs s with
  | TrOutOfFuel => FindOutOfFuel
  | TrError e => FindError e
  | TrOk st =>
      Found (filter (fun h => h ∉ reachable st) (elements (GetAllBlobs s)))
  end.


(* --------------------------------------------------------------------- *)
(** *** Prune (util.go)                                                   *)
(* --------------------------------------------------------------------- *)

(** Go's [int] and [int64] are 64-bit two's complement integers. *)
Definition wrap64 (z : Z) : Z := (z + 2 ^ 63) mod 2 ^ 64 - 2 ^ 63.
Definition add64 (a b : Z) : Z := wrap64 (a + b).

Record PruneStats := MkPruneStats {
  BlobsRemoved : Z;
  BytesRemoved : Z
}.

(** [os.Remove] of the blob file of [hash]. *)
Definition remove_file (s : Store) (p : option (string * string)) : Store :=
  match p with
  | None => s
  | Some (shard, file) =>
      match StoreData s !! shard with
      | Some (Shard files) =>
          {| StoreData := <[shard := Shard (delete file files)]> (StoreData s);
             StoreSnapshots := StoreSnapshots s |}
      | _ => s
      end
  end.

Inductive prune_error :=
| PruneFindError (e : reach_error)
| PruneRemoveError (hash : string).   (* "failed to remove unreferenced blob" *)

(** The loop of [Backup.Prune] over the unreferenced digests. *)
Fixpoint prune_loop (dryRun : bool) (unreferenced : list string)
    (s : Store) (stats : PruneStats) : Store * PruneStats * option prune_error :=
  match unreferenced with
  | [] => (s, stats, None)
  | hash :: rest =>
      match stat_blob s hash with
      | None => prune_loop dryRun rest s stats
      | Some info =>
          let size := Z.of_nat (len (bbytes info)) in
          if negb dryRun && negb (bremovable info)
          then (s, stats, Some (PruneRemoveError hash))
          else
            let s' := if dryRun then s else remove_file s (DataStore hash) in
            prune_loop dryRun rest s'
              {| BlobsRemoved := add64 (BlobsRemoved stats) 1;
                 BytesRemoved := add64 (BytesRemoved stats) size |}
      end
  end.

Definition zero_stats : PruneStats := {| BlobsRemoved := 0; BytesRemoved := 0 |}.

(** The digests of a list whose blob file is found by [os.Stat], and the
    sizes of those files. *)
Definition present (s : Store) (l : list string) : list string :=
  filter (fun h => is_Some (stat_blob s h)) l.

Definition blob_size (s : Store) (h : string) : Z :=
  match stat_blob s h with
  | Some f => Z.of_nat (len (bbytes f))
  | None => 0
  end.

Definition total_size (s : Store) (l : list string) : Z :=
  foldr (fun h acc => blob_size s h + acc) 0 l.

(** The counters after one more digest, and after a list of digests, each
    counted when its blob file is found in [s]. *)
Definition count_blob (s : Store) (stats : PruneStats) (h : string) : PruneStats :=
  match stat_blob s h with
  | Some f =>
      {| BlobsRemoved := add64 (BlobsRemoved stats) 1;
         BytesRemoved := add64 (BytesRemoved stats) (Z.of_nat (len (bbytes f))) |}
  | None => stats
  end.

Definition counted (s : Store) (l : list string) (stats : PruneStats) : PruneStats :=
  foldl (count_blob s) stats l.

(** [Backup.Prune(dryRun)]; [None] stands for a traversal that ran out of
    fuel, which [GetReachableBlobs_total] excludes. *)
Definition Prune (dryRun : bool) (s : Store)
    : option (Store * PruneStats * option prune_error) :=
  match FindUnreferenced s with
  | FindOutOfFuel => None
  | FindError e => Some (s, zero_stats, Some (PruneFindError e))
  | Found unreferenced => Some (prune_loop dryRun unreferenced s zero_stats)
  end.

(* --------------------------------------------------------------------- *)
(** *** The snapshot reader (backup_entry.go)                             *)
(* --------------------------------------------------------------------- *)

Inductive BackupEntry :=
| BackupFile (hash name : string)
| BackupLink (hash name : string)
| BackupDirectory (hash name : string).

(** The map [d.entries] and the warnings printed while it is filled. *)
Record entries_state := MkEntries {
  entries : gmap string BackupEntry;
  warnings : list warning
}.

Definition add_entry (name : string) (e : BackupEntry) (st : entries_state)
    : entries_state :=
  {| entries := <[name := e]> (entries st); warnings := warnings st |}.

Definition warn (w : warning) (st : entries_state) : entries_state :=
  {| entries := entries st; warnings := warnings st ++ [w] |}.

(** The body of the scanner loop of [BackupDirectory.Entries]. *)
Definition entries_line (st : entries_state) (line : string) : entries_state :=
  if (len line <? 36)%nat
     || negb (bool_decide (byte_at line 1 = Some " "%char))
     || negb (bool_decide (byte_at line 34 = Some " "%char))
  then warn (WarnInvalidEntry line) st
  else
    let typeChar := byte_at line 0 in
    let hash := slice line 2 34 in
    let name := slice_from line 35 in
    match typeChar with
    | Some "D"%char => add_entry name (BackupDirectory hash name) st
    | Some "F"%char => add_entry name (BackupFile hash name) st
    | Some "L"%char => add_entry name (BackupLink hash name) st
    | Some c => warn (WarnUnknownType c) st
    | None => st
    end.

Inductive entries_result :=
| EntriesOpenError      (* "failed to open store file" *)
| EntriesGzipError      (* the error of gzip.NewReader *)
| EntriesRead (st : entries_state) (scan_err : bool).

(** [BackupDirectory.Entries] on a directory whose entries are not loaded
    yet. *)
Definition Entries (s : Store) (hash : string) : entries_result :=
  match open_blob s hash with
  | OpenNotExist | OpenDenied => EntriesOpenError
  | Opened bytes =>
      match scan_stream (gunzip bytes) with
      | None => EntriesGzipError
      | Some (lines, scan_err) =>
          EntriesRead (foldl entries_line {| entries := ∅; warnings := [] |} lines)
                      scan_err
      end
  end.

(** One line of a directory listing without its line feed, as
    [ContentAsText] prints it: ["%s %s %s"] of the type letter, the digest
    and the name. *)
Definition listing_line (typeChar : ascii) (digest name : string) : string :=
  String typeChar (String " " (digest +:+ String " " name)).

(* --------------------------------------------------------------------- *)
(** *** The ignore decision (ignore.go)                                   *)
(* --------------------------------------------------------------------- *)

(** [path.Match(pattern, name)], with an error read as no match. *)
Variable path_Match : string -> string -> bool.

Definition globMatch (pattern name : string) : bool := path_Match pattern name.

(** The body of the loop of [IgnoreMatcher.Match] for the pattern [p]: the
    value of [match] at its end, [false] when the pattern is skipped. *)
Definition pattern_match (m : IgnoreMatcher) (path : path) (isDir : bool)
    (p : Pattern) : bool :=
  let relPath := Rel (dir m) path in
  if isDirOnly p && negb isDir then false
  else if isRooted p then globMatch (pattern p) relPath
  else if contains_byte "/" (pattern p) then globMatch (pattern p) relPath
  else globMatch (pattern p) (Base_rel (dir m) path).

(** The loop [for i := len(m.patterns) - 1; i >= 0; i--] over the patterns
    taken from the last to the first: the pattern it returns on. *)
Fixpoint first_match (m : IgnoreMatcher) (path : path) (isDir : bool)
    (reversed : list Pattern) : option Pattern :=
  match reversed with
  | [] => None
  | p :: rest =>
      if pattern_match m path isDir p then Some p
      else first_match m path isDir rest
  end.

(** [IgnoreMatcher.Match]; on the nil matcher it is the answer of a caller
    that found [m.parent == nil] or [e.matcher == nil]. *)
Fixpoint Match (m : IgnoreMatcher) (path : path) (isDir : bool)
    : bool * option Pattern :=
  match m with
  | nil_matcher => (false, None)
  | MkMatcher ps parent _ =>
      match first_match m path isDir (rev ps) with
      | Some p => if isNegation p then (false, Some p) else (true, Some p)
      | None => Match parent path isDir
      end
  end.

(** The matchers from [m] up to the root of the chain. *)
Fixpoint chain (m : IgnoreMatcher) : list IgnoreMatcher :=
  match m with
  | nil_matcher => []
  | MkMatcher _ parent _ => m :: chain parent
  end.

(* --------------------------------------------------------------------- *)
(** *** The hash cache (util.go)                                          *)
(* --------------------------------------------------------------------- *)

Definition decimal (z : Z) : string :=
  DecimalString.NilZero.string_of_int (Z.to_int z).

(** The key [fmt.Sprintf("%d %d %s", mtime_ms, size, relPath)]. *)
Definition cache_key (mtime size : Z) (relPath : string) : string :=
  decimal mtime +:+ " " +:+ decimal size +:+ " " +:+ relPath.

(** [HashCache.FileHash] for the file at [path] below [top], with the cache
    map before and after the call; [None] is the error of [os.Open]. *)
Definition FileHash (hc : gmap string string) (top path : path)
    (mtime : Z) (readable : bool) (content : string)
    : option string * gmap string string :=
  let key := cache_key mtime (Z.of_nat (len content)) (Rel top path) in
  let compute :=
    if readable
    then let h := md5hex content in (Some h, <[key := h]> hc)
    else (None, hc) in
  match hc !! key with
  | Some h => if negb (String.eqb h EmptyString) then (Some h, hc) else compute
  | None => compute
  end.

(* --------------------------------------------------------------------- *)
(** *** Entries: digest, listing and order (store.go)                     *)
(* --------------------------------------------------------------------- *)

(** [Entry.Hash()]; [None] is an error.  For a directory it is the digest of
    [ContentAsText], whose loop is the inner [fix]. *)
Fixpoint Hash (e : Entry) : option string :=
  match e with
  | FileEntry _ _ h _ _ => Some h
  | LinkEntry _ _ _ h => Some h
  | DirectoryEntry _ _ _ content _ =>
      match content with
      | None => None
      | Some children =>
          option_map md5hex
            ((fix text (children : list Entry) : option string :=
                match children with
                | [] => Some EmptyString
                | child :: rest =>
                    match Hash child with
                    | None => None
                    | Some h =>
                        match text rest with
                        | None => None
                        | Some t =>
                            Some (listing_line (typeChar (Type_ child)) h (Name child)
                                  +:+ String LF t)
                        end
                    end
                end) children)
      end
  end.

(** The loop of [ContentAsText] over the children. *)
Fixpoint listing_text (children : list Entry) : option string :=
  match children with
  | [] => Some EmptyString
  | child :: rest =>
      match Hash child with
      | None => None
      | Some h =>
          match listing_text rest with
          | None => None
          | Some t =>
              Some (listing_line (typeChar (Type_ child)) h (Name child) +:+ String LF t)
          end
      end
  end.

(** [DirectoryEntry.ContentAsText] *)
Definition ContentAsText (e : Entry) : option string :=
  match e with
  | DirectoryEntry _ _ _ (Some children) _ => listing_text children
  | _ => None
  end.

(** [hi, _ := ei.Hash()] : an error leaves the empty string. *)
Definition hash_or_empty (e : Entry) : string :=
  match Hash e with Some h => h | None => EmptyString end.

(** [entrySorter.Less] *)
Definition Less (ei ej : Entry) : bool :=
  if negb (Type_ ei =? Type_ ej) then Type_ ei <? Type_ ej
  else
    let hi := hash_or_empty ei in
    let hj := hash_or_empty ej in
    if negb (String.eqb hi hj) then lt hi hj
    else lt (Name ei) (Name ej).

(** [sort.Sort(&entrySorter{entries})].  The library sort is not stable; the
    model inserts the entries one by one, each behind the entries that are
    not greater. *)
Fixpoint insert_entry (e : Entry) (sorted : list Entry) : list Entry :=
  match sorted with
  | [] => [e]
  | x :: rest => if Less e x then e :: sorted else x :: insert_entry e rest
  end.

Definition sort_entries (es : list Entry) : list Entry :=
  foldl (fun sorted e => insert_entry e sorted) [] es.

(* --------------------------------------------------------------------- *)
(** *** Scanning the source (store.go)                                    *)
(* --------------------------------------------------------------------- *)

Definition lookup_child (children : list (string * node)) (name : string)
    : option node :=
  snd <$> List.find (fun c => String.eqb (fst c) name) children.

(** One round of the loop of [LoadIgnoreFiles] for the file [f] of the
    directory: the matcher afterwards, and [false] when [loadFile] returns
    an error.  [os.Stat] and [os.Open] follow a symbolic link; the model has
    no link resolution and reads a link, like a directory or an unreadable
    file, as a file that fails to load. *)
Definition load_ignore_file (children : list (string * node)) (f : string)
    (m : IgnoreMatcher) : IgnoreMatcher * bool :=
  match lookup_child children f with
  | None => (m, true)
  | Some (NFile _ true content) => (loadFile m f content, true)
  | Some _ => (m, false)
  end.

(** [IgnoreMatcher.LoadIgnoreFiles]: [.gitignore], then [.backupignore]; the
    first error ends the loop, and the caller drops it. *)
Definition LoadIgnoreFiles (m : IgnoreMatcher) (children : list (string * node))
    : IgnoreMatcher :=
  let '(m1, ok) := load_ignore_file children ".gitignore" m in
  if ok then fst (load_ignore_file children ".backupignore" m1) else m1.

(** [NewFileEntry] *)
Definition NewFileEntry (hc : gmap string string) (top path : path)
    (mtime : Z) (readable : bool) (content : string)
    : option Entry * gmap string string :=
  match FileHash hc top path mtime readable content with
  | (Some h, hc') => (Some (FileEntry path (Base path) h readable content), hc')
  | (None, hc') => (None, hc')
  end.

(** [NewLinkEntry] *)
Definition NewLinkEntry (path : path) (target : string) : Entry :=
  LinkEntry path (Base path) target (md5hex target).

(** What one round of the loop of [scan] does with a child. *)
Inductive step_result :=
| StepIgnored (ie : IgnoredEntry)                 (* appended to [ignored] *)
| StepSkip                                        (* the [.backup] entry *)
| StepEntry (e : Entry) (hc : gmap string string) (* appended to [entries] *)
| StepError (hc : gmap string string).            (* [scan] returns the error *)

(** The body of the loop of [DirectoryEntry.scan] for the child [name] of the
    directory at [dirPath]; [newDir] is [NewDirectoryEntry]. *)
Definition scan_child
    (newDir : node -> gmap string string -> path -> IgnoreMatcher
              -> Entry * gmap string string)
    (top : path) (m : IgnoreMatcher) (dirPath : path) (hc : gmap string string)
    (name : string) (child : node) : step_result :=
  let fullPath := dirPath ++ [name] in
  let isDir := is_dir child in
  match Match m fullPath isDir with
  | (true, pat) =>
      StepIgnored {| Path := fullPath; IgnoredName := name; Reason := pat |}
  | (false, _) =>
      match child with
      | NSymlink target =>
          match Match m fullPath false with
          | (true, pat) =>
              StepIgnored {| Path := fullPath; IgnoredName := name; Reason := pat |}
          | (false, _) => StepEntry (NewLinkEntry fullPath target) hc
          end
      | NDir _ _ =>
          if String.eqb name ".backup" then StepSkip
          else let '(e, hc') := newDir child hc fullPath m in StepEntry e hc'
      | NFile mtime readable content =>
          if String.eqb name ".backup" then StepSkip
          else
            match NewFileEntry hc top fullPath mtime readable content with
            | (Some e, hc') => StepEntry e hc'
            | (None, hc') => StepError hc'
            end
      end
  end.

(** The loop of [scan] and the sort after it: the content ([None] when
    [scan] returns an error), the ignored entries and the cache. *)
Fixpoint scan_loop
    (newDir : node -> gmap string string -> path -> IgnoreMatcher
              -> Entry * gmap string string)
    (top : path) (m : IgnoreMatcher) (dirPath : path)
    (files : list (string * node)) (hc : gmap string string)
    (entries : list Entry) (ignored : list IgnoredEntry)
    : option (list Entry) * list IgnoredEntry * gmap string string :=
  match files with
  | [] => (Some (sort_entries entries), ignored, hc)
  | (name, child) :: rest =>
      match scan_child newDir top m dirPath hc name child with
      | StepIgnored ie => scan_loop newDir top m dirPath rest hc entries (ignored ++ [ie])
      | StepSkip => scan_loop newDir top m dirPath rest hc entries ignored
      | StepEntry e hc' => scan_loop newDir top m dirPath rest hc' (entries ++ [e]) ignored
      | StepError hc' => (None, [], hc')
      end
  end.

(** [NewDirectoryEntry] together with the [scan] of the new entry.  The code
    scans a directory when its content is first asked for; the source does
    not change during a backup, so the model scans it when the entry is
    made.  A directory that [os.ReadDir] cannot list has no children. *)
Fixpoint NewDirectoryEntry (top : path) (n : node) (hc : gmap string string)
    (path : path) (parentMatcher : IgnoreMatcher) {struct n}
    : Entry * gmap string string :=
  match n with
  | NDir readable children =>
      let m := LoadIgnoreFiles (NewIgnoreMatcher path parentMatcher) children in
      let '(content, ignored, hc') :=
        if readable
        then scan_loop (NewDirectoryEntry top) top m path children hc [] []
        else (Some [], [], hc) in
      (DirectoryEntry path (Base path) m content ignored, hc')
  | _ =>
      (DirectoryEntry path (Base path) (NewIgnoreMatcher path parentMatcher)
         (Some []) [], hc)
  end.

(* --------------------------------------------------------------------- *)
(** *** Saving entries (store.go)                                         *)
(* --------------------------------------------------------------------- *)

Inductive save_error :=
| ErrInvalidHash                 (* "invalid hash" *)
| ErrMkdirAll                    (* os.MkdirAll on the shard directory *)
| ErrOpenSource (path : path)    (* os.Open of the source file *)
| ErrContent (path : path).      (* the error of Content() or Hash() *)

Definition with_store (st : backup_state) (s : Store) : backup_state :=
  {| store := s; Stats := Stats st |}.

Definition incFilesTotal (st : backup_state) : backup_state :=
  let t := Stats st in
  {| store := store st;
     Stats := {| FilesTotal := add64 (FilesTotal t) 1; FilesArchived := FilesArchived t;
                 DirsTotal := DirsTotal t; DirsArchived := DirsArchived t;
                 BytesArchived := BytesArchived t |} |}.

Definition incFilesArchived (st : backup_state) : backup_state :=
  let t := Stats st in
  {| store := store st;
     Stats := {| FilesTotal := FilesTotal t; FilesArchived := add64 (FilesArchived t) 1;
                 DirsTotal := DirsTotal t; DirsArchived := DirsArchived t;
                 BytesArchived := BytesArchived t |} |}.

Definition incDirsTotal (st : backup_state) : backup_state :=
  let t := Stats st in
  {| store := store st;
     Stats := {| FilesTotal := FilesTotal t; FilesArchived := FilesArchived t;
                 DirsTotal := add64 (DirsTotal t) 1; DirsArchived := DirsArchived t;
                 BytesArchived := BytesArchived t |} |}.

Definition incDirsArchived (st : backup_state) : backup_state :=
  let t := Stats st in
  {| store := store st;
     Stats := {| FilesTotal := FilesTotal t; FilesArchived := FilesArchived t;
                 DirsTotal := DirsTotal t; DirsArchived := add64 (DirsArchived t) 1;
                 BytesArchived := BytesArchived t |} |}.

Definition addBytesArchived (n : Z) (st : backup_state) : backup_state :=
  let t := Stats st in
  {| store := store st;
     Stats := {| FilesTotal := FilesTotal t; FilesArchived := FilesArchived t;
                 DirsTotal := DirsTotal t; DirsArchived := DirsArchived t;
                 BytesArchived := add64 (BytesArchived t) n |} |}.

(** The files of a shard directory; none when the directory is missing. *)
Definition shard_files (s : Store) (shard : string) : gmap string blob_file :=
  match StoreData s !! shard with
  | Some (Shard files) => files
  | _ => ∅
  end.

Definition set_shard (s : Store) (shard : string) (files : gmap string blob_file)
    : Store :=
  {| StoreData := <[shard := Shard files]> (StoreData s);
     StoreSnapshots := StoreSnapshots s |}.

(** [os.MkdirAll(filepath.Dir(dest), 0755)]; [None] when the shard name is
    taken by something that is not a directory. *)
Definition MkdirAll_shard (s : Store) (shard : string) : option Store :=
  match StoreData s !! shard with
  | Some (Shard _) => Some s
  | Some DataStray => None
  | None => Some (set_shard s shard ∅)
  end.

(** [os.Create(name)], the bytes written through the gzip writer, and the
    closing of both. *)
Definition write_file (s : Store) (shard name bytes : string) : Store :=
  set_shard s shard
    (<[name := {| bbytes := bytes; breadable := true; bremovable := true |}]>
       (shard_files s shard)).

(** [os.Rename(from, to)] inside a shard directory. *)
Definition rename_file (s : Store) (shard from to : string) : Store :=
  match shard_files s shard !! from with
  | Some f => set_shard s shard (<[to := f]> (delete from (shard_files s shard)))
  | None => s
  end.

(** The end of the three [Save] methods: the payload is compressed into
    [dest + ".partial"], which is then renamed to [dest]. *)
Definition place_blob (s : Store) (shard file payload : string) : Store :=
  let tempDest := file +:+ ".partial" in
  rename_file (write_file s shard tempDest (gzip payload)) shard tempDest file.

(** [FileEntry.Save] *)
Definition FileEntry_Save (DryRun : bool) (path : path) (hash : string)
    (readable : bool) (bytes : string) (st : backup_state)
    : backup_state * option save_error :=
  let st := incFilesTotal st in
  match DataStore hash with
  | None => (st, Some ErrInvalidHash)
  | Some (shard, file) =>
      match stat_blob (store st) hash with
      | Some _ => (st, None)
      | None =>
          let st := incFilesArchived st in
          let st := addBytesArchived (Z.of_nat (len bytes)) st in
          if DryRun then (st, None)
          else
            match MkdirAll_shard (store st) shard with
            | None => (st, Some ErrMkdirAll)
            | Some s1 =>
                if readable
                then (with_store st (place_blob s1 shard file bytes), None)
                else (with_store st s1, Some (ErrOpenSource path))
            end
      end
  end.

(** [LinkEntry.Save] *)
Definition LinkEntry_Save (DryRun : bool) (hash target : string)
    (st : backup_state) : backup_state * option save_error :=
  let st := incFilesTotal st in
  match DataStore hash with
  | None => (st, Some ErrInvalidHash)
  | Some (shard, file) =>
      match stat_blob (store st) hash with
      | Some _ => (st, None)
      | None =>
          let st := incFilesArchived st in
          if DryRun then (st, None)
          else
            match MkdirAll_shard (store st) shard with
            | None => (st, Some ErrMkdirAll)
            | Some s1 => (with_store st (place_blob s1 shard file target), None)
            end
      end
  end.

(** The part of [DirectoryEntry.Save] after the children are saved; [h] and
    [text] are the results of [Hash] and [ContentAsText]. *)
Definition save_listing (DryRun : bool) (h text : string) (st : backup_state)
    : backup_state * option save_error :=
  match DataStore h with
  | None => (st, Some ErrInvalidHash)
  | Some (shard, file) =>
      match stat_blob (store st) h with
      | Some _ => (st, None)
      | None =>
          let st := incDirsArchived st in
          if DryRun then (st, None)
          else
            match MkdirAll_shard (store st) shard with
            | None => (st, Some ErrMkdirAll)
            | Some s1 => (with_store st (place_blob s1 shard file text), None)
            end
      end
  end.

(** [Entry.Save]; for a directory the inner [fix] is the loop over the
    children. *)
Fixpoint Save (DryRun : bool) (e : Entry) (st : backup_state)
    : backup_state * option save_error :=
  match e with
  | FileEntry path _ hash readable bytes =>
      FileEntry_Save DryRun path hash readable bytes st
  | LinkEntry _ _ target hash => LinkEntry_Save DryRun hash target st
  | DirectoryEntry path _ _ content _ =>
      let st := incDirsTotal st in
      match content with
      | None => (st, Some (ErrContent path))
      | Some children =>
          match
            (fix save_children (children : list Entry) (st : backup_state)
               : backup_state * option save_error :=
               match children with
               | [] => (st, None)
               | child :: rest =>
                   match Save DryRun child st with
                   | (st', None) => save_children rest st'
                   | r => r
                   end
               end) children st
          with
          | (st', Some err) => (st', Some err)
          | (st', None) =>
              match listing_text children with
              | None => (st', Some (ErrContent path))
              | Some text => save_listing DryRun (md5hex text) text st'
              end
          end
      end
  end.

(** The loop of [DirectoryEntry.Save] over the children. *)
Definition save_children (DryRun : bool)
    : list Entry -> backup_state -> backup_state * option save_error :=
  fix save_children (children : list Entry) (st : backup_state) :=
    match children with
    | [] => (st, None)
    | child :: rest =>
        match Save DryRun child st with
        | (st', None) => save_children rest st'
        | r => r
        end
    end.

(* --------------------------------------------------------------------- *)
(** *** The lines of a listing as triples                                 *)
(* --------------------------------------------------------------------- *)

(** What a line of a listing holds: type, digest and name. *)
Definition item : Type := Z * string * string.

(** The triple that [ContentAsText] prints and [Less] compares. *)
Definition item_of (e : Entry) : item := (Type_ e, hash_or_empty e, Name e).

(** The comparison of [entrySorter.Less], on the triples. *)
Definition item_less (a b : item) : bool :=
  let '(ta, ha, na) := a in
  let '(tb, hb, nb) := b in
  if negb (ta =? tb) then ta <? tb
  else if negb (String.eqb ha hb) then lt ha hb
  else lt na nb.

(** [a] may stand before [b] in a sorted listing. *)
Definition item_le (a b : item) : Prop := item_less b a = false.
Definition entry_le (a b : Entry) : Prop := Less b a = false.

Definition print_item (it : item) : string :=
  let '(t, h, n) := it in listing_line (typeChar t) h n.

(** The text of a listing: every line followed by a line feed. *)
Fixpoint print_items (items : list item) : string :=
  match items with
  | [] => EmptyString
  | it :: rest => print_item it +:+ String LF (print_items rest)
  end.

(** The triple of an entry of the snapshot reader. *)
Definition item_of_backup (e : BackupEntry) : item :=
  match e with
  | BackupFile h n => (EntryTypeFile, h, n)
  | BackupDirectory h n => (EntryTypeDirectory, h, n)
  | BackupLink h n => (EntryTypeLink, h, n)
  end.

Fixpoint insert_item (it : item) (sorted : list item) : list item :=
  match sorted with
  | [] => [it]
  | x :: rest => if item_less it x then it :: sorted else x :: insert_item it rest
  end.

Definition sort_items (items : list item) : list item :=
  foldl (fun sorted it => insert_item it sorted) [] items.

(** Re-serializing a directory that was read back: the entries of the
    reader's map, put in the order of [entrySorter] and printed in the format
    of [ContentAsText]. *)
Definition reserialize (m : gmap string BackupEntry) : string :=
  print_items (sort_items (item_of_backup <$> (snd <$> map_to_list m))).

(** A name that a listing line can carry: not empty, without line feed, and
    not ending in a carriage return. *)
Definition clean_name (n : string) : Prop :=
  n <> EmptyString /\ contains_byte LF n = false /\ dropCR n = n.

(** A digest as the digest function prints it, as far as a listing line
    depends on it: 32 bytes, none a line feed. *)
Definition clean_digest (h : string) : Prop :=
  String.length h = 32%nat /\ contains_byte LF h = false.

Definition clean_item (it : item) : Prop :=
  let '(t, h, n) := it in
  (t = EntryTypeFile \/ t = EntryTypeDirectory \/ t = EntryTypeLink)
  /\ clean_digest h /\ clean_name n.

(* --------------------------------------------------------------------- *)
(** *** What a finished backup leaves behind                              *)
(* --------------------------------------------------------------------- *)

(** Every blob of the tree of [e] is in the store. *)
Fixpoint saved (s : Store) (e : Entry) : Prop :=
  match e with
  | FileEntry _ _ h _ _ => is_Some (stat_blob s h)
  | LinkEntry _ _ _ h => is_Some (stat_blob s h)
  | DirectoryEntry _ _ _ content _ =>
      match content with
      | None => False
      | Some children =>
          (fix all (children : list Entry) : Prop :=
             match children with
             | [] => True
             | child :: rest => saved s child /\ all rest
             end) children
          /\ exists text, listing_text children = Some text
                          /\ is_Some (stat_blob s (md5hex text))
      end
  end.


(** The digests found in [s] are found in [s']. *)
Definition grows (s s' : Store) : Prop :=
  forall h, is_Some (stat_blob s h) -> is_Some (stat_blob s' h).

(** The store and the counters of archived files, directories and bytes are
    the same in [st] and [st']. *)
Definition same_archive (st st' : backup_state) : Prop :=
  store st' = store st
  /\ FilesArchived (Stats st') = FilesArchived (Stats st)
  /\ DirsArchived (Stats st') = DirsArchived (Stats st)
  /\ BytesArchived (Stats st') = BytesArchived (Stats st).


(* --------------------------------------------------------------------- *)
(** *** The integrity check (check.go)                                    *)
(* --------------------------------------------------------------------- *)

Inductive stat_result :=
| StatFound (f : blob_file)
| StatNotExist            (* the error satisfies os.IsNotExist *)
| StatError.              (* any other error *)

(** [os.Stat(b.Store.DataStore(hash))] with its three outcomes. *)
Definition os_Stat (s : Store) (hash : string) : stat_result :=
  match stat_blob s hash with
  | Some f => StatFound f
  | None => if under_stray s hash then StatError else StatNotExist
  end.

(** The errors of [verifyBlobHash]. *)
Inductive hash_error :=
| HashOpenError                           (* os.Open *)
| HashGzipError                           (* "gzip error" *)
| HashCopyError                           (* "hashing error" *)
| HashMismatch (expected actual : string) (* "hash mismatch" *).

(** The errors that [Verify] returns. *)
Inductive check_error :=
| ErrListRoots                            (* "failed to list backup roots" *)
| ErrRootCorrupted (head : list string)   (* "root %s corrupted" *)
| ErrTraversal (head : list string)       (* "traversal error for root %s" *)
| ErrMissingBlob (hash : string)          (* "missing blob" *)
| ErrEmptyBlob (hash : string)            (* "empty blob" *)
| ErrCorruptedBlob (hash : string) (e : hash_error)  (* "corrupted blob" *)
| ErrDirContent (hash : string)           (* "failed to read dir content" *)
| ErrUnreferencedDetection (e : reach_error)
                                          (* "unreferenced blob detection failed" *)
| ErrUnreferenced (hash : string)         (* "unreferenced blob" *)
| ErrHashCache.                           (* "hash cache verification failed" *)

(** The slice [errs] and the two maps of [Verify], used as sets. *)
Record check_state := MkCheck {
  errs : list check_error;
  verifiedBlobs : gset string;
  traversedDirs : gset string
}.

Definition add_err (e : check_error) (st : check_state) : check_state :=
  {| errs := errs st ++ [e];
     verifiedBlobs := verifiedBlobs st;
     traversedDirs := traversedDirs st |}.

Definition mark_verified (h : string) (st : check_state) : check_state :=
  {| errs := errs st;
     verifiedBlobs := {[h]} ∪ verifiedBlobs st;
     traversedDirs := traversedDirs st |}.

Definition mark_traversed (h : string) (st : check_state) : check_state :=
  {| errs := errs st;
     verifiedBlobs := verifiedBlobs st;
     traversedDirs := {[h]} ∪ traversedDirs st |}.

(** [verifyBlobHash(path, expectedHash)] for the path of the blob of
    [expectedHash]; [None] is [nil]. *)
Definition verifyBlobHash (s : Store) (expectedHash : string) : option hash_error :=
  match open_blob s expectedHash with
  | OpenNotExist | OpenDenied => Some HashOpenError
  | Opened bytes =>
      match gunzip bytes with
      | GzInvalid => Some HashGzipError
      | GzCorrupt _ => Some HashCopyError
      | GzOk payload =>
          let actualHash := md5hex payload in
          if String.eqb actualHash expectedHash then None
          else Some (HashMismatch expectedHash actualHash)
      end
  end.

(** [Backup.verifyBlob]: the state afterwards, and whether an error is
    returned. *)
Definition verifyBlob (s : Store) (deep : bool) (hash : string) (st : check_state)
    : check_state * bool :=
  if bool_decide (hash ∈ verifiedBlobs st) then (st, false)
  else
    match os_Stat s hash with
    | StatNotExist => (mark_verified hash (add_err (ErrMissingBlob hash) st), false)
    | StatError => (st, true)
    | StatFound info =>
        if (len (bbytes info) =? 0)%nat
        then (mark_verified hash (add_err (ErrEmptyBlob hash) st), false)
        else if deep then
          match verifyBlobHash s hash with
          | Some e => (mark_verified hash (add_err (ErrCorruptedBlob hash e) st), false)
          | None => (mark_verified hash st, false)
          end
        else (mark_verified hash st, false)
    end.

Inductive check_result :=
| CkOutOfFuel
| CkDone (st : check_state) (err : bool).

(** The body of the scanner loop of [traverseDirectory] for one line; [rec] is
    the recursive call.  The errors of [verifyBlob] and of the recursive call
    are dropped. *)
Definition check_line (rec : string -> check_state -> check_result)
    (s : Store) (deep : bool) (line : string) (st : check_state)
    : option check_state :=
  if (len line <? 36)%nat then Some st
  else
    let typeChar := byte_at line 0 in
    let childHash := slice line 2 34 in
    let st := fst (verifyBlob s deep childHash st) in
    if bool_decide (typeChar = Some "D"%char) then
      match rec childHash st with
      | CkOutOfFuel => None
      | CkDone st' _ => Some st'
      end
    else Some st.

Fixpoint check_lines (rec : string -> check_state -> check_result)
    (s : Store) (deep : bool) (lines : list string) (st : check_state)
    : option check_state :=
  match lines with
  | [] => Some st
  | line :: rest =>
      match check_line rec s deep line st with
      | None => None
      | Some st' => check_lines rec s deep rest st'
      end
  end.

(** [Backup.traverseDirectory].  As in [traverseReachable], [fuel] bounds the
    depth of the recursion; [scanner.Err()] is not looked at. *)
Fixpoint traverseDirectory (s : Store) (deep : bool) (fuel : nat) (hash : string)
    (st : check_state) : check_result :=
  if bool_decide (hash ∈ traversedDirs st) then CkDone st false
  else
    match fuel with
    | O => CkOutOfFuel
    | S fuel' =>
        let st := mark_traversed hash st in
        match open_blob s hash with
        | OpenNotExist | OpenDenied => CkDone st true
        | Opened bytes =>
            match scan_stream (gunzip bytes) with
            | None => CkDone (add_err (ErrDirContent hash) st) false
            | Some (lines, _) =>
                match check_lines (traverseDirectory s deep fuel') s deep lines st with
                | None => CkOutOfFuel
                | Some st' => CkDone st' false
                end
            end
        end
    end.

(** [Backup.verifyTree] *)
Definition verifyTree (s : Store) (deep : bool) (fuel : nat) (hash : string)
    (st : check_state) : check_result :=
  match verifyBlob s deep hash st with
  | (st', true) => CkDone st' true
  | (st', false) => traverseDirectory s deep fuel hash st'
  end.

(** [ioutil.ReadFile(r.BackupHead)] *)
Definition read_head (s : Store) (head : list string) : option string :=
  match head with
  | [name] =>
      match StoreSnapshots s !! name with
      | Some (SnapFile content) => content
      | _ => None
      end
  | [project; name] =>
      match StoreSnapshots s !! project with
      | Some (ProjectDir heads) =>
          match heads !! name with
          | Some (HeadFile content) => content
          | _ => None
          end
      | _ => None
      end
  | _ => None
  end.

(** [BackupRoot.Hash] *)
Definition BackupRoot_Hash (s : Store) (r : BackupRoot) : option string :=
  if negb (String.eqb (hash r) EmptyString) then Some (hash r)
  else TrimSpace <$> read_head s (BackupHead r).

(** The loop of [Verify] over the roots. *)
Fixpoint verify_roots (s : Store) (deep : bool) (fuel : nat) (roots : list BackupRoot)
    (st : check_state) : option check_state :=
  match roots with
  | [] => Some st
  | root :: rest =>
      match BackupRoot_Hash s root with
      | None =>
          verify_roots s deep fuel rest (add_err (ErrRootCorrupted (BackupHead root)) st)
      | Some h =>
          match verifyTree s deep fuel h st with
          | CkOutOfFuel => None
          | CkDone st' true =>
              verify_roots s deep fuel rest (add_err (ErrTraversal (BackupHead root)) st')
          | CkDone st' false => verify_roots s deep fuel rest st'
          end
      end
  end.

Definition empty_check : check_state :=
  {| errs := []; verifiedBlobs := ∅; traversedDirs := ∅ |}.

(** [Backup.Verify(deep)] for the project [ProjectName]; [hashCacheErr] tells
    whether a hash cache is present and its [Verify] returns an error.
    [None] stands for a traversal that runs out of fuel, which
    [Verify_total] excludes. *)
Definition Verify (s : Store) (ProjectName : string) (hashCacheErr : bool)
    (deep : bool) : option (list check_error) :=
  match BackupRoots s ProjectName with
  | None => Some [ErrListRoots]
  | Some roots =>
      match verify_roots s deep (store_fuel s) roots empty_check with
      | None => None
      | Some st =>
          match FindUnreferenced s with
          | FindOutOfFuel => None
          | FindError e =>
              Some (errs st ++ [ErrUnreferencedDetection e]
                      ++ if hashCacheErr then [ErrHashCache] else [])
          | Found unreferenced =>
              Some (errs st ++ (ErrUnreferenced <$> unreferenced)
                      ++ if hashCacheErr then [ErrHashCache] else [])
          end
      end
  end.

(** The lines of the listing of [d] that the check acts on. *)
Definition check_children (s : Store) (d : string) : list string :=
  match open_blob s d with
  | Opened bytes =>
      match scan_stream (gunzip bytes) with
      | Some (lines, _) => filter (fun line => (36 <= len line)%nat) lines
      | None => []
      end
  | _ => []
  end.

(** The digests of the roots for which [verifyTree] is called. *)
Definition root_hashes (s : Store) (roots : list BackupRoot) : list string :=
  omap (BackupRoot_Hash s) roots.

(** The digests that the check traverses as directories: the roots, and the
    children of type [D] of a traversed directory. *)
Inductive traversed_from (s : Store) (roots : list string) : string -> Prop :=
| traversed_root (h : string) :
    h ∈ roots -> os_Stat s h <> StatError -> traversed_from s roots h
| traversed_child (d line : string) :
    traversed_from s roots d ->
    line ∈ check_children s d ->
    byte_at line 0 = Some "D"%char ->
    traversed_from s roots (slice line 2 34).

(** The digests on which the check calls [verifyBlob]: the roots and the
    children of a traversed directory. *)
Inductive verified_from (s : Store) (roots : list string) : string -> Prop :=
| verified_root (h : string) : h ∈ roots -> verified_from s roots h
| verified_child (d line : string) :
    traversed_from s roots d ->
    line ∈ check_children s d ->
    verified_from s roots (slice line 2 34).

(* --------------------------------------------------------------------- *)
(** *** Restoring entries (backup_entry.go)                               *)
(* --------------------------------------------------------------------- *)

(** What lies at a path of the destination file system: a regular file with
    its permission bits and content, a symbolic link, or a directory.  The
    empty path is the root, which is a directory and has no entry in the
    map.  Two things are outside the model: the resolution of symbolic
    links (a call that would follow one ends in [FsOutside]) and permission
    checks (the process may read and write everywhere). *)
Inductive fnode :=
| FFile (mode : Z) (content : string)
| FLink (target : string)
| FDir (mode : Z).

Abbreviation fsys := (gmap (list string) fnode).

Inductive fs_status := FsOk | FsErr | FsOutside.

(** [filepath.Dir] *)
Definition Dir (p : path) : path := removelast p.

Definition is_dir_at (fs : fsys) (p : path) : bool :=
  match p with
  | [] => true
  | _ => match fs !! p with
         | Some (FDir _) => true
         | _ => false
         end
  end.

(** [os.MkdirAll(path, perm)]: the walk from [done] down through [rest]; a
    missing directory is made with the bits [perm &^ umask]. *)
Fixpoint mkdir_from (umask perm : Z) (done rest : path) (fs : fsys)
    : fsys * fs_status :=
  match rest with
  | [] => (fs, FsOk)
  | name :: rest' =>
      let p := done ++ [name] in
      match fs !! p with
      | Some (FDir _) => mkdir_from umask perm p rest' fs
      | Some (FFile _ _) => (fs, FsErr)
      | Some (FLink _) => (fs, FsOutside)
      | None => mkdir_from umask perm p rest' (<[p := FDir (Z.ldiff perm umask)]> fs)
      end
  end.

Definition MkdirAll (umask : Z) (fs : fsys) (p : path) (perm : Z) : fsys * fs_status :=
  mkdir_from umask perm [] p fs.

(** [os.Create(name)], that is [OpenFile(name, O_RDWR|O_CREATE|O_TRUNC, 0666)]:
    an existing file is truncated and keeps its bits, a new file gets
    [0666 &^ umask]. *)
Definition os_Create (umask : Z) (fs : fsys) (name : path) : fsys * fs_status :=
  match name with
  | [] => (fs, FsErr)
  | _ =>
      match fs !! name with
      | Some (FFile mode _) => (<[name := FFile mode EmptyString]> fs, FsOk)
      | Some (FDir _) => (fs, FsErr)
      | Some (FLink _) => (fs, FsOutside)
      | None =>
          if is_dir_at fs (Dir name)
          then (<[name := FFile (Z.ldiff 438 umask) EmptyString]> fs, FsOk)
          else (fs, FsErr)
      end
  end.

(** The bytes written to the open file. *)
Definition write_at (fs : fsys) (name : path) (content : string) : fsys :=
  match fs !! name with
  | Some (FFile mode _) => <[name := FFile mode content]> fs
  | _ => fs
  end.

(** [os.Lstat(name)] returns no error. *)
Definition os_Lstat (fs : fsys) (name : path) : bool :=
  match name with
  | [] => true
  | _ => bool_decide (is_Some (fs !! name))
  end.

Definition has_children (fs : fsys) (p : path) : bool :=
  bool_decide (map_Exists (fun q _ => p <> q /\ p `prefix_of` q) fs).

(** [os.Remove(name)]: a file, a link or an empty directory. *)
Definition os_Remove (fs : fsys) (name : path) : fsys * fs_status :=
  match name with
  | [] => (fs, FsErr)
  | _ =>
      match fs !! name with
      | None => (fs, FsErr)
      | Some (FDir _) => if has_children fs name then (fs, FsErr) else (delete name fs, FsOk)
      | Some _ => (delete name fs, FsOk)
      end
  end.

(** [os.Symlink(oldname, newname)] *)
Definition os_Symlink (fs : fsys) (oldname : string) (newname : path)
    : fsys * fs_status :=
  if String.eqb oldname EmptyString then (fs, FsErr)
  else if os_Lstat fs newname then (fs, FsErr)
  else if is_dir_at fs (Dir newname) then (<[newname := FLink oldname]> fs, FsOk)
  else (fs, FsErr).

Inductive restore_error :=
| ErrOpenStore          (* "failed to open store file" *)
| ErrGzipReader         (* "failed to create gzip reader" *)
| ErrReadTarget         (* "failed to read link target" *)
| ErrDestDir            (* "failed to create destination dir" *)
| ErrCreateDest         (* "failed to create destination file" *)
| ErrCopy               (* "failed to copy content" *)
| ErrRemoveExisting     (* "failed to remove existing file" *)
| ErrSymlink.           (* "failed to create symlink" *)

Inductive restore_status :=
| RestoreOk                          (* nil *)
| RestoreErr (e : restore_error)
| RestoreOutside.

(** [BackupFile.Restore(dest)] *)
Definition BackupFile_Restore (s : Store) (umask : Z) (fs : fsys) (hash : string)
    (dest : path) : fsys * restore_status :=
  match open_blob s hash with
  | OpenNotExist | OpenDenied => (fs, RestoreErr ErrOpenStore)
  | Opened bytes =>
      match gunzip bytes with
      | GzInvalid => (fs, RestoreErr ErrGzipReader)
      | gz =>
          match MkdirAll umask fs (Dir dest) 493 with
          | (fs1, FsErr) => (fs1, RestoreErr ErrDestDir)
          | (fs1, FsOutside) => (fs1, RestoreOutside)
          | (fs1, FsOk) =>
              match os_Create umask fs1 dest with
              | (fs2, FsErr) => (fs2, RestoreErr ErrCreateDest)
              | (fs2, FsOutside) => (fs2, RestoreOutside)
              | (fs2, FsOk) =>
                  match gz with
                  | GzOk payload => (write_at fs2 dest payload, RestoreOk)
                  | GzCorrupt prefix => (write_at fs2 dest prefix, RestoreErr ErrCopy)
                  | GzInvalid => (fs2, RestoreErr ErrGzipReader)
                  end
              end
          end
      end
  end.

(** [BackupLink.Restore(dest)] *)
Definition BackupLink_Restore (s : Store) (umask : Z) (fs : fsys) (hash : string)
    (dest : path) : fsys * restore_status :=
  match open_blob s hash with
  | OpenNotExist | OpenDenied => (fs, RestoreErr ErrOpenStore)
  | Opened bytes =>
      match gunzip bytes with
      | GzInvalid => (fs, RestoreErr ErrGzipReader)
      | GzCorrupt _ => (fs, RestoreErr ErrReadTarget)
      | GzOk target =>
          match MkdirAll umask fs (Dir dest) 493 with
          | (fs1, FsErr) => (fs1, RestoreErr ErrDestDir)
          | (fs1, FsOutside) => (fs1, RestoreOutside)
          | (fs1, FsOk) =>
              let removed :=
                if os_Lstat fs1 dest then os_Remove fs1 dest else (fs1, FsOk) in
              match removed with
              | (fs2, FsOk) =>
                  match os_Symlink fs2 target dest with
                  | (fs3, FsOk) => (fs3, RestoreOk)
                  | (fs3, _) => (fs3, RestoreErr ErrSymlink)
                  end
              | (fs2, _) => (fs2, RestoreErr ErrRemoveExisting)
              end
          end
      end
  end.

(* --------------------------------------------------------------------- *)
(** *** What a snapshot refers to                                         *)
(* --------------------------------------------------------------------- *)

(** The lines of the listing of [d] on which the reachability traversal
    acts: those of 36 bytes and more of a blob that opens and starts as a
    gzip stream. *)
Definition reach_children (s : Store) (d : string) : list string :=
  match open_blob s d with
  | Opened bytes =>
      match scan_stream (gunzip bytes) with
      | Some (lines, _) => filter (fun line => (36 <= len line)%nat) lines
      | None => []
      end
  | _ => []
  end.

(** The digests that the traversal reads as directories: the roots, and the
    children of type [D] of such a directory. *)
Inductive dir_reach (s : Store) (roots : list string) : string -> Prop :=
| dir_reach_root (h : string) : h ∈ roots -> dir_reach s roots h
| dir_reach_child (d line : string) :
    dir_reach s roots d ->
    line ∈ reach_children s d ->
    byte_at line 0 = Some "D"%char ->
    dir_reach s roots (slice line 2 34).

(** The digests a snapshot refers to: the roots, and every child of a
    directory that the traversal reads. *)
Inductive reach (s : Store) (roots : list string) : string -> Prop :=
| reach_root (h : string) : h ∈ roots -> reach s roots h
| reach_child (d line : string) :
    dir_reach s roots d ->
    line ∈ reach_children s d ->
    reach s roots (slice line 2 34).

(* --------------------------------------------------------------------- *)
(** *** More of the reader and of the status (backup_entry.go, util.go)   *)
(* --------------------------------------------------------------------- *)

(** [BaseBackupEntry.Hash] and [BaseBackupEntry.Name] *)
Definition BackupEntry_Hash (e : BackupEntry) : string :=
  match e with
  | BackupFile h _ | BackupLink h _ | BackupDirectory h _ => h
  end.

Definition BackupEntry_Name (e : BackupEntry) : string :=
  match e with
  | BackupFile _ n | BackupLink _ n | BackupDirectory _ n => n
  end.

(** The type assertion of an entry to a [BackupDirectory] succeeds. *)
Definition is_BackupDirectory (e : BackupEntry) : bool :=
  match e with BackupDirectory _ _ => true | _ => false end.

(** [DirectoryEntry.AllFilesContentIsSaved]; [None] is an error, that of
    [Content] or of [Hash].  The inner [fix] is the loop over the content. *)
Fixpoint AllFilesContentIsSaved (s : Store) (d : Entry) : option bool :=
  match d with
  | DirectoryEntry _ _ _ (Some contents) _ =>
      (fix loop (contents : list Entry) : option bool :=
         match contents with
         | [] => Some true
         | e :: rest =>
             match Hash e with
             | None => None
             | Some h =>
                 match os_Stat s h with
                 | StatNotExist => Some false
                 | _ =>
                     match e with
                     | DirectoryEntry _ _ _ _ _ =>
                         match AllFilesContentIsSaved s e with
                         | None => None
                         | Some false => Some false
                         | Some true => loop rest
                         end
                     | _ => loop rest
                     end
                 end
             end
         end) contents
  | _ => None
  end.

(** The loop of [AllFilesContentIsSaved] over the content. *)
Definition all_saved_loop (s : Store)
    : list Entry -> option bool :=
  fix loop (contents : list Entry) : option bool :=
    match contents with
    | [] => Some true
    | e :: rest =>
        match Hash e with
        | None => None
        | Some h =>
            match os_Stat s h with
            | StatNotExist => Some false
            | _ =>
                match e with
                | DirectoryEntry _ _ _ _ _ =>
                    match AllFilesContentIsSaved s e with
                    | None => None
                    | Some false => Some false
                    | Some true => loop rest
                    end
                | _ => loop rest
                end
            end
        end
    end.

(** What the check asks of the blob of a digest it reaches: a file that is
    not empty and, in the deep mode, opens and decompresses to bytes with
    that digest. *)
Definition good_blob (s : Store) (deep : bool) (h : string) : Prop :=
  exists f,
    stat_blob s h = Some f
    /\ bbytes f <> EmptyString
    /\ (deep = true ->
        breadable f = true
        /\ exists payload, gunzip (bbytes f) = GzOk payload /\ md5hex payload = h).

(** What the check asks of a directory it traverses: a blob that opens and
    starts as a gzip stream. *)
Definition good_dir (s : Store) (d : string) : Prop :=
  exists bytes, open_blob s d = Opened bytes /\ is_Some (scan_stream (gunzip bytes)).

(** An entry tree whose leaves carry the digest of their own bytes: the
    digest of a file entry is that of the content [Save] reads, that of a
    link entry is the digest of its target. *)
Fixpoint honest (e : Entry) : Prop :=
  match e with
  | FileEntry _ _ h _ bytes => h = md5hex bytes
  | LinkEntry _ _ target h => h = md5hex target
  | DirectoryEntry _ _ _ content _ =>
      match content with
      | None => True
      | Some children =>
          (fix all (children : list Entry) : Prop :=
             match children with
             | [] => True
             | child :: rest => honest child /\ all rest
             end) children
      end
  end.

(* --------------------------------------------------------------------- *)
(** *** Looking up a path in a snapshot (root.go)                         *)
(* --------------------------------------------------------------------- *)

(** [strings.Split(s, "/")]: the pieces between the separators, one more
    than there are separators. *)
Fixpoint Split_slash (s : string) : list string :=
  match s with
  | EmptyString => [EmptyString]
  | String c rest =>
      if Ascii.eqb c "/" then EmptyString :: Split_slash rest
      else match Split_slash rest with
           | [] => [String c EmptyString]
           | w :: ws => String c w :: ws
           end
  end.

(** One element of the path in the loop of [filepath.Clean]; [out] holds the
    elements written so far, the last one first.  An empty element and [.]
    are dropped; [..] removes the last real element, is kept after the
    leading [..] of a relative path, and is dropped at the root. *)
Definition clean_step (rooted : bool) (out : list string) (elem : string)
    : list string :=
  if String.eqb elem "" || String.eqb elem "." then out
  else if String.eqb elem ".." then
    match out with
    | last :: before => if String.eqb last ".." then ".." :: out else before
    | [] => if rooted then [] else [".."]
    end
  else elem :: out.

(** [filepath.Clean] on a POSIX host. *)
Definition Clean (p : string) : string :=
  if String.eqb p "" then "."
  else
    let rooted := HasPrefix p "/" in
    let out := rev (foldl (clean_step rooted) [] (Split_slash p)) in
    if rooted then "/" +:+ join_slash out
    else match out with
         | [] => "."
         | _ => join_slash out
         end.

(** [BackupRoot.TopDirectory]; [None] is the error of [Hash]. *)
Definition TopDirectory (s : Store) (r : BackupRoot) : option BackupEntry :=
  (fun h => BackupDirectory h ".") <$> BackupRoot_Hash s r.

(** The three outcomes of [Locate] and [LocateDirectory]: an error, the pair
    [(nil, nil)] of a path that is not in the snapshot, and an entry. *)
Inductive locate_result :=
| LocateError
| LocateNil
| Located (e : BackupEntry).

(** [current.Entries()] in the two loops below.  Every directory value of a
    lookup is new, so each call is the first on its value and reads the
    store; an error of the scanner is returned as an error. *)
Definition dir_entries (s : Store) (current : BackupEntry)
    : option (gmap string BackupEntry) :=
  match Entries s (BackupEntry_Hash current) with
  | EntriesRead st false => Some (entries st)
  | _ => None
  end.

(** The loop of [LocateDirectory] over the parts. *)
Fixpoint LocateDirectory_loop (s : Store) (current : BackupEntry)
    (parts : list string) : locate_result :=
  match parts with
  | [] => Located current
  | part :: rest =>
      if String.eqb part "" then LocateDirectory_loop s current rest
      else
        match dir_entries s current with
        | None => LocateError
        | Some m =>
            match m !! part with
            | None => LocateNil
            | Some (BackupDirectory h n) =>
                LocateDirectory_loop s (BackupDirectory h n) rest
            | Some _ => LocateNil
            end
        end
  end.

(** The loop of [Locate]; the test [i == len(parts)-1] is that nothing is
    left after [part]. *)
Fixpoint Locate_loop (s : Store) (current : BackupEntry) (parts : list string)
    : locate_result :=
  match parts with
  | [] => Located current
  | part :: rest =>
      if String.eqb part "" then Locate_loop s current rest
      else
        match dir_entries s current with
        | None => LocateError
        | Some m =>
            match m !! part with
            | None => LocateNil
            | Some entry =>
                match rest with
                | [] => Located entry
                | _ =>
                    match entry with
                    | BackupDirectory _ _ => Locate_loop s entry rest
                    | _ => LocateNil
                    end
                end
            end
        end
  end.

(** The common frame of the two methods around their loop. *)
Definition locate_with
    (loop : Store -> BackupEntry -> list string -> locate_result)
    (s : Store) (r : BackupRoot) (fullName : string) : locate_result :=
  match TopDirectory s r with
  | None => LocateError
  | Some top =>
      if String.eqb fullName "" || String.eqb fullName "." || String.eqb fullName "/"
      then Located top
      else
        let cleanPath := Clean fullName in
        if String.eqb cleanPath "." then Located top
        else loop s top (Split_slash cleanPath)
  end.

(** [BackupRoot.LocateDirectory] *)
Definition LocateDirectory (s : Store) (r : BackupRoot) (fullName : string)
    : locate_result :=
  locate_with LocateDirectory_loop s r fullName.

(** [BackupRoot.Locate] *)
Definition Locate (s : Store) (r : BackupRoot) (fullName : string) : locate_result :=
  locate_with Locate_loop s r fullName.

(* --------------------------------------------------------------------- *)
(** *** Leftover partial files (util.go)                                  *)
(* --------------------------------------------------------------------- *)

(** [os.Remove] of an entry of the data directory that is not a
    directory. *)
Definition remove_stray (s : Store) (name : string) : Store :=
  {| StoreData := delete name (StoreData s); StoreSnapshots := StoreSnapshots s |}.

(** The callback of [filepath.Walk] in [CleanupPartials] for a path that is
    not a directory: [name] is [info.Name()], [removable] tells whether
    [os.Remove(path)] succeeds and [remove] is its effect; the accumulator
    is the store and [count]. *)
Definition cleanup_visit (DryRun : bool) (name : string) (removable : bool)
    (remove : Store -> Store) (acc : Store * Z) : Store * Z :=
  let '(s, count) := acc in
  if HasSuffix name ".partial" then
    if DryRun then (s, add64 count 1)
    else if removable then (remove s, add64 count 1)
    else (s, count)
  else acc.

(** The walk below one shard directory. *)
Definition cleanup_shard (DryRun : bool) (shard : string)
    (files : gmap string blob_file) (acc : Store * Z) : Store * Z :=
  map_fold (fun file f acc =>
              cleanup_visit DryRun file (bremovable f)
                (fun s => remove_file s (Some (shard, file))) acc)
           acc files.

(** [Store.CleanupPartials]: the store afterwards and [count]; the error is
    always nil in the model, in which every directory of the store can be
    listed.  [filepath.Walk] visits the names in lexical order; the callback
    does not depend on the order, and the model folds over the maps.
    [stray_removable] tells for which entries of [data/] that are not
    directories [os.Remove] succeeds. *)
Definition CleanupPartials (stray_removable : string -> bool) (DryRun : bool)
    (s : Store) : Store * Z :=
  map_fold (fun name e acc =>
              match e with
              | Shard files => cleanup_shard DryRun name files acc
              | DataStray =>
                  cleanup_visit DryRun name (stray_removable name)
                    (fun s => remove_stray s name) acc
              end)
           (s, 0) (StoreData s).

(* --------------------------------------------------------------------- *)
(** *** Restoring a directory (backup_entry.go)                           *)
(* --------------------------------------------------------------------- *)

(** [filepath.Join(dest, name)] for an absolute clean [dest]: the elements
    of [name] are cleaned on top of those of [dest], so a [..] in [name]
    leaves [dest]. *)
Definition Join_name (dest : path) (name : string) : path :=
  rev (foldl (clean_step true) (rev dest) (Split_slash name)).

(** The errors of [BackupDirectory.Restore]: that of [Entries], "failed to
    create directory", and the error that the [Restore] of a file or link
    below returns. *)
Inductive tree_error :=
| ErrDirEntries
| ErrDirCreate
| ErrLeaf (e : restore_error).

Inductive tree_status :=
| TreeOk
| TreeErr (e : tree_error)
| TreeOutside.

Definition leaf_status (r : fsys * restore_status) : fsys * tree_status :=
  match r with
  | (fs, RestoreOk) => (fs, TreeOk)
  | (fs, RestoreErr e) => (fs, TreeErr (ErrLeaf e))
  | (fs, RestoreOutside) => (fs, TreeOutside)
  end.

(** The loop of [BackupDirectory.Restore] over the entries; [restore] is
    [entry.Restore], and its first error ends the loop.  The Go loop ranges
    over a map, in no particular order; the model takes the order of
    [map_to_list]. *)
Fixpoint restore_entries
    (restore : fsys -> BackupEntry -> path -> option (fsys * tree_status))
    (dest : path) (l : list (string * BackupEntry)) (fs : fsys)
    : option (fsys * tree_status) :=
  match l with
  | [] => Some (fs, TreeOk)
  | (name, entry) :: rest =>
      match restore fs entry (Join_name dest name) with
      | Some (fs', TreeOk) => restore_entries restore dest rest fs'
      | r => r
      end
  end.

(** [BackupDirectory.Restore(dest)] for the directory of digest [hash], and
    the dynamic dispatch [entry.Restore(childDest)].  The recursion follows
    the listings of the store; [fuel] bounds its depth and [None] is a
    recursion that is deeper. *)
Fixpoint BackupDirectory_Restore (s : Store) (umask : Z) (fuel : nat) (fs : fsys)
    (hash : string) (dest : path) : option (fsys * tree_status) :=
  match fuel with
  | O => None
  | S fuel' =>
      match Entries s hash with
      | EntriesRead st false =>
          match MkdirAll umask fs dest 493 with
          | (fs1, FsErr) => Some (fs1, TreeErr ErrDirCreate)
          | (fs1, FsOutside) => Some (fs1, TreeOutside)
          | (fs1, FsOk) =>
              restore_entries
                (fun fs entry childDest =>
                   match entry with
                   | BackupFile h _ =>
                       Some (leaf_status (BackupFile_Restore s umask fs h childDest))
                   | BackupLink h _ =>
                       Some (leaf_status (BackupLink_Restore s umask fs h childDest))
                   | BackupDirectory h _ =>
                       BackupDirectory_Restore s umask fuel' fs h childDest
                   end)
                dest (map_to_list (entries st)) fs1
          end
      | _ => Some (fs, TreeErr ErrDirEntries)
      end
  end.

(** [entry.Restore(dest)] for an entry of any of the three types. *)
Definition BackupEntry_Restore (s : Store) (umask : Z) (fuel : nat) (fs : fsys)
    (entry : BackupEntry) (dest : path) : option (fsys * tree_status) :=
  match entry with
  | BackupFile h _ => Some (leaf_status (BackupFile_Restore s umask fs h dest))
  | BackupLink h _ => Some (leaf_status (BackupLink_Restore s umask fs h dest))
  | BackupDirectory h _ => BackupDirectory_Restore s umask fuel fs h dest
  end.

(** *** What a restored tree is compared with *)

(** The entry at a path below [e], by the names of the children. *)
Fixpoint subentry (e : Entry) (rel : list string) {struct rel} : option Entry :=
  match rel with
  | [] => Some e
  | name :: rest =>
      match e with
      | DirectoryEntry _ _ _ (Some children) _ =>
          match List.find (fun c => String.eqb (Name c) name) children with
          | Some c => subentry c rest
          | None => None
          end
      | _ => None
      end
  end.

(** What the restore of an entry into a free place leaves at that place. *)
Definition restored_node (umask : Z) (e : Entry) : fnode :=
  match e with
  | FileEntry _ _ _ _ bytes => FFile (Z.ldiff 438 umask) bytes
  | LinkEntry _ _ target _ => FLink target
  | DirectoryEntry _ _ _ _ _ => FDir (Z.ldiff 493 umask)
  end.

(** The bytes that [Save] writes for an entry. *)
Definition payload_of (e : Entry) : option string :=
  match e with
  | FileEntry _ _ _ _ bytes => Some bytes
  | LinkEntry _ _ target _ => Some target
  | DirectoryEntry _ _ _ content _ => content ≫= listing_text
  end.

(** The entries of the tree of [e], [e] included. *)
Fixpoint tree_entries (e : Entry) : list Entry :=
  e :: match e with
       | DirectoryEntry _ _ _ (Some children) _ =>
           (fix all (children : list Entry) : list Entry :=
              match children with
              | [] => []
              | child :: rest => tree_entries child ++ all rest
              end) children
       | _ => []
       end.

(** The blob of the digest [h] opens and decompresses to [payload]. *)
Definition holds (s : Store) (h payload : string) : Prop :=
  exists bytes, open_blob s h = Opened bytes /\ gunzip bytes = GzOk payload.

(** The store holds the tree of [e]: the blob of every entry of the tree
    opens and decompresses to the bytes of that entry. *)
Definition stored (s : Store) (e : Entry) : Prop :=
  forall c, c ∈ tree_entries e ->
    exists h payload, Hash c = Some h /\ payload_of c = Some payload /\ holds s h payload.

(** A name that is one element of a path. *)
Definition plain_name (n : string) : Prop :=
  n <> EmptyString /\ contains_byte "/" n = false /\ n <> "." /\ n <> "..".

(** The names below every directory of the tree are distinct elements of a
    path that a listing line can carry, the digests have 32 bytes, and no
    link has an empty target. *)
Definition well_named (e : Entry) : Prop :=
  forall c, c ∈ tree_entries e ->
    match c with
    | DirectoryEntry _ _ _ (Some children) _ =>
        NoDup (Name <$> children)
        /\ Forall (fun x => plain_name (Name x)) children
        /\ Forall clean_item (item_of <$> children)
    | LinkEntry _ _ target _ => target <> EmptyString
    | _ => True
    end.

(** The number of directory levels of the tree of [e]. *)
Fixpoint depth (e : Entry) : nat :=
  match e with
  | DirectoryEntry _ _ _ (Some children) _ =>
      S ((fix deepest (children : list Entry) : nat :=
            match children with
            | [] => 0%nat
            | child :: rest => Nat.max (depth child) (deepest rest)
            end) children)
  | _ => 0%nat
  end.

(** ** Properties of the engine *)

(* --------------------------------------------------------------------- *)
(** *** Byte strings                                                      *)
(* --------------------------------------------------------------------- *)

Lemma length_app (a b : string) :
  String.length (a +:+ b) = (String.length a + String.length b)%nat.
Proof. induction a as [|c a IH]; simpl; [reflexivity | now rewrite IH]. Qed.

Lemma slice_from_app (a b : string) : slice_from (a +:+ b) (String.length a) = b.
Proof. induction a as [|c a IH]; simpl; [now destruct b | exact IH]. Qed.

Lemma substring_0_app (a b : string) :
  String.substring 0 (String.length a) (a +:+ b) = a.
Proof.
  induction a as [|c a IH]; simpl.
  - now destruct b.
  - now rewrite IH.
Qed.

Lemma HasSuffix_app (a b : string) : HasSuffix (a +:+ b) b = true.
Proof.
  unfold HasSuffix. rewrite length_app.
  replace (String.length a + String.length b - String.length b)%nat
    with (String.length a) by lia.
  rewrite slice_from_app, String.eqb_refl, andb_true_r.
  apply Nat.leb_le. lia.
Qed.

Lemma TrimSuffix_app (a b : string) : TrimSuffix (a +:+ b) b = a.
Proof.
  unfold TrimSuffix. rewrite HasSuffix_app, length_app.
  replace (String.length a + String.length b - String.length b)%nat
    with (String.length a) by lia.
  apply substring_0_app.
Qed.

Lemma slice_from_length (s : string) (n : nat) :
  String.length (slice_from s n) = (String.length s - n)%nat.
Proof.
  revert s; induction n as [|n IH]; intros s; simpl.
  - lia.
  - destruct s as [|c s]; simpl; [reflexivity | apply IH].
Qed.

Lemma substring_slice_from (s : string) (n : nat) :
  (n <= String.length s)%nat ->
  String.substring 0 n s +:+ slice_from s n = s.
Proof.
  revert s; induction n as [|n IH]; intros s Hn.
  - destruct s; reflexivity.
  - destruct s as [|c s]; simpl in *; [lia |].
    change (String c (String.substring 0 n s +:+ slice_from s n) = String c s).
    f_equal. apply IH. lia.
Qed.

Lemma HasSuffix_split (s p : string) :
  HasSuffix s p = true -> TrimSuffix s p +:+ p = s.
Proof.
  intros H. unfold TrimSuffix. rewrite H.
  unfold HasSuffix in H. apply andb_true_iff in H as [Hl He].
  apply Nat.leb_le in Hl. apply String.eqb_eq in He.
  rewrite <- He at 2. apply substring_slice_from. lia.
Qed.

(* --------------------------------------------------------------------- *)
(** *** Enumeration of the blobs                                          *)
(* --------------------------------------------------------------------- *)

Lemma elem_of_shard_blobs (files : gmap string blob_file) (h : string) :
  h ∈ shard_blobs files <-> is_Some (files !! (h +:+ ".gz")).
Proof.
  unfold shard_blobs. rewrite elem_of_list_to_set, list_elem_of_omap. split.
  - intros [[name f] [Hin Hsome]].
    apply elem_of_map_to_list in Hin.
    destruct (HasSuffix name ".gz") eqn:Hs; [|discriminate].
    injection Hsome as <-. rewrite (HasSuffix_split _ _ Hs). eauto.
  - intros [f Hf]. exists (h +:+ ".gz", f). split.
    + now apply elem_of_map_to_list.
    + now rewrite HasSuffix_app, TrimSuffix_app.
Qed.

Lemma elem_of_GetAllBlobs (s : Store) (h : string) :
  h ∈ GetAllBlobs s <->
  exists shard files, StoreData s !! shard = Some (Shard files)
                      /\ is_Some (files !! (h +:+ ".gz")).
Proof.
  unfold GetAllBlobs. rewrite elem_of_union_list. split.
  - intros [X [HX Hh]]. apply list_elem_of_omap in HX as [[shard e] [Hin He]].
    apply elem_of_map_to_list in Hin. destruct e as [files|]; [|discriminate].
    injection He as <-. exists shard, files. split; [assumption|].
    now apply elem_of_shard_blobs.
  - intros (shard & files & Hs & Hf). exists (shard_blobs files). split.
    + apply list_elem_of_omap. exists (shard, Shard files). split; [|reflexivity].
      now apply elem_of_map_to_list.
    + now apply elem_of_shard_blobs.
Qed.

Lemma stat_blob_GetAllBlobs (s : Store) (h : string) (f : blob_file) :
  stat_blob s h = Some f -> h ∈ GetAllBlobs s.
Proof.
  unfold stat_blob, DataStore, lookup_file. intros H.
  destruct (len h <? 2)%nat; [discriminate|].
  destruct (StoreData s !! slice h 0 2) as [[files|]|] eqn:Hs; try discriminate.
  apply elem_of_GetAllBlobs. exists (slice h 0 2), files. eauto.
Qed.

(* --------------------------------------------------------------------- *)
(** *** The traversal always has enough fuel                              *)
(* --------------------------------------------------------------------- *)

(** What a call of the traversal keeps: it never runs out of fuel, and on
    success the visited set has only grown. *)
Definition traverse_post (V : gset string) (r : traverse_result) : Prop :=
  match r with
  | TrOutOfFuel => False
  | TrError _ => True
  | TrOk st' => V ⊆ visitedDirs st'
  end.

Lemma traverse_post_mono (V V' : gset string) (r : traverse_result) :
  V ⊆ V' -> traverse_post V' r -> traverse_post V r.
Proof. destruct r; simpl; set_solver. Qed.

Lemma traverse_lines_post (rec : string -> reach_state -> traverse_result)
    (V0 : gset string) (hash : string) (scan_err : bool) (lines : list string) :
  (forall h st, h ∉ visitedDirs st -> V0 ⊆ visitedDirs st ->
                traverse_post (visitedDirs st) (rec h st)) ->
  forall st, V0 ⊆ visitedDirs st ->
             traverse_post (visitedDirs st)
               (traverse_lines rec hash scan_err lines st).
Proof.
  intros Hrec. induction lines as [|line rest IH]; intros st HV; simpl.
  - destruct scan_err; simpl; set_solver.
  - unfold traverse_line.
    destruct (len line <? 36)%nat; [now apply IH|].
    set (st1 := mark_reachable_hash (slice line 2 34) st).
    assert (visitedDirs st1 = visitedDirs st) as Hst1 by reflexivity.
    destruct (bool_decide (byte_at line 0 = Some "D"%char));
      [|cbn [andb]; rewrite <- Hst1; apply IH; now rewrite Hst1].
    destruct (bool_decide (slice line 2 34 ∈ visitedDirs st1)) eqn:Hv;
      cbn [andb negb]; [rewrite <- Hst1; apply IH; now rewrite Hst1|].
    apply bool_decide_eq_false in Hv.
    specialize (Hrec (slice line 2 34) st1 Hv HV).
    destruct (rec (slice line 2 34) st1) as [| e | st2]; simpl in *; try assumption.
    assert (V0 ⊆ visitedDirs st2) as HV2 by (etransitivity; eassumption).
    apply (traverse_post_mono _ (visitedDirs st2)); [assumption|].
    now apply IH.
Qed.

Lemma traverseReachable_fuel (s : Store) (fuel : nat) :
  forall hash st,
    hash ∉ visitedDirs st ->
    (size (GetAllBlobs s ∖ visitedDirs st) < fuel)%nat ->
    traverse_post (visitedDirs st) (traverseReachable s fuel hash st).
Proof.
  induction fuel as [|fuel IH]; intros hash st Hnv Hsz; [lia|].
  simpl. unfold open_blob.
  destruct (stat_blob s hash) as [f|] eqn:Hstat; simpl;
    [|destruct (under_stray s hash); simpl; [exact I | set_solver]].
  destruct (breadable f); simpl; [|exact I].
  destruct (scan_stream (gunzip (bbytes f))) as [[lines scan_err]|]; simpl; [|exact I].
  apply stat_blob_GetAllBlobs in Hstat.
  assert (size (GetAllBlobs s ∖ ({[hash]} ∪ visitedDirs st)) < fuel)%nat as Hlt.
  { assert (GetAllBlobs s ∖ ({[hash]} ∪ visitedDirs st)
            ⊂ GetAllBlobs s ∖ visitedDirs st) as Hsub by set_solver.
    apply subset_size in Hsub. lia. }
  apply (traverse_post_mono _ (visitedDirs (mark_visited hash st)));
    [simpl; set_solver|].
  apply (traverse_lines_post _ ({[hash]} ∪ visitedDirs st)); [|reflexivity].
  intros h st' Hh HV. apply IH; [assumption|].
  assert (GetAllBlobs s ∖ visitedDirs st'
          ⊆ GetAllBlobs s ∖ ({[hash]} ∪ visitedDirs st)) as Hsub by set_solver.
  apply subseteq_size in Hsub. lia.
Qed.

Lemma mark_roots_total (s : Store) (roots : list BackupRoot) :
  forall st,
    (size (GetAllBlobs s ∖ visitedDirs st) < store_fuel s)%nat ->
    mark_roots s (store_fuel s) roots st <> TrOutOfFuel.
Proof.
  induction roots as [|root rest IH]; intros st Hsz; simpl; [discriminate|].
  unfold markReachable.
  set (st1 := mark_reachable_hash (hash root) st).
  destruct (bool_decide (hash root ∈ visitedDirs st1)) eqn:Hv.
  - apply IH. exact Hsz.
  - apply bool_decide_eq_false in Hv.
    pose proof (traverseReachable_fuel s (store_fuel s) (hash root) st1 Hv Hsz) as Hp.
    destruct (traverseReachable s (store_fuel s) (hash root) st1) as [| e | st2];
      simpl in Hp; [contradiction | discriminate |].
    apply IH.
    assert (GetAllBlobs s ∖ visitedDirs st2 ⊆ GetAllBlobs s ∖ visitedDirs st)
      as Hsub by set_solver.
    apply subseteq_size in Hsub. lia.
Qed.

(** [GetReachableBlobs] returns: the traversal ends within its fuel. *)
Lemma GetReachableBlobs_total (s : Store) : GetReachableBlobs s <> TrOutOfFuel.
Proof.
  apply mark_roots_total. unfold store_fuel. simpl.
  assert (GetAllBlobs s ∖ ∅ ⊆ GetAllBlobs s) as Hsub by set_solver.
  apply subseteq_size in Hsub. lia.
Qed.

(* --------------------------------------------------------------------- *)
(** *** FindUnreferenced and Prune                                        *)
(* --------------------------------------------------------------------- *)


Lemma app_inj_tail (a b c : string) : a +:+ c = b +:+ c -> a = b.
Proof.
  revert b; induction a as [|x a IH]; intros b H.
  - destruct b as [|y b]; [reflexivity|].
    apply (f_equal String.length) in H. simpl in H.
    change (String.length c = S (String.length (b +:+ c))) in H.
    rewrite length_app in H. lia.
  - destruct b as [|y b].
    + apply (f_equal String.length) in H.
      change (S (String.length (a +:+ c)) = String.length c) in H.
      rewrite length_app in H. lia.
    + change (String x (a +:+ c) = String y (b +:+ c)) in H.
      injection H as -> H. f_equal. now apply IH.
Qed.

Lemma DataStore_inj (h h' : string) (p : string * string) :
  DataStore h = Some p -> DataStore h' = Some p -> h = h'.
Proof.
  unfold DataStore. intros H H'.
  destruct (len h <? 2)%nat; [discriminate|].
  destruct (len h' <? 2)%nat; [discriminate|].
  injection H as <-. injection H' as _ H'.
  symmetry. eapply app_inj_tail. exact H'.
Qed.

Lemma lookup_file_remove (s : Store) (p q : option (string * string)) :
  lookup_file (remove_file s p) q
  = if decide (p = q) then None else lookup_file s q.
Proof.
  destruct p as [[shard file]|]; simpl.
  - destruct (StoreData s !! shard) as [[files|]|] eqn:Hs; simpl.
    + destruct q as [[shard' file']|]; simpl; [|reflexivity].
      destruct (decide (shard = shard')) as [<-|Hne].
      * rewrite lookup_insert_eq, Hs.
        destruct (decide (file = file')) as [<-|Hnf].
        -- rewrite lookup_delete_eq. now rewrite decide_True.
        -- rewrite lookup_delete_ne by assumption.
           rewrite decide_False by congruence. reflexivity.
      * rewrite lookup_insert_ne by assumption.
        rewrite decide_False by congruence. reflexivity.
    + case_decide as Hq; [|reflexivity]. subst q. simpl. now rewrite Hs.
    + case_decide as Hq; [|reflexivity]. subst q. simpl. now rewrite Hs.
  - case_decide as Hq; [|reflexivity]. now subst q.
Qed.

Lemma stat_blob_remove (s : Store) (h h' : string) :
  stat_blob (remove_file s (DataStore h)) h'
  = if decide (h = h') then None else stat_blob s h'.
Proof.
  unfold stat_blob. rewrite lookup_file_remove.
  destruct (decide (h = h')) as [<-|Hne].
  - now rewrite decide_True.
  - destruct (decide (DataStore h = DataStore h')) as [He|]; [|reflexivity].
    destruct (DataStore h') as [p|] eqn:Hp; [|reflexivity].
    exfalso. apply Hne. eapply DataStore_inj; eassumption.
Qed.

Lemma present_remove (s : Store) (h : string) (l : list string) :
  h ∉ l -> present (remove_file s (DataStore h)) l = present s l.
Proof.
  induction l as [|h' l IH]; intros Hh; [reflexivity|].
  unfold present in *. rewrite !filter_cons, IH by set_solver.
  assert (stat_blob (remove_file s (DataStore h)) h' = stat_blob s h') as E.
  { rewrite stat_blob_remove. apply decide_False. set_solver. }
  destruct (decide (is_Some (stat_blob (remove_file s (DataStore h)) h'))) as [H1|H1];
    destruct (decide (is_Some (stat_blob s h'))) as [H2|H2];
    try reflexivity; rewrite E in H1; contradiction.
Qed.

Lemma total_size_remove (s : Store) (h : string) (l : list string) :
  h ∉ l -> total_size (remove_file s (DataStore h)) l = total_size s l.
Proof.
  induction l as [|h' l IH]; intros Hh; simpl; [reflexivity|].
  rewrite IH by set_solver. f_equal.
  unfold blob_size. rewrite stat_blob_remove.
  rewrite decide_False; [reflexivity|]. set_solver.
Qed.



Lemma counted_cons (s : Store) (h : string) (l : list string) (stats : PruneStats) :
  counted s (h :: l) stats = counted s l (count_blob s stats h).
Proof. reflexivity. Qed.

Lemma counted_remove (s : Store) (h : string) (l : list string) :
  h ∉ l -> forall stats,
    counted (remove_file s (DataStore h)) l stats = counted s l stats.
Proof.
  induction l as [|h' l IH]; intros Hh stats; simpl; [reflexivity|].
  rewrite IH by set_solver. f_equal.
  unfold count_blob. rewrite stat_blob_remove.
  rewrite decide_False; [reflexivity|]. set_solver.
Qed.

(** A path that no digest of [l] names keeps its file. *)
Definition frame (l : list string) (s s' : Store) : Prop :=
  forall p, (forall h, h ∈ l -> DataStore h <> p) -> lookup_file s' p = lookup_file s p.

Lemma frame_stat_blob (l : list string) (s s' : Store) (h : string) :
  frame l s s' -> h ∉ l -> stat_blob s' h = stat_blob s h.
Proof.
  intros Hfr Hh. unfold stat_blob.
  destruct (DataStore h) as [p|] eqn:Hp; [|reflexivity].
  apply Hfr. intros h' Hin Heq. apply Hh.
  now rewrite (DataStore_inj h h' p Hp Heq).
Qed.

(** What the loop of [Prune] does, for digests without repetition. *)
Definition prune_post (dryRun : bool) (l : list string) (s : Store)
    (stats : PruneStats) (r : Store * PruneStats * option prune_error) : Prop :=
  let '(s', stats', err) := r in
  StoreSnapshots s' = StoreSnapshots s
  /\ frame l s s'
  /\ (dryRun = true -> s' = s /\ err = None)
  /\ match err with
     | None =>
         stats' = counted s l stats
         /\ (dryRun = false -> forall h, h ∈ l -> stat_blob s' h = None)
     | Some e =>
         exists pre h post f,
           l = pre ++ h :: post
           /\ e = PruneRemoveError h
           /\ stat_blob s h = Some f /\ bremovable f = false
           /\ stats' = counted s pre stats
           /\ (forall h', h' ∈ pre -> stat_blob s' h' = None)
           /\ (forall h', h' ∈ h :: post -> stat_blob s' h' = stat_blob s h')
     end.

Lemma prune_loop_post (dryRun : bool) (l : list string) :
  NoDup l -> forall s stats, prune_post dryRun l s stats (prune_loop dryRun l s stats).
Proof.
  induction l as [|h rest IH]; intros Hnd s stats.
  - simpl. repeat split; try reflexivity. intros _ h Hh. set_solver.
  - apply NoDup_cons in Hnd as [Hh Hnd]. specialize (IH Hnd). simpl.
    destruct (stat_blob s h) as [f|] eqn:Hf.
    + destruct (negb dryRun && negb (bremovable f)) eqn:Hrm.
      * apply andb_true_iff in Hrm as [Hd Hr].
        apply negb_true_iff in Hd, Hr. subst dryRun.
        repeat split; try reflexivity; try discriminate.
        exists [], h, rest, f. repeat split; try reflexivity; try assumption.
        intros h' Hin. set_solver.
      * set (s1 := if dryRun then s else remove_file s (DataStore h)).
        set (stats1 := {| BlobsRemoved := add64 (BlobsRemoved stats) 1;
                          BytesRemoved := add64 (BytesRemoved stats)
                                            (Z.of_nat (len (bbytes f))) |}).
        assert (forall h', h' <> h -> stat_blob s1 h' = stat_blob s h') as Hother.
        { intros h' Hne. subst s1. destruct dryRun; [reflexivity|].
          rewrite stat_blob_remove. now rewrite decide_False by congruence. }
        assert (forall l', h ∉ l' -> counted s1 l' stats1 = counted s (h :: l') stats)
          as Hcount.
        { intros l' Hl'. rewrite counted_cons. unfold count_blob. rewrite Hf. fold stats1.
          subst s1. destruct dryRun; [reflexivity|]. now apply counted_remove. }
        assert (frame (h :: rest) s s1) as Hfr1.
        { intros p Hp. subst s1. destruct dryRun; [reflexivity|].
          rewrite lookup_file_remove. rewrite decide_False; [reflexivity|].
          apply Hp. set_solver. }
        specialize (IH s1 stats1).
        destruct (prune_loop dryRun rest s1 stats1) as [[s' stats'] err].
        destruct IH as (Hsn & Hfr & Hdry & Herr).
        split; [|split; [|split]].
        -- rewrite Hsn. subst s1. destruct dryRun; [reflexivity|].
           unfold remove_file. destruct (DataStore h) as [[sh fl]|]; [|reflexivity].
           now destruct (StoreData s !! sh) as [[?|]|].
        -- intros p Hp. rewrite Hfr by (intros h' Hin; apply Hp; set_solver).
           now apply Hfr1.
        -- intros ->. destruct (Hdry eq_refl) as [-> ->]. now split.
        -- destruct err as [e|].
           ++ destruct Herr as (pre & h0 & post & f0 & Hl & He & Hf0 & Hr0 & Hst & Hpre & Hpost).
              assert (h0 <> h) as Hne0 by (intros ->; apply Hh; rewrite Hl; set_solver).
              exists (h :: pre), h0, post, f0.
              split; [now rewrite Hl|]. split; [assumption|].
              split; [now rewrite <- Hother|]. split; [assumption|].
              split; [rewrite Hst; apply Hcount; rewrite Hl in Hh; set_solver|].
              split.
              ** intros h' Hin. apply elem_of_cons in Hin as [->|Hin]; [|now apply Hpre].
                 rewrite (frame_stat_blob rest s1 s' h Hfr Hh).
                 subst s1. destruct dryRun.
                 --- destruct (Hdry eq_refl) as [_ Hnone]. discriminate.
                 --- rewrite stat_blob_remove. now rewrite decide_True.
              ** intros h' Hin. rewrite Hpost by assumption. apply Hother.
                 intros ->. apply Hh. rewrite Hl. set_solver.
           ++ destruct Herr as [Hst Hgone]. split; [rewrite Hst; now apply Hcount|].
              intros -> h' Hin. apply elem_of_cons in Hin as [->|Hin]; [|now apply Hgone].
              rewrite (frame_stat_blob rest s1 s' h Hfr Hh).
              subst s1. simpl. rewrite stat_blob_remove. now rewrite decide_True.
    + specialize (IH s stats).
      destruct (prune_loop dryRun rest s stats) as [[s' stats'] err].
      destruct IH as (Hsn & Hfr & Hdry & Herr).
      assert (forall l', counted s (h :: l') stats = counted s l' stats) as Hcount.
      { intros l'. rewrite counted_cons. unfold count_blob. now rewrite Hf. }
      split; [assumption|]. split; [|split; [assumption|]].
      * intros p Hp. apply Hfr. intros h' Hin. apply Hp. set_solver.
      * destruct err as [e|].
        -- destruct Herr as (pre & h0 & post & f0 & Hl & He & Hf0 & Hr0 & Hst & Hpre & Hpost).
           exists (h :: pre), h0, post, f0.
           split; [now rewrite Hl|]. repeat (split; [assumption|]).
           split; [now rewrite Hcount|]. split; [|assumption].
           intros h' Hin. apply elem_of_cons in Hin as [->|Hin]; [|now apply Hpre].
           now rewrite (frame_stat_blob rest s s' h Hfr Hh).
        -- destruct Herr as [Hst Hgone]. split; [now rewrite Hcount|].
           intros Hd h' Hin. apply elem_of_cons in Hin as [->|Hin]; [|now apply Hgone].
           now rewrite (frame_stat_blob rest s s' h Hfr Hh).
Qed.


(* --------------------------------------------------------------------- *)
(** *** Lines of a directory listing                                      *)
(* --------------------------------------------------------------------- *)

Lemma get_app_length (a b : string) (c : ascii) :
  String.get (String.length a) (a +:+ String c b) = Some c.
Proof. induction a as [|x a IH]; simpl; [reflexivity | exact IH]. Qed.

Lemma slice_from_app_S (a b : string) (c : ascii) :
  slice_from (a +:+ String c b) (S (String.length a)) = b.
Proof.
  induction a as [|x a IH]; [now destruct b|].
  change (slice_from (a +:+ String c b) (S (String.length a)) = b). exact IH.
Qed.

(** The fields of a printed line sit at the fixed offsets. *)
Lemma listing_line_fields (typeChar : ascii) (digest name : string) :
  String.length digest = 32%nat ->
  let line := listing_line typeChar digest name in
  len line = (35 + String.length name)%nat
  /\ byte_at line 0 = Some typeChar
  /\ byte_at line 1 = Some " "%char
  /\ slice line 2 34 = digest
  /\ byte_at line 34 = Some " "%char
  /\ slice_from line 35 = name.
Proof.
  intros Hd line. subst line. unfold listing_line, len, byte_at, slice.
  repeat split.
  - simpl. rewrite length_app. simpl. lia.
  - change (String.substring 0 32 (digest +:+ String " " name) = digest).
    rewrite <- Hd. apply substring_0_app.
  - change (String.get 32 (digest +:+ String " " name) = Some " "%char).
    rewrite <- Hd. apply get_app_length.
  - change (slice_from (digest +:+ String " " name) 33 = name).
    rewrite <- Hd. apply slice_from_app_S.
Qed.

Lemma entries_line_short (st : entries_state) (line : string) :
  (len line < 36)%nat -> entries_line st line = warn (WarnInvalidEntry line) st.
Proof.
  intros H. unfold entries_line.
  now replace (len line <? 36)%nat with true by (symmetry; apply Nat.ltb_lt; lia).
Qed.

Lemma entries_line_unaligned (st : entries_state) (line : string) :
  byte_at line 1 <> Some " "%char \/ byte_at line 34 <> Some " "%char ->
  entries_line st line = warn (WarnInvalidEntry line) st.
Proof.
  intros H. unfold entries_line.
  destruct (len line <? 36)%nat; [reflexivity|].
  destruct H as [H|H]; rewrite (bool_decide_eq_false_2 _ H); simpl;
    [reflexivity | now rewrite orb_true_r].
Qed.

Lemma entries_line_aligned (st : entries_state) (line : string) :
  (36 <= len line)%nat ->
  byte_at line 1 = Some " "%char -> byte_at line 34 = Some " "%char ->
  entries_line st line =
  let hash := slice line 2 34 in
  let name := slice_from line 35 in
  match byte_at line 0 with
  | Some "D"%char => add_entry name (BackupDirectory hash name) st
  | Some "F"%char => add_entry name (BackupFile hash name) st
  | Some "L"%char => add_entry name (BackupLink hash name) st
  | Some c => warn (WarnUnknownType c) st
  | None => st
  end.
Proof.
  intros Hl H1 H34. unfold entries_line.
  replace (len line <? 36)%nat with false by (symmetry; apply Nat.ltb_ge; lia).
  now rewrite !bool_decide_eq_true_2 by assumption.
Qed.

Lemma traverse_line_warnings (rec : string -> reach_state -> traverse_result)
    (line : string) (st st' : reach_state) :
  (forall h st0 st1, rec h st0 = TrOk st1 -> reach_warnings st1 = reach_warnings st0) ->
  traverse_line rec line st = TrOk st' -> reach_warnings st' = reach_warnings st.
Proof.
  intros Hrec. unfold traverse_line.
  destruct (len line <? 36)%nat; [now intros [= <-]|].
  destruct (_ && _).
  - intros H. now apply Hrec in H.
  - now intros [= <-].
Qed.

Lemma traverse_lines_warnings (rec : string -> reach_state -> traverse_result)
    (hash : string) (scan_err : bool) (lines : list string) :
  (forall h st0 st1, rec h st0 = TrOk st1 -> reach_warnings st1 = reach_warnings st0) ->
  forall st st', traverse_lines rec hash scan_err lines st = TrOk st' ->
                 reach_warnings st' = reach_warnings st.
Proof.
  intros Hrec. induction lines as [|line rest IH]; intros st st'; simpl.
  - destruct scan_err; [discriminate | now intros [= <-]].
  - destruct (traverse_line rec line st) as [| e | st1] eqn:H1; try discriminate.
    intros H. apply IH in H. rewrite H.
    eapply traverse_line_warnings; eassumption.
Qed.

(** The reachability traversal writes no warning. *)
Lemma traverseReachable_warnings (s : Store) (fuel : nat) :
  forall hash st st',
    traverseReachable s fuel hash st = TrOk st' ->
    reach_warnings st' = reach_warnings st.
Proof.
  induction fuel as [|fuel IH]; intros hash st st'; simpl; [discriminate|].
  destruct (open_blob s hash) as [| | bytes]; try discriminate.
  - now intros [= <-].
  - destruct (scan_stream (gunzip bytes)) as [[lines scan_err]|]; [|discriminate].
    intros H. apply traverse_lines_warnings in H; [exact H | exact IH].
Qed.

(** C8 (as amended).  [BackupDirectory.Entries] skips a line shorter than 36
    bytes, and a longer line whose bytes 1 and 34 are not spaces, with a
    warning; otherwise it takes the type from byte 0, the digest from bytes 2
    to 33 and the name from byte 35 on, without searching for the
    separators, and these are the three fields of a printed line.  The
    reachability traversal skips a line shorter than 36 bytes too, reads the
    type and the digest at the same offsets without testing the separators,
    and writes no warning. *)
Theorem directory_line_parsing :
  (forall st line, (len line < 36)%nat ->
     entries_line st line = warn (WarnInvalidEntry line) st)
  /\ (forall st line,
        byte_at line 1 <> Some " "%char \/ byte_at line 34 <> Some " "%char ->
        entries_line st line = warn (WarnInvalidEntry line) st)
  /\ (forall st line, (36 <= len line)%nat ->
        byte_at line 1 = Some " "%char -> byte_at line 34 = Some " "%char ->
        entries_line st line =
        let hash := slice line 2 34 in
        let name := slice_from line 35 in
        match byte_at line 0 with
        | Some "D"%char => add_entry name (BackupDirectory hash name) st
        | Some "F"%char => add_entry name (BackupFile hash name) st
        | Some "L"%char => add_entry name (BackupLink hash name) st
        | Some c => warn (WarnUnknownType c) st
        | None => st
        end)
  /\ (forall typeChar digest name, String.length digest = 32%nat ->
        let line := listing_line typeChar digest name in
        len line = (35 + String.length name)%nat
        /\ byte_at line 0 = Some typeChar
        /\ byte_at line 1 = Some " "%char
        /\ slice line 2 34 = digest
        /\ byte_at line 34 = Some " "%char
        /\ slice_from line 35 = name)
  /\ (forall rec st line, (len line < 36)%nat -> traverse_line rec line st = TrOk st)
  /\ (forall rec st line, (36 <= len line)%nat ->
        traverse_line rec line st =
        let st1 := mark_reachable_hash (slice line 2 34) st in
        if bool_decide (byte_at line 0 = Some "D"%char)
           && negb (bool_decide (slice line 2 34 ∈ visitedDirs st1))
        then rec (slice line 2 34) st1 else TrOk st1)
  /\ (forall s fuel hash st st',
        traverseReachable s fuel hash st = TrOk st' ->
        reach_warnings st' = reach_warnings st).
Proof.
  split; [exact entries_line_short|].
  split; [exact entries_line_unaligned|].
  split; [exact entries_line_aligned|].
  split; [exact listing_line_fields|].
  split; [|split].
  - intros rec st line H. unfold traverse_line.
    now replace (len line <? 36)%nat with true by (symmetry; apply Nat.ltb_lt; lia).
  - intros rec st line H. unfold traverse_line.
    now replace (len line <? 36)%nat with false by (symmetry; apply Nat.ltb_ge; lia).
  - exact traverseReachable_warnings.
Qed.

(* --------------------------------------------------------------------- *)
(** *** The ignore decision                                               *)
(* --------------------------------------------------------------------- *)

Lemma first_match_none (m : IgnoreMatcher) (path : path) (isDir : bool)
    (l : list Pattern) :
  (forall q, q ∈ l -> pattern_match m path isDir q = false) ->
  first_match m path isDir l = None.
Proof.
  induction l as [|q l IH]; intros H; simpl; [reflexivity|].
  rewrite H by set_solver. apply IH. intros q' Hq'. apply H. set_solver.
Qed.

Lemma first_match_app (m : IgnoreMatcher) (path : path) (isDir : bool)
    (l1 l2 : list Pattern) :
  (forall q, q ∈ l1 -> pattern_match m path isDir q = false) ->
  first_match m path isDir (l1 ++ l2) = first_match m path isDir l2.
Proof.
  induction l1 as [|q l1 IH]; intros H; simpl; [reflexivity|].
  rewrite H by set_solver. apply IH. intros q' Hq'. apply H. set_solver.
Qed.

Lemma first_match_last (m : IgnoreMatcher) (path : path) (isDir : bool)
    (pre post : list Pattern) (p : Pattern) :
  pattern_match m path isDir p = true ->
  (forall q, q ∈ post -> pattern_match m path isDir q = false) ->
  first_match m path isDir (rev (pre ++ p :: post)) = Some p.
Proof.
  intros Hp Hpost.
  rewrite rev_app_distr. simpl. rewrite <- app_assoc.
  rewrite first_match_app.
  - simpl. now rewrite Hp.
  - intros q Hq. apply Hpost. apply list_elem_of_In, in_rev, list_elem_of_In, Hq.
Qed.

(** C5.  [Match] decides by the last pattern, in file order, of the current
    matcher that matches the candidate: it ignores when that pattern is
    positive and includes, without asking the parent, when it is a
    negation; when no pattern of the matcher matches, the answer is the
    parent's; when no pattern of any matcher of the chain matches, and on the
    nil matcher, the candidate is included. *)
Theorem Match_last_pattern_wins (m : IgnoreMatcher) (path : path) (isDir : bool) :
  (forall pre p post,
     patterns m = pre ++ p :: post ->
     pattern_match m path isDir p = true ->
     (forall q, q ∈ post -> pattern_match m path isDir q = false) ->
     Match m path isDir = (negb (isNegation p), Some p))
  /\ ((forall q, q ∈ patterns m -> pattern_match m path isDir q = false) ->
      Match m path isDir = Match (parent m) path isDir)
  /\ ((forall m' q, m' ∈ chain m -> q ∈ patterns m' ->
                    pattern_match m' path isDir q = false) ->
      Match m path isDir = (false, None))
  /\ Match nil_matcher path isDir = (false, None).
Proof.
  split; [|split; [|split]].
  - intros pre p post Hps Hp Hpost. destruct m as [|ps par d]; simpl in *.
    + now destruct pre.
    + subst ps. rewrite (first_match_last _ _ _ _ _ _ Hp Hpost).
      now destruct (isNegation p).
  - intros H. destruct m as [|ps par d]; simpl in *; [reflexivity|].
    rewrite first_match_none; [reflexivity|].
    intros q Hq. apply H. apply list_elem_of_In, in_rev, list_elem_of_In, Hq.
  - induction m as [|ps par IH d]; intros H; [reflexivity|].
    cbn [Match]. rewrite first_match_none.
    + apply IH. intros m' q Hm' Hq. apply H; [|assumption]. simpl. set_solver.
    + intros q Hq. apply (H (MkMatcher ps par d)); [simpl; set_solver|].
      apply list_elem_of_In, in_rev, list_elem_of_In, Hq.
  - reflexivity.
Qed.

(* --------------------------------------------------------------------- *)
(** *** Writing blobs                                                     *)
(* --------------------------------------------------------------------- *)

Lemma lookup_file_shard_files (s : Store) (shard f : string) :
  lookup_file s (Some (shard, f)) = shard_files s shard !! f.
Proof.
  unfold lookup_file, shard_files.
  now destruct (StoreData s !! shard) as [[files|]|].
Qed.

Lemma shard_files_set_shard (s : Store) (shard sh : string)
    (files : gmap string blob_file) :
  shard_files (set_shard s shard files) sh
  = if decide (shard = sh) then files else shard_files s sh.
Proof.
  unfold shard_files, set_shard. simpl.
  destruct (decide (shard = sh)) as [<-|Hne].
  - now rewrite lookup_insert_eq.
  - now rewrite lookup_insert_ne.
Qed.

(** The file a [Save] method leaves at [dest]. *)
Definition new_blob (payload : string) : blob_file :=
  {| bbytes := gzip payload; breadable := true; bremovable := true |}.

(** After [place_blob] the blob is at [dest], nothing is at
    [dest + ".partial"], and every other path is as before. *)
Lemma lookup_file_place_blob (s : Store) (shard file payload sh f : string) :
  lookup_file (place_blob s shard file payload) (Some (sh, f))
  = if decide (shard = sh) then
      if decide (f = file) then Some (new_blob payload)
      else if decide (f = file +:+ ".partial") then None
      else lookup_file s (Some (sh, f))
    else lookup_file s (Some (sh, f)).
Proof.
  unfold place_blob, rename_file, write_file.
  rewrite !lookup_file_shard_files.
  rewrite !shard_files_set_shard, decide_True by reflexivity.
  rewrite lookup_insert_eq. rewrite shard_files_set_shard.
  destruct (decide (shard = sh)) as [<-|Hne].
  - destruct (decide (f = file)) as [->|Hf]; [now rewrite lookup_insert_eq|].
    rewrite lookup_insert_ne by congruence.
    destruct (decide (f = file +:+ ".partial")) as [->|Hp].
    + now rewrite lookup_delete_eq.
    + rewrite lookup_delete_ne by congruence.
      now rewrite lookup_insert_ne by congruence.
  - rewrite shard_files_set_shard. now rewrite decide_False by assumption.
Qed.

Lemma StoreSnapshots_place_blob (s : Store) (shard file payload : string) :
  StoreSnapshots (place_blob s shard file payload) = StoreSnapshots s.
Proof.
  unfold place_blob, rename_file, write_file.
  now destruct (_ !! _).
Qed.

Lemma MkdirAll_shard_lookup (s s1 : Store) (shard : string) :
  MkdirAll_shard s shard = Some s1 ->
  StoreSnapshots s1 = StoreSnapshots s
  /\ forall p, lookup_file s1 p = lookup_file s p.
Proof.
  unfold MkdirAll_shard.
  destruct (StoreData s !! shard) as [[files|]|] eqn:Hs; intros [= <-]; [now split|].
  split; [reflexivity|].
  intros [[sh f]|]; [|reflexivity].
  rewrite !lookup_file_shard_files, shard_files_set_shard.
  destruct (decide (shard = sh)) as [<-|]; [|reflexivity].
  unfold shard_files. now rewrite Hs.
Qed.

Lemma MkdirAll_shard_ok (s : Store) (shard : string) :
  StoreData s !! shard <> Some DataStray -> is_Some (MkdirAll_shard s shard).
Proof.
  unfold MkdirAll_shard. destruct (StoreData s !! shard) as [[files|]|]; eauto.
  intros H. now contradiction H.
Qed.

(* --------------------------------------------------------------------- *)
(** *** The walk over a directory                                         *)
(* --------------------------------------------------------------------- *)

Lemma Base_snoc (dirPath : path) (name : string) : Base (dirPath ++ [name]) = name.
Proof. unfold Base. apply last_last. Qed.

(** C6 (as amended).  For a child of a directory, [scan] first asks the
    ignore chain, with the directory flag of the directory entry: an ignored
    child is recorded as ignored and skipped, whatever its name and kind.
    A child that is not ignored and is a symbolic link becomes a link entry
    whose digest is the hash of the link target, whatever its name.  Only
    then is the name compared with [.backup]: a child of that name that is
    neither ignored nor a symbolic link is skipped without a record.  Every
    other directory becomes a directory entry under the current matcher,
    every other file a file entry. *)
Theorem scan_child_order
    (newDir : node -> gmap string string -> path -> IgnoreMatcher
              -> Entry * gmap string string)
    (top : path) (m : IgnoreMatcher) (dirPath : path) (hc : gmap string string)
    (name : string) (child : node) :
  let fullPath := dirPath ++ [name] in
  (forall pat, Match m fullPath (is_dir child) = (true, pat) ->
     scan_child newDir top m dirPath hc name child
     = StepIgnored {| Path := fullPath; IgnoredName := name; Reason := pat |})
  /\ (forall pat target,
        child = NSymlink target -> Match m fullPath false = (false, pat) ->
        scan_child newDir top m dirPath hc name child
        = StepEntry (LinkEntry fullPath name target (md5hex target)) hc)
  /\ (forall pat,
        Match m fullPath (is_dir child) = (false, pat) ->
        is_symlink child = false -> name = ".backup" ->
        scan_child newDir top m dirPath hc name child = StepSkip)
  /\ (forall pat,
        Match m fullPath (is_dir child) = (false, pat) ->
        name <> ".backup" ->
        match child with
        | NSymlink _ => True
        | NDir _ _ =>
            scan_child newDir top m dirPath hc name child
            = let '(e, hc') := newDir child hc fullPath m in StepEntry e hc'
        | NFile mtime readable content =>
            scan_child newDir top m dirPath hc name child
            = match NewFileEntry hc top fullPath mtime readable content with
              | (Some e, hc') => StepEntry e hc'
              | (None, hc') => StepError hc'
              end
        end).
Proof.
  intros fullPath. unfold scan_child. fold fullPath. repeat split.
  - intros pat H. now rewrite H.
  - intros pat target -> H. simpl. rewrite H.
    unfold NewLinkEntry. subst fullPath. now rewrite Base_snoc.
  - intros pat H Hs ->. rewrite H. now destruct child.
  - intros pat H Hn. rewrite H.
    apply String.eqb_neq in Hn. destruct child; try exact I; now rewrite Hn.
Qed.

(** C10.  When [os.ReadDir] fails on a directory, [scan] returns no error
    and no child: the entry has an empty content and nothing ignored, the
    hash cache is untouched, its listing is the empty text and its digest
    the hash of the empty text; [Save] counts the directory and stores the
    empty listing like any other, so that the only errors it can return are
    those of the store ([ErrInvalidHash], [ErrMkdirAll]). *)
Theorem unreadable_directory_is_empty (top : path)
    (children : list (string * node)) (hc : gmap string string)
    (path : path) (parentMatcher : IgnoreMatcher) :
  exists m,
    NewDirectoryEntry top (NDir false children) hc path parentMatcher
    = (DirectoryEntry path (Base path) m (Some []) [], hc)
    /\ ContentAsText (DirectoryEntry path (Base path) m (Some []) []) = Some EmptyString
    /\ Hash (DirectoryEntry path (Base path) m (Some []) [])
       = Some (md5hex EmptyString)
    /\ (forall DryRun st,
          Save DryRun (DirectoryEntry path (Base path) m (Some []) []) st
          = save_listing DryRun (md5hex EmptyString) EmptyString (incDirsTotal st))
    /\ (forall DryRun st,
          snd (Save DryRun (DirectoryEntry path (Base path) m (Some []) []) st) = None
          \/ snd (Save DryRun (DirectoryEntry path (Base path) m (Some []) []) st)
             = Some ErrInvalidHash
          \/ snd (Save DryRun (DirectoryEntry path (Base path) m (Some []) []) st)
             = Some ErrMkdirAll)
    /\ (forall st shard file,
          DataStore (md5hex EmptyString) = Some (shard, file) ->
          StoreData (store st) !! shard <> Some DataStray ->
          exists st',
            Save false (DirectoryEntry path (Base path) m (Some []) []) st = (st', None)
            /\ is_Some (stat_blob (store st') (md5hex EmptyString))).
Proof.
  exists (LoadIgnoreFiles (NewIgnoreMatcher path parentMatcher) children).
  split; [reflexivity|]. split; [reflexivity|]. split; [reflexivity|].
  split; [reflexivity|]. split.
  - intros DryRun st. cbn [Save listing_text]. unfold save_listing.
    destruct (DataStore (md5hex "")) as [[shard file]|]; simpl; [|auto].
    destruct (stat_blob _ _); simpl; [auto|].
    destruct DryRun; simpl; [auto|].
    destruct (MkdirAll_shard _ _); simpl; auto.
  - intros st shard file Hd Hs. cbn [Save listing_text]. unfold save_listing.
    rewrite Hd.
    destruct (stat_blob (store (incDirsTotal st)) (md5hex "")) as [f|] eqn:Hst.
    + eexists. split; [reflexivity|]. rewrite Hst. eauto.
    + cbn [incDirsArchived incDirsTotal store] in *.
      unfold MkdirAll_shard. cbn [store].
      destruct (StoreData (store st) !! shard) as [[files|]|] eqn:Hsh;
        [|contradiction|].
      * eexists. split; [reflexivity|]. cbn [with_store store].
        unfold stat_blob. rewrite Hd.
        rewrite lookup_file_place_blob, !decide_True by reflexivity. eauto.
      * eexists. split; [reflexivity|]. cbn [with_store store].
        unfold stat_blob. rewrite Hd.
        rewrite lookup_file_place_blob, !decide_True by reflexivity. eauto.
Qed.


(* --------------------------------------------------------------------- *)
(** *** The order of a listing                                            *)
(* --------------------------------------------------------------------- *)

Lemma Less_item_less (ei ej : Entry) : Less ei ej = item_less (item_of ei) (item_of ej).
Proof. reflexivity. Qed.

Lemma ltb_leb (s t : string) : String.ltb s t = negb (String.leb t s).
Proof.
  unfold String.ltb, String.leb. rewrite (String.compare_antisym s t).
  now destruct (String.compare t s).
Qed.

Lemma leb_le (s t : string) : String.leb s t = true <-> String.le s t.
Proof. unfold String.le. now destruct (String.leb s t). Qed.

Lemma item_le_iff (ta tb : Z) (ha hb na nb : string) :
  item_le (ta, ha, na) (tb, hb, nb)
  <-> ta < tb \/ (ta = tb /\ ((ha <> hb /\ String.le ha hb)
                              \/ (ha = hb /\ String.le na nb))).
Proof.
  unfold item_le, item_less, lt.
  destruct (Z.eqb_spec tb ta) as [->|Ht]; simpl.
  - destruct (String.eqb_spec hb ha) as [->|Hh]; simpl.
    + rewrite ltb_leb, negb_false_iff, leb_le. intuition lia.
    + rewrite ltb_leb, negb_false_iff, leb_le. intuition (try lia; congruence).
  - rewrite Z.ltb_ge. intuition lia.
Qed.

#[local] Instance item_le_trans : Transitive item_le.
Proof.
  intros [[ta ha] na] [[tb hb] nb] [[tc hc] nc].
  rewrite !item_le_iff.
  intros [H1|[-> H1]] [H2|[-> H2]]; try (left; lia).
  right. split; [reflexivity|].
    destruct H1 as [[Hn1 H1]|[-> H1]]; destruct H2 as [[Hn2 H2]|[-> H2]].
    + left. split; [|etransitivity; eassumption].
      intros ->. apply Hn1. now apply (anti_symm String.le).
    + left. now split.
    + left. now split.
    + right. split; [reflexivity | etransitivity; eassumption].
Qed.

#[local] Instance item_le_antisym : AntiSymm (=) item_le.
Proof.
  intros [[ta ha] na] [[tb hb] nb].
  rewrite !item_le_iff.
  intros [H1|[-> H1]] [H2|[Ht H2]]; try lia.
  destruct H1 as [[Hn1 H1]|[-> H1]]; destruct H2 as [[Hn2 H2]|[Hh H2]];
    try congruence.
  - exfalso. apply Hn1. now apply (anti_symm String.le).
  - f_equal. now apply (anti_symm String.le).
Qed.

Lemma item_less_asym (a b : item) : item_less a b = true -> item_less b a = false.
Proof.
  destruct a as [[ta ha] na], b as [[tb hb] nb]. unfold item_less, lt.
  destruct (Z.eqb_spec ta tb) as [->|Ht]; simpl.
  - rewrite Z.eqb_refl. simpl.
    destruct (String.eqb_spec ha hb) as [->|Hh]; simpl.
    + rewrite String.eqb_refl. simpl. rewrite (ltb_leb nb na).
      rewrite ltb_leb, negb_true_iff. intros H.
      destruct (String.leb na nb) eqn:E; [reflexivity|].
      destruct (String.leb_total na nb); congruence.
    + replace (String.eqb hb ha) with false
        by (symmetry; apply String.eqb_neq; congruence).
      simpl. rewrite (ltb_leb hb ha). rewrite ltb_leb, negb_true_iff. intros H.
      destruct (String.leb ha hb) eqn:E; [reflexivity|].
      destruct (String.leb_total ha hb); congruence.
  - replace (tb =? ta) with false by (symmetry; apply Z.eqb_neq; congruence).
    simpl. rewrite Z.ltb_lt, Z.ltb_ge. lia.
Qed.

Lemma insert_item_Sorted (it : item) (l : list item) :
  Sorted item_le l -> Sorted item_le (insert_item it l).
Proof.
  induction l as [|x l IH]; intros Hs; simpl.
  - repeat constructor.
  - destruct (item_less it x) eqn:E.
    + constructor; [assumption|]. constructor. now apply item_less_asym.
    + apply Sorted_inv in Hs as [Hs Hhd]. constructor; [now apply IH|].
      destruct l as [|y l]; simpl.
      * constructor. exact E.
      * destruct (item_less it y); constructor; [exact E|].
        now apply HdRel_inv in Hhd.
Qed.

Lemma insert_item_Permutation (it : item) (l : list item) :
  insert_item it l ≡ₚ it :: l.
Proof.
  induction l as [|x l IH]; simpl; [reflexivity|].
  destruct (item_less it x); [reflexivity|].
  rewrite IH. apply perm_swap.
Qed.

Lemma sort_items_spec (l : list item) :
  Sorted item_le (sort_items l) /\ sort_items l ≡ₚ l.
Proof.
  unfold sort_items.
  assert (forall acc, Sorted item_le acc ->
            Sorted item_le (foldl (fun sorted it => insert_item it sorted) acc l)
            /\ foldl (fun sorted it => insert_item it sorted) acc l ≡ₚ acc ++ l) as H.
  { induction l as [|x l IH]; intros acc Hacc; simpl.
    - split; [assumption | now rewrite app_nil_r].
    - destruct (IH (insert_item x acc) (insert_item_Sorted x acc Hacc)) as [H1 H2].
      split; [assumption|]. rewrite H2, insert_item_Permutation.
      simpl. apply Permutation_middle. }
  apply (H []). constructor.
Qed.

Lemma insert_entry_item (e : Entry) (l : list Entry) :
  item_of <$> insert_entry e l = insert_item (item_of e) (item_of <$> l).
Proof.
  induction l as [|x l IH]; [reflexivity|].
  cbn [insert_entry]. rewrite Less_item_less, fmap_cons. cbn [insert_item].
  destruct (item_less (item_of e) (item_of x)); [reflexivity|].
  rewrite !fmap_cons. now rewrite IH.
Qed.

Lemma sort_entries_item (es : list Entry) :
  item_of <$> sort_entries es = sort_items (item_of <$> es).
Proof.
  unfold sort_entries, sort_items.
  assert (forall acc,
            item_of <$> foldl (fun sorted e => insert_entry e sorted) acc es
            = foldl (fun sorted it => insert_item it sorted) (item_of <$> acc)
                (item_of <$> es)) as H.
  { induction es as [|e es IH]; intros acc; simpl; [reflexivity|].
    rewrite IH. now rewrite insert_entry_item. }
  apply (H []).
Qed.

Lemma insert_entry_Permutation (e : Entry) (l : list Entry) :
  insert_entry e l ≡ₚ e :: l.
Proof.
  induction l as [|x l IH]; simpl; [reflexivity|].
  destruct (Less e x); [reflexivity|].
  rewrite IH. apply perm_swap.
Qed.

Lemma sort_entries_Permutation (es : list Entry) : sort_entries es ≡ₚ es.
Proof.
  unfold sort_entries.
  assert (forall acc,
            foldl (fun sorted e => insert_entry e sorted) acc es ≡ₚ acc ++ es) as H.
  { induction es as [|e es IH]; intros acc; simpl.
    - now rewrite app_nil_r.
    - rewrite IH, insert_entry_Permutation. simpl. apply Permutation_middle. }
  apply (H []).
Qed.

(** The content of a scanned directory is in the order of [entrySorter]. *)
Lemma sort_entries_Sorted (es : list Entry) :
  Sorted item_le (item_of <$> sort_entries es).
Proof. rewrite sort_entries_item. apply sort_items_spec. Qed.

(* --------------------------------------------------------------------- *)
(** *** Writing a listing and reading it back                             *)
(* --------------------------------------------------------------------- *)

Lemma Hash_DirectoryEntry (p : path) (nm : string) (m : IgnoreMatcher)
    (es : list Entry) (ig : list IgnoredEntry) :
  Hash (DirectoryEntry p nm m (Some es) ig) = md5hex <$> listing_text es.
Proof.
  reflexivity.
Qed.

Lemma listing_text_print_items (es : list Entry) (text : string) :
  listing_text es = Some text ->
  text = print_items (item_of <$> es) /\ Forall (fun e => is_Some (Hash e)) es.
Proof.
  revert text; induction es as [|e es IH]; intros text; cbn [listing_text].
  - intros [= <-]. split; [reflexivity | constructor].
  - destruct (Hash e) as [h|] eqn:Hh; [|discriminate].
    destruct (listing_text es) as [t|]; [|discriminate].
    intros [= <-]. destruct (IH t eq_refl) as [-> Hall].
    split; [|constructor; [rewrite Hh; eauto | assumption]].
    rewrite fmap_cons. cbn [print_items].
    assert (print_item (item_of e) = listing_line (typeChar (Type_ e)) h (Name e)) as ->;
      [|reflexivity].
    unfold print_item, item_of, hash_or_empty. now rewrite Hh.
Qed.

Lemma contains_byte_app (c : ascii) (a b : string) :
  contains_byte c (a +:+ b) = contains_byte c a || contains_byte c b.
Proof.
  induction a as [|x a IH]; [reflexivity|].
  change (contains_byte c (String x (a +:+ b))
          = contains_byte c (String x a) || contains_byte c b).
  cbn [contains_byte]. rewrite IH. now rewrite orb_assoc.
Qed.

Lemma raw_lines_line (l rest : string) :
  contains_byte LF l = false ->
  raw_lines (l +:+ String LF rest) = l :: raw_lines rest.
Proof.
  induction l as [|c l IH]; intros H.
  - change (raw_lines (String LF rest) = "" :: raw_lines rest).
    cbn [raw_lines]. now rewrite Ascii.eqb_refl.
  - cbn [contains_byte] in H. apply orb_false_iff in H as [Hc Hl].
    change (raw_lines (String c (l +:+ String LF rest)) = String c l :: raw_lines rest).
    cbn [raw_lines]. rewrite Ascii.eqb_sym, Hc. now rewrite (IH Hl).
Qed.

Lemma dropCR_cons (c : ascii) (s : string) :
  s <> EmptyString -> dropCR (String c s) = String c (dropCR s).
Proof. destruct s; [congruence | reflexivity]. Qed.

Lemma dropCR_app (a b : string) :
  b <> EmptyString -> dropCR (a +:+ b) = a +:+ dropCR b.
Proof.
  intros Hb. induction a as [|c a IH]; [reflexivity|].
  change (dropCR (String c (a +:+ b)) = String c (a +:+ dropCR b)).
  rewrite dropCR_cons, IH; [reflexivity|].
  destruct a; [assumption | discriminate].
Qed.

Lemma typeChar_not_LF (t : Z) : Ascii.eqb LF (typeChar t) = false.
Proof.
  unfold typeChar. destruct (t =? EntryTypeDirectory); [reflexivity|].
  now destruct (t =? EntryTypeLink).
Qed.

Lemma print_item_one_line (it : item) :
  clean_item it ->
  contains_byte LF (print_item it) = false /\ dropCR (print_item it) = print_item it.
Proof.
  destruct it as [[t h] n]. intros (_ & [_ Hh] & Hn & Hnl & Hcr).
  unfold print_item, listing_line. split.
  - cbn [contains_byte]. rewrite typeChar_not_LF, contains_byte_app, Hh.
    cbn [contains_byte]. now rewrite Hnl.
  - rewrite dropCR_cons by discriminate. f_equal.
    rewrite dropCR_cons by (destruct h; discriminate). f_equal.
    rewrite dropCR_app by discriminate. f_equal.
    rewrite dropCR_cons by assumption. now rewrite Hcr.
Qed.

(** The scanner finds the printed lines again. *)
Lemma ScanLines_print_items (items : list item) :
  Forall clean_item items -> ScanLines (print_items items) = print_item <$> items.
Proof.
  unfold ScanLines. induction 1 as [|it items Hit _ IH]; [reflexivity|].
  destruct (print_item_one_line it Hit) as [Hlf Hcr].
  cbn [print_items]. rewrite raw_lines_line by assumption.
  cbn [map]. now rewrite Hcr, IH.
Qed.

(** The entry that the reader makes of a line. *)
Definition backup_of (it : item) : BackupEntry :=
  let '(t, h, n) := it in
  if t =? EntryTypeDirectory then BackupDirectory h n
  else if t =? EntryTypeLink then BackupLink h n
  else BackupFile h n.

Definition item_name (it : item) : string := snd it.

Lemma item_of_backup_of (it : item) : clean_item it -> item_of_backup (backup_of it) = it.
Proof.
  destruct it as [[t h] n]. intros ([->|[->| ->]] & _); reflexivity.
Qed.

Lemma entries_line_print_item (st : entries_state) (it : item) :
  clean_item it ->
  entries_line st (print_item it) = add_entry (item_name it) (backup_of it) st.
Proof.
  destruct it as [[t h] n]. intros (Ht & [Hlen _] & Hne & _).
  unfold print_item.
  destruct (listing_line_fields (typeChar t) h n Hlen) as (Hl & H0 & H1 & Hd & H34 & Hn).
  rewrite entries_line_aligned; [| |assumption|assumption].
  - cbn zeta. rewrite H0, Hd, Hn. unfold backup_of, item_name. simpl.
    destruct Ht as [->|[->| ->]]; reflexivity.
  - rewrite Hl. destruct n; [congruence | simpl; lia].
Qed.

Definition add_item (m : gmap string BackupEntry) (it : item) : gmap string BackupEntry :=
  <[item_name it := backup_of it]> m.

Lemma foldl_entries_line (items : list item) :
  Forall clean_item items ->
  forall st,
    foldl entries_line st (print_item <$> items)
    = {| entries := foldl add_item (entries st) items; warnings := warnings st |}.
Proof.
  induction 1 as [|it items Hit _ IH]; intros st.
  - now destruct st.
  - rewrite fmap_cons. cbn [foldl]. rewrite entries_line_print_item by assumption.
    now rewrite IH.
Qed.

Lemma foldl_add_item_lookup_ne (items : list item) (k : string) :
  k ∉ item_name <$> items ->
  forall m, foldl add_item m items !! k = m !! k.
Proof.
  induction items as [|it items IH]; intros Hk m; [reflexivity|].
  rewrite fmap_cons in Hk. cbn [foldl]. rewrite IH by set_solver.
  unfold add_item. apply lookup_insert_ne. set_solver.
Qed.

Lemma map_to_list_foldl_add_item (items : list item) :
  NoDup (item_name <$> items) ->
  forall m, (forall it, it ∈ items -> m !! item_name it = None) ->
    map_to_list (foldl add_item m items)
    ≡ₚ ((fun it => (item_name it, backup_of it)) <$> items) ++ map_to_list m.
Proof.
  induction items as [|it items IH]; intros Hnd m Hm; [reflexivity|].
  rewrite fmap_cons in Hnd. apply NoDup_cons in Hnd as [Hit Hnd].
  cbn [foldl]. rewrite IH; [|assumption|].
  - unfold add_item at 1. rewrite map_to_list_insert by (apply Hm; set_solver).
    rewrite fmap_cons. simpl. symmetry. apply Permutation_middle.
  - intros it' Hin. unfold add_item. rewrite lookup_insert_ne.
    + apply Hm. set_solver.
    + intros Heq. apply Hit. rewrite Heq. apply list_elem_of_fmap. eauto.
Qed.

(** Sorting what was read back gives the listing that was written. *)
Lemma reserialize_foldl_add_item (items : list item) :
  Forall clean_item items ->
  NoDup (item_name <$> items) ->
  Sorted item_le items ->
  reserialize (foldl add_item ∅ items) = print_items items.
Proof.
  intros Hclean Hnd Hsorted. unfold reserialize. f_equal.
  destruct (sort_items_spec
              (item_of_backup <$> (snd <$> map_to_list (foldl add_item ∅ items))))
    as [Hs Hp].
  apply (Sorted_unique item_le); [assumption | assumption |].
  rewrite Hp. rewrite map_to_list_foldl_add_item; [|assumption|].
  - rewrite map_to_list_empty, app_nil_r. rewrite <- !list_fmap_compose.
    clear Hnd Hsorted Hs Hp. induction Hclean as [|it items Hit _ IH]; [reflexivity|].
    rewrite fmap_cons. simpl. rewrite item_of_backup_of by assumption.
    now rewrite IH.
  - intros it _. apply lookup_empty.
Qed.

Lemma foldl_add_item_lookup (items : list item) (it : item) :
  NoDup (item_name <$> items) -> it ∈ items ->
  forall m, foldl add_item m items !! item_name it = Some (backup_of it).
Proof.
  induction items as [|it0 items IH]; intros Hnd Hin m; [set_solver|].
  rewrite fmap_cons in Hnd. apply NoDup_cons in Hnd as [Hit0 Hnd].
  cbn [foldl]. apply elem_of_cons in Hin as [->|Hin].
  - rewrite foldl_add_item_lookup_ne by assumption.
    unfold add_item. apply lookup_insert_eq.
  - now apply IH.
Qed.

Lemma Sorted_item_of (es : list Entry) :
  Sorted item_le (item_of <$> es) -> Sorted entry_le es.
Proof.
  induction es as [|e es IH]; intros H; [constructor|].
  rewrite fmap_cons in H. apply Sorted_inv in H as [Hs Hhd].
  constructor; [now apply IH|].
  destruct es as [|x es]; constructor.
  rewrite fmap_cons in Hhd. apply HdRel_inv in Hhd. exact Hhd.
Qed.

Lemma scan_loop_sorted
    (newDir : node -> gmap string string -> path -> IgnoreMatcher
              -> Entry * gmap string string)
    (top : path) (m : IgnoreMatcher) (dirPath : path) (files : list (string * node)) :
  forall hc entries ignored es,
    fst (fst (scan_loop newDir top m dirPath files hc entries ignored)) = Some es ->
    exists es0, es = sort_entries es0.
Proof.
  induction files as [|[name child] files IH]; intros hc entries ignored es; simpl.
  - intros [= <-]. eauto.
  - destruct (scan_child newDir top m dirPath hc name child); try apply IH.
    discriminate.
Qed.

Lemma NewDirectoryEntry_shape (top : path) (n : node) (hc : gmap string string)
    (path : path) (parentMatcher : IgnoreMatcher) :
  exists m content ig,
    fst (NewDirectoryEntry top n hc path parentMatcher)
    = DirectoryEntry path (Base path) m content ig
    /\ forall es, content = Some es -> exists es0, es = sort_entries es0.
Proof.
  destruct n as [mtime readable content | target | readable children]; simpl.
  - eexists _, _, _. split; [reflexivity|]. intros es [= <-]. now exists [].
  - eexists _, _, _. split; [reflexivity|]. intros es [= <-]. now exists [].
  - destruct readable.
    + destruct (scan_loop _ _ _ _ _ _ _ _) as [[content ig] hc'] eqn:E.
      eexists _, _, _. split; [reflexivity|]. intros es ->.
      eapply scan_loop_sorted. rewrite E. reflexivity.
    + eexists _, _, _. split; [reflexivity|]. intros es [= <-]. now exists [].
Qed.

(** C3 (as amended).  The content of every directory that the builder has
    scanned is sorted by (type, digest, name), with file = 0, directory = 1
    and link = 2; its payload is the concatenation of the lines
    [T SP digest SP name LF]; its digest is the hash of that text.  When the
    names of the children are unique, not empty, free of line feeds and do
    not end in a carriage return, and the digests are 32 bytes without line
    feed, the blob read back from the store gives every child again, without
    a warning, and re-serializing what was read yields the same bytes. *)
Theorem listing_canonical (top : path) (n : node) (hc : gmap string string)
    (path : path) (parentMatcher : IgnoreMatcher) :
  match fst (NewDirectoryEntry top n hc path parentMatcher) with
  | DirectoryEntry p nm m (Some es) ig =>
      let d := DirectoryEntry p nm m (Some es) ig in
      Sorted entry_le es
      /\ ContentAsText d = listing_text es
      /\ (forall text, ContentAsText d = Some text ->
            text = print_items (item_of <$> es))
      /\ Hash d = md5hex <$> ContentAsText d
      /\ (forall text s,
            ContentAsText d = Some text ->
            Forall clean_item (item_of <$> es) ->
            NoDup (Name <$> es) ->
            gunzip (gzip text) = GzOk text ->
            open_blob s (md5hex text) = Opened (gzip text) ->
            exists m',
              Entries s (md5hex text)
              = EntriesRead {| entries := m'; warnings := [] |} false
              /\ (forall e, e ∈ es -> m' !! Name e = Some (backup_of (item_of e)))
              /\ reserialize m' = text)
  | _ => True
  end.
Proof.
  destruct (NewDirectoryEntry_shape top n hc path parentMatcher)
    as (m & content & ig & -> & Hsorted).
  destruct content as [es|]; [|exact I].
  destruct (Hsorted es eq_refl) as [es0 ->].
  pose proof (sort_entries_Sorted es0) as Hs.
  set (es := sort_entries es0) in *. cbn zeta.
  split; [now apply Sorted_item_of|]. split; [reflexivity|].
  split; [intros text H; now apply listing_text_print_items in H|].
  split; [reflexivity|].
  intros text s Htext Hclean Hnd Hgz Hopen.
  cbn [ContentAsText] in Htext. apply listing_text_print_items in Htext as [-> _].
  assert (item_name <$> (item_of <$> es) = Name <$> es) as Hnames
    by (rewrite <- list_fmap_compose; reflexivity).
  exists (foldl add_item ∅ (item_of <$> es)). split; [|split].
  - unfold Entries. rewrite Hopen, Hgz. cbn [scan_stream].
    rewrite ScanLines_print_items by assumption.
    now rewrite foldl_entries_line by assumption.
  - intros e He.
    apply (foldl_add_item_lookup (item_of <$> es) (item_of e)).
    + now rewrite Hnames.
    + apply list_elem_of_fmap. eauto.
  - apply reserialize_foldl_add_item; [assumption | now rewrite Hnames | assumption].
Qed.

(* --------------------------------------------------------------------- *)
(** *** Induction over entries and over the source tree                   *)
(* --------------------------------------------------------------------- *)

Lemma Entry_ind' (P : Entry -> Prop) :
  (forall path name hash readable bytes, P (FileEntry path name hash readable bytes)) ->
  (forall path name target hash, P (LinkEntry path name target hash)) ->
  (forall path name m ig, P (DirectoryEntry path name m None ig)) ->
  (forall path name m es ig, Forall P es -> P (DirectoryEntry path name m (Some es) ig)) ->
  forall e, P e.
Proof.
  intros Hf Hl Hn Hd. fix IH 1. intros [p n h r b | p n t h | p n m [es|] ig].
  - apply Hf.
  - apply Hl.
  - apply Hd. induction es as [|e es IHes]; constructor; [apply IH | exact IHes].
  - apply Hn.
Qed.


Lemma saved_DirectoryEntry (s : Store) (p : path) (n : string) (m : IgnoreMatcher)
    (es : list Entry) (ig : list IgnoredEntry) :
  saved s (DirectoryEntry p n m (Some es) ig)
  <-> Forall (saved s) es
      /\ exists text, listing_text es = Some text /\ is_Some (stat_blob s (md5hex text)).
Proof.
  cbn [saved]. apply and_iff_compat_r.
  induction es as [|e es IH]; [split; [constructor | exact (fun _ => I)]|].
  rewrite Forall_cons. now rewrite IH.
Qed.


Lemma Save_DirectoryEntry (DryRun : bool) (p : path) (n : string) (m : IgnoreMatcher)
    (es : list Entry) (ig : list IgnoredEntry) (st : backup_state) :
  Save DryRun (DirectoryEntry p n m (Some es) ig) st
  = match save_children DryRun es (incDirsTotal st) with
    | (st', Some err) => (st', Some err)
    | (st', None) =>
        match listing_text es with
        | None => (st', Some (ErrContent p))
        | Some text => save_listing DryRun (md5hex text) text st'
        end
    end.
Proof. reflexivity. Qed.

(* --------------------------------------------------------------------- *)
(** *** Saving                                                            *)
(* --------------------------------------------------------------------- *)

Lemma string_app_assoc (a b c : string) : (a +:+ b) +:+ c = a +:+ (b +:+ c).
Proof.
  induction a as [|x a IH]; [reflexivity|].
  change (String x ((a +:+ b) +:+ c) = String x (a +:+ (b +:+ c))). now rewrite IH.
Qed.

(** The name of a partial file is the name of no blob. *)
Lemma gz_not_partial (a b : string) : a +:+ ".gz" <> (b +:+ ".gz") +:+ ".partial".
Proof.
  intros H. apply (f_equal (fun s => HasSuffix s "ial")) in H.
  change ".partial" with (".part" +:+ "ial") in H.
  rewrite <- (string_app_assoc (b +:+ ".gz") ".part" "ial"), HasSuffix_app in H.
  unfold HasSuffix in H. rewrite length_app in H. simpl String.length in H.
  replace (String.length a + 3 - 3)%nat with (String.length a) in H by lia.
  rewrite slice_from_app in H. simpl in H. now rewrite andb_false_r in H.
Qed.

Lemma DataStore_file (h shard file : string) :
  DataStore h = Some (shard, file) -> file = h +:+ ".gz".
Proof.
  unfold DataStore. destruct (len h <? 2)%nat; [discriminate|]. now intros [= _ <-].
Qed.

Lemma grows_refl (s : Store) : grows s s.
Proof. now intros h H. Qed.

Lemma grows_trans (s1 s2 s3 : Store) : grows s1 s2 -> grows s2 s3 -> grows s1 s3.
Proof. intros H1 H2 h H. now apply H2, H1. Qed.

Lemma grows_lookup (s s' : Store) :
  (forall p, lookup_file s' p = lookup_file s p) -> grows s s'.
Proof. intros H h. unfold stat_blob. now rewrite H. Qed.

Lemma place_blob_grows (s : Store) (h shard file payload : string) :
  DataStore h = Some (shard, file) -> grows s (place_blob s shard file payload).
Proof.
  intros Hd h' [f Hf]. unfold stat_blob in *.
  destruct (DataStore h') as [[sh' f']|] eqn:E; [|discriminate].
  rewrite lookup_file_place_blob.
  destruct (decide (shard = sh')); [|eauto].
  destruct (decide (f' = file)); [eauto|].
  destruct (decide (f' = file +:+ ".partial")) as [Hp|]; [|eauto].
  exfalso. apply DataStore_file in E, Hd. subst f' file.
  exact (gz_not_partial _ _ Hp).
Qed.

Lemma place_blob_stat (s : Store) (h shard file payload : string) :
  DataStore h = Some (shard, file) ->
  stat_blob (place_blob s shard file payload) h = Some (new_blob payload).
Proof.
  intros Hd. unfold stat_blob. rewrite Hd, lookup_file_place_blob.
  now rewrite !decide_True by reflexivity.
Qed.

(** What saving one blob of digest [h] does to the store. *)
Definition leaf_post (DryRun : bool) (h : string) (st : backup_state)
    (r : backup_state * option save_error) : Prop :=
  grows (store st) (store (fst r))
  /\ StoreSnapshots (store (fst r)) = StoreSnapshots (store st)
  /\ (DryRun = true -> store (fst r) = store st)
  /\ (DryRun = false -> snd r = None -> is_Some (stat_blob (store (fst r)) h)).

Ltac leaf_same :=
  split; [apply grows_refl | split; [reflexivity | split; [reflexivity | try discriminate]]].

Ltac leaf_placed Hd Hm Hsn :=
  split; [eapply grows_trans; [apply grows_lookup, Hm | eapply place_blob_grows; exact Hd]
  | split; [now rewrite StoreSnapshots_place_blob
  | split; [discriminate | intros _ _; erewrite place_blob_stat by exact Hd; eauto]]].

Lemma FileEntry_Save_post (DryRun : bool) (p : path) (h : string) (readable : bool)
    (bytes : string) (st : backup_state) :
  leaf_post DryRun h st (FileEntry_Save DryRun p h readable bytes st).
Proof.
  unfold FileEntry_Save, leaf_post.
  destruct (DataStore h) as [[shard file]|] eqn:Hd; simpl; [|leaf_same].
  destruct (stat_blob (store st) h) as [f|] eqn:Hs; simpl.
  { leaf_same. intros _ _. rewrite Hs. eauto. }
  destruct DryRun; simpl; [leaf_same|].
  destruct (MkdirAll_shard (store st) shard) as [s1|] eqn:Hm; simpl; [|leaf_same].
  apply MkdirAll_shard_lookup in Hm as [Hsn Hm].
  destruct readable; simpl; [leaf_placed Hd Hm Hsn|].
  split; [now apply grows_lookup | split; [assumption | split; discriminate]].
Qed.

Lemma LinkEntry_Save_post (DryRun : bool) (h target : string) (st : backup_state) :
  leaf_post DryRun h st (LinkEntry_Save DryRun h target st).
Proof.
  unfold LinkEntry_Save, leaf_post.
  destruct (DataStore h) as [[shard file]|] eqn:Hd; simpl; [|leaf_same].
  destruct (stat_blob (store st) h) as [f|] eqn:Hs; simpl.
  { leaf_same. intros _ _. rewrite Hs. eauto. }
  destruct DryRun; simpl; [leaf_same|].
  destruct (MkdirAll_shard (store st) shard) as [s1|] eqn:Hm; simpl; [|leaf_same].
  apply MkdirAll_shard_lookup in Hm as [Hsn Hm].
  leaf_placed Hd Hm Hsn.
Qed.

Lemma save_listing_post (DryRun : bool) (h text : string) (st : backup_state) :
  leaf_post DryRun h st (save_listing DryRun h text st).
Proof.
  unfold save_listing, leaf_post.
  destruct (DataStore h) as [[shard file]|] eqn:Hd; simpl; [|leaf_same].
  destruct (stat_blob (store st) h) as [f|] eqn:Hs; simpl.
  { leaf_same. intros _ _. rewrite Hs. eauto. }
  destruct DryRun; simpl; [leaf_same|].
  destruct (MkdirAll_shard (store st) shard) as [s1|] eqn:Hm; simpl; [|leaf_same].
  apply MkdirAll_shard_lookup in Hm as [Hsn Hm].
  leaf_placed Hd Hm Hsn.
Qed.

Lemma saved_grows (s s' : Store) (e : Entry) : grows s s' -> saved s e -> saved s' e.
Proof.
  intros Hg. induction e as [p n h r b | p n t h | p n m ig | p n m es ig IH] using Entry_ind'.
  - apply Hg.
  - apply Hg.
  - exact (fun H => H).
  - rewrite !saved_DirectoryEntry. intros [Hes (text & Ht & Hs)]. split.
    + rewrite List.Forall_forall in *. auto.
    + exists text. auto.
Qed.


Lemma same_archive_refl (st : backup_state) : same_archive st st.
Proof. now repeat split. Qed.

Lemma same_archive_trans (st1 st2 st3 : backup_state) :
  same_archive st1 st2 -> same_archive st2 st3 -> same_archive st1 st3.
Proof.
  unfold same_archive. intros (-> & -> & -> & ->) (-> & -> & -> & ->). now repeat split.
Qed.

(** A blob that [os.Stat] finds is not written again. *)
Lemma FileEntry_Save_noop (DryRun : bool) (p : path) (h : string) (readable : bool)
    (bytes : string) (st : backup_state) :
  is_Some (stat_blob (store st) h) ->
  exists st', FileEntry_Save DryRun p h readable bytes st = (st', None)
              /\ same_archive st st'.
Proof.
  intros [f Hf]. unfold FileEntry_Save. simpl. unfold stat_blob in Hf |- *.
  destruct (DataStore h) as [[shard file]|]; [|discriminate].
  rewrite Hf. eexists. split; [reflexivity | now repeat split].
Qed.

Lemma LinkEntry_Save_noop (DryRun : bool) (h target : string) (st : backup_state) :
  is_Some (stat_blob (store st) h) ->
  exists st', LinkEntry_Save DryRun h target st = (st', None) /\ same_archive st st'.
Proof.
  intros [f Hf]. unfold LinkEntry_Save. simpl. unfold stat_blob in Hf |- *.
  destruct (DataStore h) as [[shard file]|]; [|discriminate].
  rewrite Hf. eexists. split; [reflexivity | now repeat split].
Qed.

Lemma save_listing_noop (DryRun : bool) (h text : string) (st : backup_state) :
  is_Some (stat_blob (store st) h) ->
  exists st', save_listing DryRun h text st = (st', None) /\ same_archive st st'.
Proof.
  intros [f Hf]. unfold save_listing. unfold stat_blob in Hf |- *.
  destruct (DataStore h) as [[shard file]|]; [|discriminate].
  rewrite Hf. eexists. split; [reflexivity | now repeat split].
Qed.

(** Saving a tree all of whose blobs are in the store writes nothing and
    counts nothing as archived. *)
Lemma Save_noop (DryRun : bool) (e : Entry) :
  forall st, saved (store st) e ->
  exists st', Save DryRun e st = (st', None) /\ same_archive st st'.
Proof.
  induction e as [p n h r b | p n t h | p n m ig | p n m es ig IH] using Entry_ind';
    intros st Hs.
  - now apply FileEntry_Save_noop.
  - now apply LinkEntry_Save_noop.
  - destruct Hs.
  - rewrite Save_DirectoryEntry. apply saved_DirectoryEntry in Hs as [Hes (text & Ht & Hb)].
    assert (Hc : forall st0, store st0 = store st ->
              exists st', save_children DryRun es st0 = (st', None) /\ same_archive st0 st').
    { clear Ht Hb. induction es as [|e es IHes]; intros st0 H0.
      - exists st0. split; [reflexivity | apply same_archive_refl].
      - apply Forall_cons in IH as [IHe IH]. apply Forall_cons in Hes as [He Hes].
        destruct (IHe st0) as (st1 & E1 & A1); [now rewrite H0|].
        destruct (IHes IH Hes st1) as (st2 & E2 & A2).
        { destruct A1 as [-> _]. exact H0. }
        exists st2. split; [|eapply same_archive_trans; eassumption].
        cbn [save_children]. now rewrite E1. }
    destruct (Hc (incDirsTotal st) eq_refl) as (st1 & E1 & A1).
    rewrite E1, Ht.
    destruct (save_listing_noop DryRun (md5hex text) text st1) as (st2 & E2 & A2).
    { destruct A1 as [-> _]. exact Hb. }
    exists st2. split; [exact E2|].
    eapply same_archive_trans; [|exact A2].
    eapply same_archive_trans; [|exact A1]. now repeat split.
Qed.

(** What [Save] does to the store, whatever it returns: no digest is lost,
    the heads are not touched, a dry run changes nothing, and a run that
    returns no error leaves every blob of the tree behind. *)
Definition save_post (DryRun : bool) (ok : Store -> Prop) (st : backup_state)
    (r : backup_state * option save_error) : Prop :=
  grows (store st) (store (fst r))
  /\ StoreSnapshots (store (fst r)) = StoreSnapshots (store st)
  /\ (DryRun = true -> store (fst r) = store st)
  /\ (DryRun = false -> snd r = None -> ok (store (fst r))).

Lemma save_children_post (DryRun : bool) (es : list Entry) :
  Forall (fun e => forall st, save_post DryRun (fun s => saved s e) st (Save DryRun e st)) es ->
  forall st,
    save_post DryRun (fun s => Forall (saved s) es) st (save_children DryRun es st).
Proof.
  induction es as [|e es IHes]; intros IH st.
  - split; [apply grows_refl | split; [reflexivity | split; [reflexivity | constructor]]].
  - apply Forall_cons in IH as [IHe IH]. cbn [save_children].
    destruct (IHe st) as (G1 & S1 & D1 & K1).
    destruct (Save DryRun e st) as [st1 [err|]] eqn:E1; simpl in *.
    + split; [exact G1 | split; [exact S1 | split; [exact D1 | discriminate]]].
    + destruct (IHes IH st1) as (G2 & S2 & D2 & K2).
      split; [eapply grows_trans; eassumption|].
      split; [congruence|].
      split; [intros Hd; rewrite D2, D1; auto|].
      intros Hd Hr. constructor; [|auto].
      eapply saved_grows; [exact G2 | auto].
Qed.

Lemma Save_post (DryRun : bool) (e : Entry) :
  forall st, save_post DryRun (fun s => saved s e) st (Save DryRun e st).
Proof.
  induction e as [p n h r b | p n t h | p n m ig | p n m es ig IH] using Entry_ind';
    intros st.
  - apply (FileEntry_Save_post DryRun p h r b st).
  - apply (LinkEntry_Save_post DryRun h t st).
  - split; [apply grows_refl | split; [reflexivity | split; [reflexivity | discriminate]]].
  - rewrite Save_DirectoryEntry.
    destruct (save_children_post DryRun es IH (incDirsTotal st)) as (G1 & S1 & D1 & K1).
    destruct (save_children DryRun es (incDirsTotal st)) as [st1 [err|]] eqn:E1; cbn [fst snd] in *; cbn beta iota.
    { split; [exact G1 | split; [exact S1 | split; [exact D1 | discriminate]]]. }
    destruct (listing_text es) as [text|] eqn:Ht; cbn beta iota.
    2:{ split; [exact G1 | split; [exact S1 | split; [exact D1 | discriminate]]]. }
    destruct (save_listing_post DryRun (md5hex text) text st1) as (G2 & S2 & D2 & K2).
    split; [eapply grows_trans; eassumption|].
    split; [now rewrite S2, S1|].
    split; [intros Hd; rewrite D2, D1; auto|].
    intros Hd Hr. cbn beta. apply saved_DirectoryEntry. split.
    + specialize (K1 Hd eq_refl). rewrite List.Forall_forall in *.
      intros x Hx. eapply saved_grows; [exact G2 | auto].
    + exists text. auto.
Qed.

(* --------------------------------------------------------------------- *)
(** *** Scanning again with the cache of the first scan                   *)
(* --------------------------------------------------------------------- *)












(* --------------------------------------------------------------------- *)
(** *** The integrity check                                               *)
(* --------------------------------------------------------------------- *)

(** What [verifyBlob] reports for a digest the first time it sees it. *)
Definition blob_fault (s : Store) (deep : bool) (h : string) : option check_error :=
  match os_Stat s h with
  | StatNotExist => Some (ErrMissingBlob h)
  | StatError => None
  | StatFound f =>
      if (len (bbytes f) =? 0)%nat then Some (ErrEmptyBlob h)
      else if deep then ErrCorruptedBlob h <$> verifyBlobHash s h else None
  end.

Lemma verifyBlob_fresh (s : Store) (deep : bool) (h : string) (st : check_state) :
  h ∉ verifiedBlobs st ->
  verifyBlob s deep h st
  = match os_Stat s h with
    | StatError => (st, true)
    | _ => (mark_verified h (match blob_fault s deep h with
                             | Some e => add_err e st
                             | None => st
                             end), false)
    end.
Proof.
  intros Hh. unfold verifyBlob, blob_fault. rewrite bool_decide_eq_false_2 by assumption.
  destruct (os_Stat s h) as [f| |]; try reflexivity.
  destruct (len (bbytes f) =? 0)%nat; [reflexivity|].
  destruct deep; [|reflexivity].
  now destruct (verifyBlobHash s h).
Qed.

(** The state [st'] extends [st]: no error and no mark is lost. *)
Definition ext (st st' : check_state) : Prop :=
  (forall e, e ∈ errs st -> e ∈ errs st')
  /\ verifiedBlobs st ⊆ verifiedBlobs st'
  /\ traversedDirs st ⊆ traversedDirs st'.

Lemma ext_refl (st : check_state) : ext st st.
Proof. now repeat split. Qed.

Lemma ext_trans (st1 st2 st3 : check_state) : ext st1 st2 -> ext st2 st3 -> ext st1 st3.
Proof.
  intros (E1 & V1 & T1) (E2 & V2 & T2). split; [auto|]. split; set_solver.
Qed.

Lemma ext_add_err (e : check_error) (st : check_state) : ext st (add_err e st).
Proof.
  split; [|now split]. intros x Hx. simpl. apply elem_of_app. now left.
Qed.

Lemma ext_mark_verified (h : string) (st : check_state) : ext st (mark_verified h st).
Proof. split; [auto|]. split; simpl; set_solver. Qed.

Lemma ext_mark_traversed (h : string) (st : check_state) : ext st (mark_traversed h st).
Proof. split; [auto|]. split; simpl; set_solver. Qed.

(** Every fault of a verified blob is among the errors. *)
Definition inv_blob (s : Store) (deep : bool) (st : check_state) : Prop :=
  forall h e, h ∈ verifiedBlobs st -> blob_fault s deep h = Some e -> e ∈ errs st.

(** Every traversed directory whose blob is not a gzip stream is among the
    errors. *)
Definition inv_dir (s : Store) (st : check_state) : Prop :=
  forall h bytes,
    h ∈ traversedDirs st -> open_blob s h = Opened bytes -> gunzip bytes = GzInvalid ->
    ErrDirContent h ∈ errs st.

(** The loop over the listing of [d] is over: every child is verified, and
    every child of type [D] is traversed. *)
Definition closed_at (s : Store) (st : check_state) (d : string) : Prop :=
  forall line,
    line ∈ check_children s d ->
    (slice line 2 34 ∈ verifiedBlobs st \/ os_Stat s (slice line 2 34) = StatError)
    /\ (byte_at line 0 = Some "D"%char -> slice line 2 34 ∈ traversedDirs st).

(** The invariant of the check; [P] holds the directories whose loop is
    running. *)
Definition check_inv (s : Store) (deep : bool) (P : gset string) (st : check_state)
    : Prop :=
  inv_blob s deep st /\ inv_dir s st
  /\ forall d, d ∈ traversedDirs st -> d ∉ P -> closed_at s st d.

Lemma closed_at_ext (s : Store) (st st' : check_state) (d : string) :
  ext st st' -> closed_at s st d -> closed_at s st' d.
Proof.
  intros (_ & V & T) H line Hl. destruct (H line Hl) as [[Hv|Hv] Ht].
  - split; [left; set_solver | set_solver].
  - split; [now right | set_solver].
Qed.

Lemma check_inv_empty (s : Store) (deep : bool) : check_inv s deep ∅ empty_check.
Proof.
  split; [|split].
  - intros h e Hh. simpl in Hh. set_solver.
  - intros h bytes Hh. simpl in Hh. set_solver.
  - intros d Hd. simpl in Hd. set_solver.
Qed.

Lemma check_inv_add_err (s : Store) (deep : bool) (P : gset string) (e : check_error)
    (st : check_state) :
  check_inv s deep P st -> check_inv s deep P (add_err e st).
Proof.
  intros (Hb & Hd & Hc). pose proof (ext_add_err e st) as (E & _ & _).
  split; [|split].
  - intros h x Hh Hx. apply E. eapply Hb; eassumption.
  - intros h bytes Hh Ho Hg. apply E. eapply Hd; eassumption.
  - intros d Hdt HP. eapply closed_at_ext; [apply ext_add_err|]. now apply Hc.
Qed.

Lemma check_inv_mark_verified (s : Store) (deep : bool) (P : gset string) (h : string)
    (st : check_state) :
  check_inv s deep P st ->
  (forall e, blob_fault s deep h = Some e -> e ∈ errs st) ->
  check_inv s deep P (mark_verified h st).
Proof.
  intros (Hb & Hd & Hc) Hfault. split; [|split].
  - intros h' e Hh' He. simpl in Hh' |- *.
    apply elem_of_union in Hh' as [Hh'|Hh'].
    + apply elem_of_singleton in Hh'. subst h'. now apply Hfault.
    + eapply Hb; eassumption.
  - intros h' bytes Hh'. simpl in Hh' |- *. now apply Hd.
  - intros d Hdt HP. eapply closed_at_ext; [apply ext_mark_verified|]. now apply Hc.
Qed.

Lemma verifyBlob_post (s : Store) (deep : bool) (P : gset string) (h : string)
    (st : check_state) :
  check_inv s deep P st ->
  ext st (fst (verifyBlob s deep h st))
  /\ check_inv s deep P (fst (verifyBlob s deep h st))
  /\ traversedDirs (fst (verifyBlob s deep h st)) = traversedDirs st
  /\ (h ∈ verifiedBlobs (fst (verifyBlob s deep h st)) \/ os_Stat s h = StatError)
  /\ (snd (verifyBlob s deep h st) = true -> os_Stat s h = StatError).
Proof.
  intros Hinv. destruct (decide (h ∈ verifiedBlobs st)) as [Hh|Hh].
  { unfold verifyBlob. rewrite bool_decide_eq_true_2 by assumption. simpl.
    split; [apply ext_refl|]. split; [assumption|]. split; [reflexivity|].
    split; [now left | discriminate]. }
  rewrite verifyBlob_fresh by assumption.
  set (st1 := match blob_fault s deep h with
              | Some e => add_err e st
              | None => st
              end).
  assert (Hext : ext st st1)
    by (subst st1; destruct (blob_fault s deep h); [apply ext_add_err | apply ext_refl]).
  assert (Hinv1 : check_inv s deep P st1)
    by (subst st1; destruct (blob_fault s deep h);
        [now apply check_inv_add_err | assumption]).
  assert (Hfault : forall e, blob_fault s deep h = Some e -> e ∈ errs st1).
  { intros e He. subst st1. rewrite He. simpl. apply elem_of_app. right.
    now apply list_elem_of_singleton. }
  assert (Htr : traversedDirs st1 = traversedDirs st)
    by (subst st1; now destruct (blob_fault s deep h)).
  assert (Hdone : ext st (mark_verified h st1)
                  /\ check_inv s deep P (mark_verified h st1)
                  /\ traversedDirs (mark_verified h st1) = traversedDirs st
                  /\ (h ∈ verifiedBlobs (mark_verified h st1) \/ os_Stat s h = StatError)).
  { split; [eapply ext_trans; [exact Hext | apply ext_mark_verified]|].
    split; [now apply check_inv_mark_verified|].
    split; [exact Htr | left; simpl; set_solver]. }
  destruct Hdone as (D1 & D2 & D3 & D4).
  destruct (os_Stat s h) as [f| |] eqn:Hs; cbn [fst snd].
  - repeat (split; [assumption|]). discriminate.
  - repeat (split; [assumption|]). discriminate.
  - split; [apply ext_refl|]. split; [assumption|]. split; [reflexivity|].
    split; [now right | reflexivity].
Qed.

Lemma check_lines_post (rec : string -> check_state -> check_result)
    (s : Store) (deep : bool) (P V1 : gset string) (lines : list string) :
  (forall h st, V1 ⊆ traversedDirs st -> check_inv s deep P st ->
     exists st', (exists err, rec h st = CkDone st' err)
                 /\ ext st st' /\ check_inv s deep P st' /\ h ∈ traversedDirs st') ->
  forall st,
    V1 ⊆ traversedDirs st -> check_inv s deep P st ->
    exists st',
      check_lines rec s deep lines st = Some st'
      /\ ext st st'
      /\ check_inv s deep P st'
      /\ forall line,
           line ∈ lines -> (36 <= len line)%nat ->
           (slice line 2 34 ∈ verifiedBlobs st'
            \/ os_Stat s (slice line 2 34) = StatError)
           /\ (byte_at line 0 = Some "D"%char -> slice line 2 34 ∈ traversedDirs st').
Proof.
  intros Hrec. induction lines as [|line rest IH]; intros st HV Hinv.
  { exists st. split; [reflexivity|]. split; [apply ext_refl|]. split; [assumption|].
    intros line Hl. now apply elem_of_nil in Hl. }
  cbn [check_lines]. unfold check_line.
  destruct (len line <? 36)%nat eqn:Hlen.
  { destruct (IH st HV Hinv) as (st' & E & X & I & C).
    exists st'. split; [exact E|]. split; [exact X|]. split; [exact I|].
    intros l Hl Hge. apply elem_of_cons in Hl as [->|Hl]; [|now apply C].
    apply Nat.ltb_lt in Hlen. lia. }
  destruct (verifyBlob_post s deep P (slice line 2 34) st Hinv)
    as (X1 & I1 & T1 & V1' & _).
  set (st1 := fst (verifyBlob s deep (slice line 2 34) st)) in *.
  assert (HV1 : V1 ⊆ traversedDirs st1) by (rewrite T1; exact HV).
  destruct (bool_decide (byte_at line 0 = Some "D"%char)) eqn:HD.
  - destruct (Hrec (slice line 2 34) st1 HV1 I1) as (st2 & [err E2] & X2 & I2 & T2).
    rewrite E2.
    assert (HV2 : V1 ⊆ traversedDirs st2) by (destruct X2 as (_ & _ & ?); set_solver).
    destruct (IH st2 HV2 I2) as (st' & E & X & I & C).
    exists st'. split; [exact E|].
    split; [eapply ext_trans; [exact X1|]; eapply ext_trans; eassumption|].
    split; [exact I|].
    intros l Hl Hge. apply elem_of_cons in Hl as [->|Hl]; [|now apply C].
    destruct X as (_ & Xv & Xt). destruct X2 as (_ & X2v & _). split.
    + destruct V1' as [Hv|Hv]; [left; set_solver | now right].
    + intros _. set_solver.
  - destruct (IH st1 HV1 I1) as (st' & E & X & I & C).
    exists st'. split; [exact E|].
    split; [eapply ext_trans; eassumption|]. split; [exact I|].
    intros l Hl Hge. apply elem_of_cons in Hl as [->|Hl]; [|now apply C].
    destruct X as (_ & Xv & Xt). split.
    + destruct V1' as [Hv|Hv]; [left; set_solver | now right].
    + intros Hd. apply bool_decide_eq_false in HD. contradiction.
Qed.

(** The traversal ends within its fuel, keeps the invariant, and leaves the
    directory traversed. *)
Lemma traverseDirectory_post (s : Store) (deep : bool) (fuel : nat) :
  forall (P : gset string) (h : string) (st : check_state),
    (size (GetAllBlobs s ∖ traversedDirs st) < fuel)%nat ->
    check_inv s deep P st ->
    exists st',
      (exists err, traverseDirectory s deep fuel h st = CkDone st' err)
      /\ ext st st' /\ check_inv s deep P st' /\ h ∈ traversedDirs st'.
Proof.
  induction fuel as [|fuel IH]; intros P h st Hsz Hinv; [lia|].
  cbn [traverseDirectory].
  destruct (bool_decide (h ∈ traversedDirs st)) eqn:Hh.
  { apply bool_decide_eq_true in Hh. exists st. split; [eexists; reflexivity|].
    split; [apply ext_refl|]. now split. }
  apply bool_decide_eq_false in Hh.
  destruct Hinv as (Hb & Hd & Hc).
  (* the state after the mark, with [h] among the running loops *)
  assert (Hmark : (forall bytes, open_blob s h = Opened bytes -> gunzip bytes <> GzInvalid) ->
                  check_inv s deep (P ∪ {[h]}) (mark_traversed h st)).
  { intros Hok. split; [exact Hb|]. split.
    - intros h' bytes Hh' Ho Hg. simpl in Hh' |- *.
      apply elem_of_union in Hh' as [Hh'|Hh']; [|eapply Hd; eassumption].
      apply elem_of_singleton in Hh'. subst h'. now destruct (Hok bytes Ho).
    - intros d Hdt HP. simpl in Hdt.
      eapply closed_at_ext; [apply ext_mark_traversed|]. apply Hc; set_solver. }
  (* closing the loop of [h] *)
  assert (Hclose : forall st', check_inv s deep (P ∪ {[h]}) st' -> closed_at s st' h ->
                               check_inv s deep P st').
  { intros st' (Hb' & Hd' & Hc') Hch. split; [exact Hb'|]. split; [exact Hd'|].
    intros d Hdt HP. destruct (decide (d = h)) as [->|Hne]; [exact Hch|].
    apply Hc'; set_solver. }
  assert (Hvac : forall st', check_children s h = [] -> closed_at s st' h).
  { intros st' E line Hl. rewrite E in Hl. now apply elem_of_nil in Hl. }
  destruct (open_blob s h) as [| |bytes] eqn:Ho.
  - exists (mark_traversed h st). split; [eexists; reflexivity|].
    split; [apply ext_mark_traversed|]. split; [|simpl; set_solver].
    apply Hclose; [apply Hmark; discriminate|].
    apply Hvac. unfold check_children. now rewrite Ho.
  - exists (mark_traversed h st). split; [eexists; reflexivity|].
    split; [apply ext_mark_traversed|]. split; [|simpl; set_solver].
    apply Hclose; [apply Hmark; discriminate|].
    apply Hvac. unfold check_children. now rewrite Ho.
  - destruct (scan_stream (gunzip bytes)) as [[lines scan_err]|] eqn:Hg.
    + assert (Hstat : h ∈ GetAllBlobs s).
      { unfold open_blob in Ho. destruct (stat_blob s h) as [f|] eqn:Hst.
        - eapply stat_blob_GetAllBlobs. rewrite Hst. eauto.
        - destruct (under_stray s h); discriminate. }
      assert (Hrec : forall h' st', {[h]} ∪ traversedDirs st ⊆ traversedDirs st' ->
                check_inv s deep (P ∪ {[h]}) st' ->
                exists st'', (exists err, traverseDirectory s deep fuel h' st' = CkDone st'' err)
                             /\ ext st' st'' /\ check_inv s deep (P ∪ {[h]}) st''
                             /\ h' ∈ traversedDirs st'').
      { intros h' st' HV Hinv'. apply IH; [|exact Hinv'].
        assert (GetAllBlobs s ∖ traversedDirs st'
                ⊂ GetAllBlobs s ∖ traversedDirs st) as Hsub by set_solver.
        apply subset_size in Hsub. lia. }
      destruct (check_lines_post _ s deep (P ∪ {[h]}) ({[h]} ∪ traversedDirs st) lines
                  Hrec (mark_traversed h st)) as (st' & E & X & I & C).
      { reflexivity. }
      { apply Hmark. intros b Hb' Hinvalid. injection Hb' as <-.
        rewrite Hinvalid in Hg. discriminate. }
      rewrite E. exists st'. split; [eexists; reflexivity|].
      split; [eapply ext_trans; [apply ext_mark_traversed | exact X]|].
      split; [|destruct X as (_ & _ & Xt); simpl in Xt; set_solver].
      apply Hclose; [exact I|].
      intros line Hl. unfold check_children in Hl. rewrite Ho, Hg in Hl.
      apply list_elem_of_filter in Hl as [Hge Hl]. now apply C.
    + exists (add_err (ErrDirContent h) (mark_traversed h st)).
      split; [eexists; reflexivity|].
      split; [eapply ext_trans; [apply ext_mark_traversed | apply ext_add_err]|].
      split; [|simpl; set_solver].
      apply Hclose.
      * split; [|split].
        -- intros h' e Hh' He. simpl. apply elem_of_app. left. eapply Hb; eassumption.
        -- intros h' b Hh' Ho' Hg'. simpl in Hh' |- *. apply elem_of_app.
           apply elem_of_union in Hh' as [Hh'|Hh'].
           ++ right. apply elem_of_singleton in Hh'. subst h'.
              now apply list_elem_of_singleton.
           ++ left. eapply Hd; eassumption.
        -- intros d Hdt HP. simpl in Hdt.
           eapply closed_at_ext;
             [eapply ext_trans; [apply ext_mark_traversed | apply ext_add_err]|].
           apply Hc; set_solver.
      * apply Hvac. unfold check_children. now rewrite Ho, Hg.
Qed.

Lemma store_fuel_enough (s : Store) (V : gset string) :
  (size (GetAllBlobs s ∖ V) < store_fuel s)%nat.
Proof.
  assert (GetAllBlobs s ∖ V ⊆ GetAllBlobs s) as Hsub by set_solver.
  apply subseteq_size in Hsub. unfold store_fuel. lia.
Qed.

Lemma verify_roots_post (s : Store) (deep : bool) (roots : list BackupRoot) :
  forall st,
    check_inv s deep ∅ st ->
    exists st',
      verify_roots s deep (store_fuel s) roots st = Some st'
      /\ ext st st'
      /\ check_inv s deep ∅ st'
      /\ forall h,
           h ∈ root_hashes s roots ->
           (h ∈ verifiedBlobs st' \/ os_Stat s h = StatError)
           /\ (os_Stat s h <> StatError -> h ∈ traversedDirs st').
Proof.
  induction roots as [|root rest IH]; intros st Hinv.
  { exists st. split; [reflexivity|]. split; [apply ext_refl|]. split; [assumption|].
    intros h Hh. now apply elem_of_nil in Hh. }
  cbn [verify_roots]. unfold root_hashes. cbn [omap list_omap].
  fold (root_hashes s rest).
  destruct (BackupRoot_Hash s root) as [h0|] eqn:Hroot.
  2:{ destruct (IH _ (check_inv_add_err s deep ∅ (ErrRootCorrupted (BackupHead root)) st Hinv))
        as (st' & E & X & I & C).
      exists st'. split; [exact E|].
      split; [eapply ext_trans; [apply ext_add_err | exact X]|]. now split. }
  unfold verifyTree.
  destruct (verifyBlob_post s deep ∅ h0 st Hinv) as (X1 & I1 & T1 & V1 & S1).
  destruct (verifyBlob s deep h0 st) as [st1 err1]. cbn [fst snd] in *.
  assert (Hstep : exists st2,
            match (if err1 then CkDone st1 true
                   else traverseDirectory s deep (store_fuel s) h0 st1) with
            | CkOutOfFuel => None
            | CkDone st' true =>
                verify_roots s deep (store_fuel s) rest
                  (add_err (ErrTraversal (BackupHead root)) st')
            | CkDone st' false => verify_roots s deep (store_fuel s) rest st'
            end = verify_roots s deep (store_fuel s) rest st2
            /\ ext st1 st2 /\ check_inv s deep ∅ st2
            /\ (os_Stat s h0 <> StatError -> h0 ∈ traversedDirs st2)).
  { destruct err1.
    - exists (add_err (ErrTraversal (BackupHead root)) st1).
      split; [reflexivity|]. split; [apply ext_add_err|].
      split; [now apply check_inv_add_err|].
      intros Hne. now destruct Hne; apply S1.
    - destruct (traverseDirectory_post s deep (store_fuel s) ∅ h0 st1
                  (store_fuel_enough s _) I1) as (st2 & [err E2] & X2 & I2 & T2).
      rewrite E2. destruct err.
      + exists (add_err (ErrTraversal (BackupHead root)) st2).
        split; [reflexivity|].
        split; [eapply ext_trans; [exact X2 | apply ext_add_err]|].
        split; [now apply check_inv_add_err|]. intros _. exact T2.
      + exists st2. split; [reflexivity|]. split; [exact X2|]. now split. }
  destruct Hstep as (st2 & E2 & X2 & I2 & T2).
  destruct (IH st2 I2) as (st' & E & X & I & C).
  exists st'. split.
  { rewrite <- E, <- E2. now destruct err1. }
  split; [eapply ext_trans; [exact X1|]; eapply ext_trans; eassumption|].
  split; [exact I|].
  intros h Hh. apply elem_of_cons in Hh as [->|Hh]; [|now apply C].
  destruct X as (_ & Xv & Xt). destruct X2 as (_ & X2v & _). split.
  - destruct V1 as [Hv|Hv]; [left; set_solver | now right].
  - intros Hne. specialize (T2 Hne). set_solver.
Qed.

(** Whatever the check is documented to traverse, it has traversed when
    the loop over the roots ends. *)
Lemma traversed_from_final (s : Store) (deep : bool) (roots : list string)
    (st : check_state) (h : string) :
  check_inv s deep ∅ st ->
  (forall r, r ∈ roots -> os_Stat s r <> StatError -> r ∈ traversedDirs st) ->
  traversed_from s roots h -> h ∈ traversedDirs st.
Proof.
  intros (_ & _ & Hc) Hroots H.
  induction H as [h Hh Hs | d line Hd IH Hl HD]; [now apply Hroots|].
  destruct (Hc d IH (not_elem_of_empty d) line Hl) as [_ Ht]. now apply Ht.
Qed.

Lemma verified_from_final (s : Store) (deep : bool) (roots : list string)
    (st : check_state) (h : string) :
  check_inv s deep ∅ st ->
  (forall r, r ∈ roots ->
     (r ∈ verifiedBlobs st \/ os_Stat s r = StatError)
     /\ (os_Stat s r <> StatError -> r ∈ traversedDirs st)) ->
  verified_from s roots h -> h ∈ verifiedBlobs st \/ os_Stat s h = StatError.
Proof.
  intros Hinv Hroots [h' Hh | d line Hd Hl]; [now apply Hroots|].
  assert (Ht : d ∈ traversedDirs st).
  { eapply traversed_from_final; [exact Hinv | | exact Hd].
    intros r Hr. now apply Hroots. }
  destruct Hinv as (_ & _ & Hc).
  now destruct (Hc d Ht (not_elem_of_empty d) line Hl) as [Hv _].
Qed.

(** [Verify] returns: neither traversal runs out of fuel. *)
Lemma Verify_total (s : Store) (ProjectName : string) (hashCacheErr deep : bool) :
  is_Some (Verify s ProjectName hashCacheErr deep).
Proof.
  unfold Verify. destruct (BackupRoots s ProjectName) as [roots|]; [|eauto].
  destruct (verify_roots_post s deep roots empty_check (check_inv_empty s deep))
    as (st & -> & _).
  unfold FindUnreferenced. pose proof (GetReachableBlobs_total s) as Ht.
  destruct (GetReachableBlobs s); [contradiction | eauto | eauto].
Qed.

Lemma Verify_errs (s : Store) (ProjectName : string) (hashCacheErr deep : bool)
    (roots : list BackupRoot) :
  BackupRoots s ProjectName = Some roots ->
  exists st l,
    verify_roots s deep (store_fuel s) roots empty_check = Some st
    /\ Verify s ProjectName hashCacheErr deep = Some l
    /\ (forall e, e ∈ errs st -> e ∈ l)
    /\ check_inv s deep ∅ st
    /\ forall h,
         h ∈ root_hashes s roots ->
         (h ∈ verifiedBlobs st \/ os_Stat s h = StatError)
         /\ (os_Stat s h <> StatError -> h ∈ traversedDirs st).
Proof.
  intros Hroots. unfold Verify. rewrite Hroots.
  destruct (verify_roots_post s deep roots empty_check (check_inv_empty s deep))
    as (st & E & _ & I & C).
  rewrite E. exists st. unfold FindUnreferenced.
  pose proof (GetReachableBlobs_total s) as Ht.
  destruct (GetReachableBlobs s) as [|e|rst]; [contradiction| |];
    eexists; (split; [reflexivity|]); (split; [reflexivity|]);
    (split; [intros x Hx; apply elem_of_app; now left|]); now split.
Qed.


(* --------------------------------------------------------------------- *)
(** *** Restoring                                                         *)
(* --------------------------------------------------------------------- *)

Lemma is_dir_at_lookup (fs : fsys) (p : path) (m : Z) :
  fs !! p = Some (FDir m) -> is_dir_at fs p = true.
Proof. intros H. destruct p; [reflexivity|]. unfold is_dir_at. now rewrite H. Qed.

(** A walk of [MkdirAll] that succeeds leaves a directory at its end, keeps
    what was there, and adds directories with the bits [perm &^ umask]
    only. *)
Lemma mkdir_from_ok (umask perm : Z) (rest : path) :
  forall (done : path) (fs fs' : fsys),
    is_dir_at fs done = true ->
    mkdir_from umask perm done rest fs = (fs', FsOk) ->
    is_dir_at fs' (done ++ rest) = true
    /\ (forall q n, fs !! q = Some n -> fs' !! q = Some n)
    /\ (forall q n, fs !! q = None -> fs' !! q = Some n -> n = FDir (Z.ldiff perm umask)).
Proof.
  induction rest as [|name rest IH]; intros done fs fs' Hdone H.
  { injection H as <-. rewrite app_nil_r. split; [assumption|]. split; [auto|].
    intros q n Hq Hq'. congruence. }
  cbn [mkdir_from] in H.
  replace (done ++ name :: rest) with ((done ++ [name]) ++ rest)
    by (now rewrite <- app_assoc).
  destruct (fs !! (done ++ [name])) as [[mode c|t|mode]|] eqn:Hp; try discriminate.
  - apply (IH (done ++ [name]) fs fs'); [|exact H]. eapply is_dir_at_lookup; exact Hp.
  - destruct (IH (done ++ [name]) _ fs' (is_dir_at_lookup _ _ _ (lookup_insert_eq _ _ _)) H)
      as (D & K & N).
    split; [exact D|]. split.
    + intros q n Hq. apply K. rewrite lookup_insert_ne; [exact Hq|]. congruence.
    + intros q n Hq Hq'. destruct (decide (done ++ [name] = q)) as [<-|Hne].
      * specialize (K (done ++ [name]) _ (lookup_insert_eq _ _ _)). congruence.
      * apply (N q n); [|exact Hq']. now rewrite lookup_insert_ne.
Qed.

(** A new file has the bits [0644] exactly when, among the read and write
    bits, the umask clears the write bits of group and others and nothing
    else. *)
Lemma create_mode_0644 (umask : Z) : Z.ldiff 438 umask = 420 <-> Z.land umask 438 = 18.
Proof.
  assert (Hbits : forall i, 0 <= i ->
            (Z.testbit 438 i && negb (Z.testbit umask i) = Z.testbit 420 i)
            <-> (Z.testbit umask i && Z.testbit 438 i = Z.testbit 18 i)).
  { intros i Hi. destruct (Z_lt_le_dec i 9) as [Hlt|Hge].
    - assert (i = 0 \/ i = 1 \/ i = 2 \/ i = 3 \/ i = 4 \/ i = 5 \/ i = 6 \/ i = 7 \/ i = 8)
        as Hcase by lia.
      destruct (Z.testbit umask i);
        repeat (destruct Hcase as [->|Hcase]; [vm_compute; intuition congruence|]);
        subst i; vm_compute; intuition congruence.
    - rewrite !(Z.bits_above_log2 438), !(Z.bits_above_log2 420), !(Z.bits_above_log2 18)
        by (try (vm_compute; discriminate); change (Z.log2 438) with 8;
            change (Z.log2 420) with 8; change (Z.log2 18) with 4; lia).
      now rewrite andb_false_r. }
  split; intros H; apply Z.bits_inj'; intros i Hi.
  - rewrite Z.land_spec. apply Hbits; [exact Hi|]. rewrite <- Z.ldiff_spec. now rewrite H.
  - rewrite Z.ldiff_spec. apply Hbits; [exact Hi|]. rewrite <- Z.land_spec. now rewrite H.
Qed.

Lemma os_Lstat_lookup (fs : fsys) (p : path) :
  p <> [] -> os_Lstat fs p = bool_decide (is_Some (fs !! p)).
Proof. now destruct p. Qed.

(** C7 (as amended).  The blob of the entry opens and decompresses to
    [payload], and [os.MkdirAll] of the parent of [dest] succeeds: the parent
    is then a directory, what was in the destination is kept, and the
    directories made have the bits [0755 &^ umask].  Restoring a file entry
    then writes [payload] to [dest]: a file that is already there keeps its
    permission bits, a new file gets [0666 &^ umask], which is [0644]
    exactly when the umask clears, among the read and write bits, the write
    bits of group and others only; a directory at [dest] is an error.
    Restoring a link entry with a target that is not empty removes a file, a
    link or an empty directory at [dest] and makes the symbolic link to
    [payload]; a directory at [dest] that is not empty is an error. *)
Theorem Restore_file_and_link (s : Store) (umask : Z) (fs fs1 : fsys) (h : string)
    (dest : path) (bytes payload : string) :
  dest <> [] ->
  open_blob s h = Opened bytes ->
  gunzip bytes = GzOk payload ->
  MkdirAll umask fs (Dir dest) 493 = (fs1, FsOk) ->
  is_dir_at fs1 (Dir dest) = true
  /\ (forall q n, fs !! q = Some n -> fs1 !! q = Some n)
  /\ (forall q n, fs !! q = None -> fs1 !! q = Some n -> n = FDir (Z.ldiff 493 umask))
  /\ BackupFile_Restore s umask fs h dest
     = match fs1 !! dest with
       | None => (<[dest := FFile (Z.ldiff 438 umask) payload]> fs1, RestoreOk)
       | Some (FFile mode _) => (<[dest := FFile mode payload]> fs1, RestoreOk)
       | Some (FDir _) => (fs1, RestoreErr ErrCreateDest)
       | Some (FLink _) => (fs1, RestoreOutside)
       end
  /\ (Z.ldiff 438 umask = 420 <-> Z.land umask 438 = 18)
  /\ (payload <> EmptyString ->
      BackupLink_Restore s umask fs h dest
      = match fs1 !! dest with
        | Some (FDir _) =>
            if has_children fs1 dest then (fs1, RestoreErr ErrRemoveExisting)
            else (<[dest := FLink payload]> fs1, RestoreOk)
        | _ => (<[dest := FLink payload]> fs1, RestoreOk)
        end).
Proof.
  intros Hdest Hopen Hgz Hmk.
  destruct (mkdir_from_ok umask 493 (Dir dest) [] fs fs1 eq_refl Hmk) as (D & K & N).
  simpl in D.
  split; [exact D|]. split; [exact K|]. split; [exact N|].
  split; [|split; [apply create_mode_0644|]].
  - unfold BackupFile_Restore. rewrite Hopen, Hgz, Hmk. unfold os_Create, write_at.
    destruct dest as [|c dest']; [contradiction|].
    destruct (fs1 !! (c :: dest')) as [[mode c0|t|mode]|] eqn:Hd; try reflexivity.
    + now rewrite lookup_insert_eq, insert_insert_eq.
    + rewrite D. now rewrite lookup_insert_eq, insert_insert_eq.
  - intros Hne. unfold BackupLink_Restore. rewrite Hopen, Hgz, Hmk.
    rewrite os_Lstat_lookup by assumption.
    assert (Hlink : forall fs2, fs2 !! dest = None -> is_dir_at fs2 (Dir dest) = true ->
              os_Symlink fs2 payload dest = (<[dest := FLink payload]> fs2, FsOk)).
    { intros fs2 Hnone Hdir. unfold os_Symlink.
      apply String.eqb_neq in Hne. rewrite Hne.
      rewrite os_Lstat_lookup by assumption.
      rewrite bool_decide_eq_false_2 by (rewrite Hnone; now intros [? ?]).
      now rewrite Hdir. }
    assert (Hdel : is_dir_at (delete dest fs1) (Dir dest) = true).
    { unfold is_dir_at in D |- *. destruct (Dir dest) as [|c p'] eqn:Hp; [reflexivity|].
      rewrite lookup_delete_ne; [exact D|].
      intros E. unfold Dir in Hp. subst dest.
      apply (f_equal length) in Hp.
      rewrite removelast_firstn_len, length_firstn in Hp.
      cbn [length Nat.pred] in Hp. lia. }
    destruct (fs1 !! dest) as [[mode c0|t|mode]|] eqn:Hd.
    + rewrite bool_decide_eq_true_2 by eauto. unfold os_Remove.
      destruct dest as [|c dest']; [contradiction|]. rewrite Hd.
      rewrite Hlink by (try apply lookup_delete_eq; exact Hdel).
      now rewrite insert_delete_eq.
    + rewrite bool_decide_eq_true_2 by eauto. unfold os_Remove.
      destruct dest as [|c dest']; [contradiction|]. rewrite Hd.
      rewrite Hlink by (try apply lookup_delete_eq; exact Hdel).
      now rewrite insert_delete_eq.
    + rewrite bool_decide_eq_true_2 by eauto. unfold os_Remove.
      destruct dest as [|c dest']; [contradiction|]. rewrite Hd.
      destruct (has_children fs1 (c :: dest')); [reflexivity|].
      rewrite Hlink by (try apply lookup_delete_eq; exact Hdel).
      now rewrite insert_delete_eq.
    + rewrite bool_decide_eq_false_2 by (now intros [? ?]).
      now rewrite Hlink.
Qed.

(* --------------------------------------------------------------------- *)
(** *** Further properties of the store layout and of the traversals      *)
(* --------------------------------------------------------------------- *)

(** X1.  The path of a digest decides the digest: two digests with the
    same blob path are equal, and the name that [GetAllBlobs] reads off the
    blob file of a digest, by cutting the suffix [.gz], is that digest
    again, so that every blob that [os.Stat] finds at the path of its digest
    is enumerated. *)
Theorem DataStore_round_trip (s : Store) (h h' shard file : string) (f : blob_file) :
  DataStore h = Some (shard, file) ->
  stat_blob s h = Some f ->
  (DataStore h' = Some (shard, file) -> h' = h)
  /\ shard = slice h 0 2
  /\ HasSuffix file ".gz" = true
  /\ TrimSuffix file ".gz" = h
  /\ h ∈ GetAllBlobs s.
Proof.
  intros Hd Hs. split; [intros Hd'; eapply DataStore_inj; eassumption|].
  pose proof (DataStore_file _ _ _ Hd) as ->.
  split.
  - unfold DataStore in Hd. destruct (len h <? 2)%nat; [discriminate|].
    now injection Hd as <-.
  - split; [apply HasSuffix_app|]. split; [apply TrimSuffix_app|].
    eapply stat_blob_GetAllBlobs; exact Hs.
Qed.

(** X2.  The traversals return on every store, also on one whose listings
    refer to each other in a cycle: the number of blob files bounds the
    depth of the recursion of [traverseReachable] and of
    [traverseDirectory], so [GetReachableBlobs], [FindUnreferenced], [Prune]
    and [Verify] all return. *)
Theorem traversals_return (s : Store) (ProjectName : string)
    (hashCacheErr deep dryRun : bool) :
  GetReachableBlobs s <> TrOutOfFuel
  /\ FindUnreferenced s <> FindOutOfFuel
  /\ is_Some (Prune dryRun s)
  /\ is_Some (Verify s ProjectName hashCacheErr deep).
Proof.
  pose proof (GetReachableBlobs_total s) as Ht.
  split; [exact Ht|].
  assert (Hf : FindUnreferenced s <> FindOutOfFuel).
  { unfold FindUnreferenced. now destruct (GetReachableBlobs s). }
  split; [exact Hf|]. split.
  - unfold Prune. destruct (FindUnreferenced s); [contradiction | eauto | eauto].
  - apply Verify_total.
Qed.

Lemma gz_not_partial_name (x : string) :
  HasSuffix x ".gz" = true -> HasSuffix x ".partial" = true -> False.
Proof.
  intros Hg Hp. apply HasSuffix_split in Hg. apply HasSuffix_split in Hp.
  revert Hg Hp. generalize (TrimSuffix x ".gz") (TrimSuffix x ".partial").
  intros a b Hg Hp. rewrite <- Hg in Hp. clear Hg.
  apply (f_equal (fun s => HasSuffix s "ial")) in Hp.
  change ".partial" with (".part" +:+ "ial") in Hp.
  rewrite <- (string_app_assoc b ".part" "ial"), HasSuffix_app in Hp.
  unfold HasSuffix in Hp. rewrite length_app in Hp. simpl String.length in Hp.
  replace (String.length a + 3 - 3)%nat with (String.length a) in Hp by lia.
  rewrite slice_from_app in Hp. simpl in Hp. now rewrite andb_false_r in Hp.
Qed.

(** What [Save] may do to the files of the store: leave a file as it is,
    put a blob file where there was none, or take a partial file away. *)
Definition only_adds (s s' : Store) : Prop :=
  StoreSnapshots s' = StoreSnapshots s
  /\ forall shard name,
       lookup_file s' (Some (shard, name)) = lookup_file s (Some (shard, name))
       \/ (HasSuffix name ".gz" = true
           /\ lookup_file s (Some (shard, name)) = None
           /\ is_Some (lookup_file s' (Some (shard, name))))
       \/ (HasSuffix name ".partial" = true
           /\ lookup_file s' (Some (shard, name)) = None).

Lemma only_adds_refl (s : Store) : only_adds s s.
Proof. split; [reflexivity | now left]. Qed.

Lemma only_adds_trans (s1 s2 s3 : Store) :
  only_adds s1 s2 -> only_adds s2 s3 -> only_adds s1 s3.
Proof.
  intros [S12 H12] [S23 H23]. split; [now rewrite S23|].
  intros shard name.
  destruct (H12 shard name) as [E12|[(G12 & N12 & I12)|(P12 & N12)]];
    destruct (H23 shard name) as [E23|[(G23 & N23 & I23)|(P23 & N23)]].
  - left. now rewrite E23.
  - right. left. now rewrite <- E12.
  - right. now right.
  - right. left. now rewrite E23.
  - rewrite N23 in I12. now destruct I12.
  - destruct (gz_not_partial_name name G12 P23).
  - right. right. now rewrite E23.
  - destruct (gz_not_partial_name name G23 P12).
  - right. now right.
Qed.

Lemma only_adds_lookup (s s' : Store) :
  StoreSnapshots s' = StoreSnapshots s ->
  (forall p, lookup_file s' p = lookup_file s p) -> only_adds s s'.
Proof. intros HS H. split; [exact HS|]. intros shard name. left. apply H. Qed.

Lemma place_blob_only_adds (s : Store) (h shard file payload : string) :
  DataStore h = Some (shard, file) ->
  stat_blob s h = None ->
  only_adds s (place_blob s shard file payload).
Proof.
  intros Hd Hs. split; [apply StoreSnapshots_place_blob|].
  intros sh name. rewrite lookup_file_place_blob.
  destruct (decide (shard = sh)) as [<-|]; [|now left].
  apply DataStore_file in Hd as Hfile.
  destruct (decide (name = file)) as [->|].
  { right. left. split; [subst file; apply HasSuffix_app|].
    split; [|eauto]. unfold stat_blob in Hs. now rewrite Hd in Hs. }
  destruct (decide (name = file +:+ ".partial")) as [->|]; [|now left].
  right. right. split; [apply HasSuffix_app | reflexivity].
Qed.

Ltac leaf_adds Hd Hs Hm :=
  apply MkdirAll_shard_lookup in Hm as [Hsn Hm];
  eapply only_adds_trans; [apply only_adds_lookup; [exact Hsn | exact Hm]|];
  eapply place_blob_only_adds; [exact Hd|];
  unfold stat_blob in Hs |- *; now rewrite Hm.

Lemma FileEntry_Save_only_adds (DryRun : bool) (p : path) (h : string) (readable : bool)
    (bytes : string) (st : backup_state) :
  only_adds (store st) (store (fst (FileEntry_Save DryRun p h readable bytes st))).
Proof.
  unfold FileEntry_Save.
  destruct (DataStore h) as [[shard file]|] eqn:Hd; simpl; [|apply only_adds_refl].
  destruct (stat_blob (store st) h) as [f|] eqn:Hs; simpl; [apply only_adds_refl|].
  destruct DryRun; simpl; [apply only_adds_refl|].
  destruct (MkdirAll_shard (store st) shard) as [s1|] eqn:Hm; simpl;
    [|apply only_adds_refl].
  destruct readable; simpl; [leaf_adds Hd Hs Hm|].
  apply MkdirAll_shard_lookup in Hm as [Hsn Hm]. now apply only_adds_lookup.
Qed.

Lemma LinkEntry_Save_only_adds (DryRun : bool) (h target : string) (st : backup_state) :
  only_adds (store st) (store (fst (LinkEntry_Save DryRun h target st))).
Proof.
  unfold LinkEntry_Save.
  destruct (DataStore h) as [[shard file]|] eqn:Hd; simpl; [|apply only_adds_refl].
  destruct (stat_blob (store st) h) as [f|] eqn:Hs; simpl; [apply only_adds_refl|].
  destruct DryRun; simpl; [apply only_adds_refl|].
  destruct (MkdirAll_shard (store st) shard) as [s1|] eqn:Hm; simpl;
    [|apply only_adds_refl].
  leaf_adds Hd Hs Hm.
Qed.

Lemma save_listing_only_adds (DryRun : bool) (h text : string) (st : backup_state) :
  only_adds (store st) (store (fst (save_listing DryRun h text st))).
Proof.
  unfold save_listing.
  destruct (DataStore h) as [[shard file]|] eqn:Hd; simpl; [|apply only_adds_refl].
  destruct (stat_blob (store st) h) as [f|] eqn:Hs; simpl; [apply only_adds_refl|].
  destruct DryRun; simpl; [apply only_adds_refl|].
  destruct (MkdirAll_shard (store st) shard) as [s1|] eqn:Hm; simpl;
    [|apply only_adds_refl].
  leaf_adds Hd Hs Hm.
Qed.

Lemma Save_only_adds (DryRun : bool) (e : Entry) :
  forall st, only_adds (store st) (store (fst (Save DryRun e st))).
Proof.
  induction e as [p n h r b | p n t h | p n m ig | p n m es ig IH] using Entry_ind';
    intros st.
  - apply FileEntry_Save_only_adds.
  - apply LinkEntry_Save_only_adds.
  - apply only_adds_refl.
  - rewrite Save_DirectoryEntry.
    assert (Hc : forall st0, only_adds (store st0) (store (fst (save_children DryRun es st0)))).
    { induction es as [|e es IHes]; intros st0; [apply only_adds_refl|].
      apply Forall_cons in IH as [IHe IH]. cbn [save_children].
      specialize (IHe st0).
      destruct (Save DryRun e st0) as [st1 [err|]]; [exact IHe|].
      eapply only_adds_trans; [exact IHe | now apply IHes]. }
    specialize (Hc (incDirsTotal st)).
    destruct (save_children DryRun es (incDirsTotal st)) as [st1 [err|]];
      cbn [fst] in *; [exact Hc|].
    destruct (listing_text es) as [text|]; [|exact Hc].
    eapply only_adds_trans; [exact Hc | apply save_listing_only_adds].
Qed.


(** X4.  A deep check that returns no error vouches for every blob it
    reached: each digest that is a root or is listed in a traversed
    directory has a blob file that opens and decompresses to bytes whose
    hash is the digest, unless its shard path is not a directory, which
    [verifyBlob] reports to a caller that drops the error for listed
    children; and no blob of the store is unreferenced. *)
Theorem deep_check_vouches (s : Store) (ProjectName : string) (hashCacheErr : bool)
    (roots : list BackupRoot) (h : string) :
  BackupRoots s ProjectName = Some roots ->
  Verify s ProjectName hashCacheErr true = Some [] ->
  verified_from s (root_hashes s roots) h ->
  FindUnreferenced s = Found []
  /\ hashCacheErr = false
  /\ (under_stray s h = true
      \/ exists f payload,
           stat_blob s h = Some f
           /\ bbytes f <> EmptyString
           /\ open_blob s h = Opened (bbytes f)
           /\ gunzip (bbytes f) = GzOk payload
           /\ md5hex payload = h).
Proof.
  intros Hroots Hv Hfrom.
  destruct (Verify_errs s ProjectName hashCacheErr true roots Hroots)
    as (st & l & Hvr & E & Hl & I & C).
  rewrite Hv in E. injection E as <-.
  assert (Hnil : errs st = []).
  { destruct (errs st) as [|e l] eqn:He; [reflexivity|].
    exfalso. apply (elem_of_nil e). apply Hl. rewrite ?He. apply list_elem_of_here. }
  split; [|split].
  - unfold Verify in Hv. rewrite Hroots, Hvr, Hnil in Hv.
    destruct (FindUnreferenced s) as [|e|[|u us]]; simpl in Hv; try discriminate.
    reflexivity.
  - unfold Verify in Hv. rewrite Hroots, Hvr, Hnil in Hv.
    destruct hashCacheErr; [|reflexivity].
    destruct (FindUnreferenced s) as [|e|[|u us]]; simpl in Hv; discriminate.
  - destruct (verified_from_final s true _ st h I C Hfrom) as [Hin|Herr].
    2:{ left. unfold os_Stat in Herr. destruct (stat_blob s h); [discriminate|].
        now destruct (under_stray s h). }
    destruct I as (Ib & _). specialize (Ib h).
    unfold blob_fault, os_Stat in Ib.
    destruct (stat_blob s h) as [f|] eqn:Hs.
    + right. destruct (len (bbytes f) =? 0)%nat eqn:Hlen.
      { specialize (Ib _ Hin eq_refl). rewrite Hnil in Ib. now apply elem_of_nil in Ib. }
      unfold verifyBlobHash, open_blob in Ib. rewrite Hs in Ib.
      unfold open_blob. rewrite Hs.
      destruct (breadable f).
      2:{ specialize (Ib _ Hin eq_refl). rewrite Hnil in Ib.
          now apply elem_of_nil in Ib. }
      destruct (gunzip (bbytes f)) as [|prefix|payload] eqn:Hg;
        try (specialize (Ib _ Hin eq_refl); rewrite Hnil in Ib;
             now apply elem_of_nil in Ib).
      destruct (String.eqb (md5hex payload) h) eqn:Heq.
      2:{ specialize (Ib _ Hin eq_refl). rewrite Hnil in Ib.
          now apply elem_of_nil in Ib. }
      exists f, payload. split; [reflexivity|].
      split; [intros Hb; rewrite Hb in Hlen; discriminate|].
      split; [reflexivity|]. split; [exact Hg|]. now apply String.eqb_eq.
    + destruct (under_stray s h); [now left|].
      specialize (Ib _ Hin eq_refl). rewrite Hnil in Ib. now apply elem_of_nil in Ib.
Qed.


Lemma listing_text_items (es : list Entry) :
  listing_text es
  = if bool_decide (Forall (fun e => is_Some (Hash e)) es)
    then Some (print_items (item_of <$> es)) else None.
Proof.
  destruct (listing_text es) as [text|] eqn:E.
  - apply listing_text_print_items in E as [-> Hall].
    now rewrite bool_decide_eq_true_2.
  - rewrite bool_decide_eq_false_2; [reflexivity|]. intros Hall.
    induction es as [|e es IH]; [discriminate|].
    apply Forall_cons in Hall as [[h Hh] Hall]. cbn [listing_text] in E.
    rewrite Hh in E. destruct (listing_text es); [discriminate | now apply IH].
Qed.

(** X6.  The listing of a directory does not depend on the order in which
    its children were found: [entrySorter.Less] is a strict total order on
    the triples of type, digest and name, so two lists with the same
    entries are sorted to the same lines and give the same listing and the
    same directory digest. *)
Theorem listing_order_independent (es1 es2 : list Entry) (p : path) (n : string)
    (m : IgnoreMatcher) (ig : list IgnoredEntry) :
  es1 ≡ₚ es2 ->
  item_of <$> sort_entries es1 = item_of <$> sort_entries es2
  /\ listing_text (sort_entries es1) = listing_text (sort_entries es2)
  /\ Hash (DirectoryEntry p n m (Some (sort_entries es1)) ig)
     = Hash (DirectoryEntry p n m (Some (sort_entries es2)) ig)
  /\ (forall a b, Less a b = true -> Less b a = false)
  /\ (forall a b, Less a b = false -> Less b a = false -> item_of a = item_of b).
Proof.
  intros Hp.
  assert (Hitems : item_of <$> sort_entries es1 = item_of <$> sort_entries es2).
  { apply (Sorted_unique item_le); [apply sort_entries_Sorted | apply sort_entries_Sorted |].
    apply fmap_Permutation. now rewrite !sort_entries_Permutation. }
  assert (Htext : listing_text (sort_entries es1) = listing_text (sort_entries es2)).
  { rewrite !listing_text_items, Hitems.
    assert (sort_entries es1 ≡ₚ sort_entries es2) as Hs
      by now rewrite !sort_entries_Permutation.
    destruct (bool_decide (Forall (fun e => is_Some (Hash e)) (sort_entries es1))) eqn:E1.
    - apply bool_decide_eq_true in E1. rewrite Hs in E1.
      now rewrite bool_decide_eq_true_2.
    - apply bool_decide_eq_false in E1. rewrite Hs in E1.
      now rewrite bool_decide_eq_false_2. }
  split; [exact Hitems|]. split; [exact Htext|].
  split; [now rewrite !Hash_DirectoryEntry, Htext|]. split.
  - intros a b. rewrite !Less_item_less. apply item_less_asym.
  - intros a b. rewrite !Less_item_less. intros H1 H2.
    now apply (anti_symm item_le).
Qed.

(* --------------------------------------------------------------------- *)
(** *** The reachable set is the closure of the roots                     *)
(* --------------------------------------------------------------------- *)

Definition reach_ext (st st' : reach_state) : Prop :=
  reachable st ⊆ reachable st' /\ visitedDirs st ⊆ visitedDirs st'.

(** Every mark is justified. *)
Definition reach_sound (s : Store) (roots : list string) (st : reach_state) : Prop :=
  (forall h, h ∈ reachable st -> reach s roots h)
  /\ (forall d, d ∈ visitedDirs st -> dir_reach s roots d).

(** The loop over the listing of [d] is over. *)
Definition reach_closed_at (s : Store) (st : reach_state) (d : string) : Prop :=
  forall line,
    line ∈ reach_children s d ->
    slice line 2 34 ∈ reachable st
    /\ (byte_at line 0 = Some "D"%char -> slice line 2 34 ∈ visitedDirs st).

(** The invariant of the traversal; [P] holds the directories whose loop
    is running. *)
Definition reach_inv (s : Store) (roots : list string) (P : gset string)
    (st : reach_state) : Prop :=
  reach_sound s roots st
  /\ forall d, d ∈ visitedDirs st -> d ∉ P -> reach_closed_at s st d.

Lemma reach_ext_refl (st : reach_state) : reach_ext st st.
Proof. now split. Qed.

Lemma reach_ext_trans (st1 st2 st3 : reach_state) :
  reach_ext st1 st2 -> reach_ext st2 st3 -> reach_ext st1 st3.
Proof. intros [H1 H2] [H3 H4]. split; set_solver. Qed.

Lemma reach_closed_at_ext (s : Store) (st st' : reach_state) (d : string) :
  reach_ext st st' -> reach_closed_at s st d -> reach_closed_at s st' d.
Proof.
  intros [Hr Hv] H line Hl. destruct (H line Hl) as [H1 H2]. split; set_solver.
Qed.

Lemma traverse_lines_reach (rec : string -> reach_state -> traverse_result)
    (s : Store) (roots : list string) (P : gset string) (d : string)
    (scan_err : bool) (lines : list string) :
  (forall h st st',
     rec h st = TrOk st' -> reach_inv s roots P st -> dir_reach s roots h ->
     reach_ext st st' /\ reach_inv s roots P st' /\ h ∈ visitedDirs st') ->
  dir_reach s roots d ->
  (forall line, line ∈ lines -> (36 <= len line)%nat -> line ∈ reach_children s d) ->
  forall st st',
    traverse_lines rec d scan_err lines st = TrOk st' ->
    reach_inv s roots P st ->
    reach_ext st st' /\ reach_inv s roots P st' /\ scan_err = false
    /\ forall line,
         line ∈ lines -> (36 <= len line)%nat ->
         slice line 2 34 ∈ reachable st'
         /\ (byte_at line 0 = Some "D"%char -> slice line 2 34 ∈ visitedDirs st').
Proof.
  intros Hrec Hd. induction lines as [|line rest IH]; intros Hlines st st' H Hinv.
  { cbn [traverse_lines] in H. destruct scan_err; [discriminate|]. injection H as <-.
    split; [apply reach_ext_refl|]. split; [assumption|]. split; [reflexivity|].
    intros line Hl. now apply elem_of_nil in Hl. }
  cbn [traverse_lines] in H. unfold traverse_line in H.
  assert (Hrest : forall l, l ∈ rest -> (36 <= len l)%nat -> l ∈ reach_children s d)
    by (intros l Hl; apply Hlines; now right).
  destruct (len line <? 36)%nat eqn:Hlen.
  { destruct (IH Hrest st st' H Hinv) as (X & I & E & C).
    split; [exact X|]. split; [exact I|]. split; [exact E|].
    intros l Hl Hge. apply elem_of_cons in Hl as [->|Hl]; [|now apply C].
    apply Nat.ltb_lt in Hlen. lia. }
  apply Nat.ltb_ge in Hlen.
  assert (Hin : line ∈ reach_children s d) by (apply Hlines; [left | exact Hlen]).
  set (c := slice line 2 34) in *.
  set (st1 := mark_reachable_hash c st) in *.
  assert (X1 : reach_ext st st1) by (split; simpl; set_solver).
  assert (I1 : reach_inv s roots P st1).
  { destruct Hinv as [[Hr Hv] Hc]. split; [split|].
    - intros h Hh. simpl in Hh. apply elem_of_union in Hh as [Hh|Hh]; [|now apply Hr].
      apply elem_of_singleton in Hh. subst h. eapply reach_child; eassumption.
    - exact Hv.
    - intros d' Hd' HP. eapply reach_closed_at_ext; [exact X1|]. now apply Hc. }
  assert (Hc1 : c ∈ reachable st1) by (simpl; set_solver).
  destruct (bool_decide (byte_at line 0 = Some "D"%char)) eqn:HD; cbn [andb] in H.
  2:{ destruct (IH Hrest st1 st' H I1) as (X & I & E & C).
      split; [eapply reach_ext_trans; eassumption|]. split; [exact I|].
      split; [exact E|].
      intros l Hl Hge. apply elem_of_cons in Hl as [->|Hl]; [|now apply C].
      split; [destruct X; set_solver|].
      intros HD'. apply bool_decide_eq_false in HD. contradiction. }
  apply bool_decide_eq_true in HD.
  destruct (bool_decide (c ∈ visitedDirs st1)) eqn:Hv; cbn [negb] in H.
  { apply bool_decide_eq_true in Hv.
    destruct (IH Hrest st1 st' H I1) as (X & I & E & C).
    split; [eapply reach_ext_trans; eassumption|]. split; [exact I|].
    split; [exact E|].
    intros l Hl Hge. apply elem_of_cons in Hl as [->|Hl]; [|now apply C].
    destruct X. split; [set_solver | intros _; set_solver]. }
  destruct (rec c st1) as [|e|st2] eqn:Hr; try discriminate.
  assert (Hdc : dir_reach s roots c) by (eapply dir_reach_child; eassumption).
  destruct (Hrec c st1 st2 Hr I1 Hdc) as (X2 & I2 & V2).
  destruct (IH Hrest st2 st' H I2) as (X & I & E & C).
  split; [eapply reach_ext_trans; [exact X1|]; eapply reach_ext_trans; eassumption|].
  split; [exact I|]. split; [exact E|].
  intros l Hl Hge. apply elem_of_cons in Hl as [->|Hl]; [|now apply C].
  destruct X, X2. split; [set_solver | intros _; set_solver].
Qed.

Lemma traverseReachable_reach (s : Store) (roots : list string) (fuel : nat) :
  forall (P : gset string) (h : string) (st st' : reach_state),
    traverseReachable s fuel h st = TrOk st' ->
    reach_inv s roots P st -> dir_reach s roots h ->
    reach_ext st st' /\ reach_inv s roots P st' /\ h ∈ visitedDirs st'.
Proof.
  induction fuel as [|fuel IH]; intros P h st st' H Hinv Hd; [discriminate|].
  cbn [traverseReachable] in H.
  set (st1 := mark_visited h st) in *.
  assert (X1 : reach_ext st st1) by (split; simpl; set_solver).
  destruct Hinv as [[Hr Hv] Hc].
  assert (I1 : reach_inv s roots (P ∪ {[h]}) st1).
  { split; [split|].
    - exact Hr.
    - intros d Hd'. simpl in Hd'. apply elem_of_union in Hd' as [Hd'|Hd']; [|now apply Hv].
      apply elem_of_singleton in Hd'. now subst d.
    - intros d Hd' HP. simpl in Hd'. eapply reach_closed_at_ext; [exact X1|].
      apply Hc; set_solver. }
  assert (Hclose : forall st2, reach_inv s roots (P ∪ {[h]}) st2 ->
                               reach_closed_at s st2 h -> reach_inv s roots P st2).
  { intros st2 [Hs2 Hc2] Hch. split; [exact Hs2|].
    intros d Hd' HP. destruct (decide (d = h)) as [->|Hne]; [exact Hch|].
    apply Hc2; set_solver. }
  destruct (open_blob s h) as [| |bytes] eqn:Ho; [|discriminate|].
  - injection H as <-. split; [exact X1|]. split; [|simpl; set_solver].
    apply Hclose; [exact I1|]. intros line Hl. unfold reach_children in Hl.
    rewrite Ho in Hl. now apply elem_of_nil in Hl.
  - destruct (scan_stream (gunzip bytes)) as [[lines scan_err]|] eqn:Hg; [|discriminate].
    destruct (traverse_lines_reach (traverseReachable s fuel) s roots (P ∪ {[h]}) h
                scan_err lines) with (st := st1) (st' := st') as (X & I & E & C).
    + intros h' st2 st2' H2 I2 D2. now apply IH.
    + exact Hd.
    + intros line Hl Hge. unfold reach_children. rewrite Ho, Hg.
      apply list_elem_of_filter. now split.
    + exact H.
    + exact I1.
    + split; [eapply reach_ext_trans; eassumption|].
      split; [|destruct X; simpl in *; set_solver].
      apply Hclose; [exact I|]. intros line Hl. unfold reach_children in Hl.
      rewrite Ho, Hg in Hl. apply list_elem_of_filter in Hl as [Hge Hl]. now apply C.
Qed.

Lemma mark_roots_reach (s : Store) (roots : list string) (fuel : nat)
    (rs : list BackupRoot) :
  (forall r, r ∈ rs -> hash r ∈ roots) ->
  forall st st',
    mark_roots s fuel rs st = TrOk st' ->
    reach_inv s roots ∅ st ->
    reach_ext st st' /\ reach_inv s roots ∅ st'
    /\ forall r, r ∈ rs -> hash r ∈ reachable st' /\ hash r ∈ visitedDirs st'.
Proof.
  induction rs as [|root rest IH]; intros Hroots st st' H Hinv.
  { injection H as <-. split; [apply reach_ext_refl|]. split; [assumption|].
    intros r Hr. now apply elem_of_nil in Hr. }
  cbn [mark_roots] in H. unfold markReachable in H.
  set (st1 := mark_reachable_hash (hash root) st) in *.
  assert (Hin : hash root ∈ roots) by (apply Hroots; left).
  assert (X1 : reach_ext st st1) by (split; simpl; set_solver).
  assert (I1 : reach_inv s roots ∅ st1).
  { destruct Hinv as [[Hr Hv] Hc]. split; [split|].
    - intros h Hh. simpl in Hh. apply elem_of_union in Hh as [Hh|Hh]; [|now apply Hr].
      apply elem_of_singleton in Hh. subst h. now apply reach_root.
    - exact Hv.
    - intros d Hd HP. eapply reach_closed_at_ext; [exact X1|]. now apply Hc. }
  assert (Hrest : forall r, r ∈ rest -> hash r ∈ roots) by (intros r Hr; apply Hroots; now right).
  assert (Hstep : exists st2, mark_roots s fuel rest st2 = TrOk st'
                              /\ reach_ext st1 st2 /\ reach_inv s roots ∅ st2
                              /\ hash root ∈ visitedDirs st2).
  { destruct (bool_decide (hash root ∈ visitedDirs st1)) eqn:Hv.
    - apply bool_decide_eq_true in Hv. exists st1.
      split; [exact H|]. split; [apply reach_ext_refl|]. now split.
    - destruct (traverseReachable s fuel (hash root) st1) as [|e|st2] eqn:Ht;
        try discriminate.
      destruct (traverseReachable_reach s roots fuel ∅ (hash root) st1 st2 Ht I1
                  (dir_reach_root s roots _ Hin)) as (X2 & I2 & V2).
      exists st2. split; [exact H|]. split; [exact X2|]. now split. }
  destruct Hstep as (st2 & H2 & X2 & I2 & V2).
  destruct (IH Hrest st2 st' H2 I2) as (X & I & C).
  split; [eapply reach_ext_trans; [exact X1|]; eapply reach_ext_trans; eassumption|].
  split; [exact I|].
  intros r Hr. apply elem_of_cons in Hr as [->|Hr]; [|now apply C].
  destruct X, X2. split; [simpl in *; set_solver | set_solver].
Qed.

Lemma reach_inv_empty (s : Store) (roots : list string) : reach_inv s roots ∅ empty_reach.
Proof.
  split; [split|]; intros x Hx; simpl in Hx; set_solver.
Qed.

Lemma GetReachableBlobs_marks (s : Store) (st : reach_state) :
  GetReachableBlobs s = TrOk st ->
  (forall d, dir_reach s (hash <$> AllBackupRoots s) d -> d ∈ visitedDirs st)
  /\ (forall h, reach s (hash <$> AllBackupRoots s) h -> h ∈ reachable st).
Proof.
  intros H. unfold GetReachableBlobs in H.
  destruct (mark_roots_reach s (hash <$> AllBackupRoots s) (store_fuel s)
              (AllBackupRoots s)) with (st := empty_reach) (st' := st)
    as (_ & [_ Hc] & C).
  - intros r Hr. apply list_elem_of_fmap. now exists r.
  - exact H.
  - apply reach_inv_empty.
  - assert (Hdir : forall d, dir_reach s (hash <$> AllBackupRoots s) d -> d ∈ visitedDirs st).
    { intros d Hd. induction Hd as [d Hd | d line Hd IH Hl HD].
      - apply list_elem_of_fmap in Hd as (r & -> & Hin). now apply C.
      - destruct (Hc d IH (not_elem_of_empty d) line Hl) as [_ Ht]. now apply Ht. }
    split; [exact Hdir|].
    intros h [h' Hh | d line Hd Hl].
    + apply list_elem_of_fmap in Hh as (r & -> & Hin). now apply C.
    + now destruct (Hc d (Hdir d Hd) (not_elem_of_empty d) line Hl) as [Hin _].
Qed.

(** X8.  When [GetReachableBlobs] returns without error, the set it
    returns is the closure of the roots: a digest is marked exactly when it
    is the digest of a head that [AllBackupRoots] lists, or stands in a line
    of 36 bytes or more of a listing that the traversal read; and a listing
    is read exactly when it is a root or a child of type [D] of a listing
    that was read. *)
Theorem reachable_is_closure (s : Store) (st : reach_state) (h : string) :
  GetReachableBlobs s = TrOk st ->
  (h ∈ reachable st <-> reach s (hash <$> AllBackupRoots s) h)
  /\ (h ∈ visitedDirs st <-> dir_reach s (hash <$> AllBackupRoots s) h).
Proof.
  intros H. destruct (GetReachableBlobs_marks s st H) as [Hdir Hreach].
  unfold GetReachableBlobs in H.
  destruct (mark_roots_reach s (hash <$> AllBackupRoots s) (store_fuel s)
              (AllBackupRoots s)) with (st := empty_reach) (st' := st)
    as (_ & [[Hr Hv] _] & _).
  - intros r Hin. apply list_elem_of_fmap. now exists r.
  - exact H.
  - apply reach_inv_empty.
  - split; split; [apply Hr | apply Hreach | apply Hv | apply Hdir].
Qed.

(* --------------------------------------------------------------------- *)
(** *** Pruning keeps what the snapshots refer to                         *)
(* --------------------------------------------------------------------- *)










Lemma AllBackupRoots_snapshots (s s' : Store) :
  StoreSnapshots s' = StoreSnapshots s -> AllBackupRoots s' = AllBackupRoots s.
Proof. intros H. unfold AllBackupRoots. now rewrite H. Qed.

Lemma elem_of_GetAllBlobs_lookup (s : Store) (h : string) :
  h ∈ GetAllBlobs s <-> exists shard, is_Some (lookup_file s (Some (shard, h +:+ ".gz"))).
Proof.
  rewrite elem_of_GetAllBlobs. split.
  - intros (shard & files & Hs & Hf). exists shard. simpl. now rewrite Hs.
  - intros (shard & Hf). simpl in Hf.
    destruct (StoreData s !! shard) as [[files|]|] eqn:Hs; try (now destruct Hf).
    now exists shard, files.
Qed.

Lemma remove_file_stray (s : Store) (p : option (string * string)) (shard : string) :
  StoreData (remove_file s p) !! shard = Some DataStray
  <-> StoreData s !! shard = Some DataStray.
Proof.
  destruct p as [[sh file]|]; [|reflexivity]. simpl.
  destruct (StoreData s !! sh) as [[files|]|] eqn:Hs; try reflexivity. simpl.
  destruct (decide (sh = shard)) as [->|Hne].
  - rewrite lookup_insert_eq, Hs. split; discriminate.
  - now rewrite lookup_insert_ne.
Qed.

Lemma prune_loop_stray (dryRun : bool) (l : list string) (shard : string) :
  forall s stats,
    StoreData (fst (fst (prune_loop dryRun l s stats))) !! shard = Some DataStray
    <-> StoreData s !! shard = Some DataStray.
Proof.
  induction l as [|h rest IH]; intros s stats; [reflexivity|].
  cbn [prune_loop]. destruct (stat_blob s h) as [f|]; [|apply IH].
  destruct (negb dryRun && negb (bremovable f)); [reflexivity|].
  rewrite IH. destruct dryRun; [reflexivity | apply remove_file_stray].
Qed.


(** What [Prune] leaves of a store, when the traversal gave [st]. *)
Lemma Prune_after (s s' : Store) (dryRun : bool) (stats : PruneStats)
    (err : option prune_error) (st : reach_state) :
  GetReachableBlobs s = TrOk st ->
  Prune dryRun s = Some (s', stats, err) ->
  StoreSnapshots s' = StoreSnapshots s
  /\ (forall h, h ∈ reachable st -> open_blob s' h = open_blob s h
                                    /\ stat_blob s' h = stat_blob s h)
  /\ GetAllBlobs s' ⊆ GetAllBlobs s
  /\ (err = None -> dryRun = false ->
      forall h, h ∈ GetAllBlobs s' -> h ∉ reachable st -> stat_blob s' h = None).
Proof.
  intros Hst HP. unfold Prune, FindUnreferenced in HP. rewrite Hst in HP.
  set (l := filter (fun h => h ∉ reachable st) (elements (GetAllBlobs s))) in *.
  assert (Hnd : NoDup l) by (apply NoDup_filter, NoDup_elements).
  pose proof (prune_loop_post dryRun l Hnd s zero_stats) as Hpost.
  pose proof (prune_loop_stray dryRun l) as Hstray.
  injection HP as HP. rewrite HP in Hpost. cbn [prune_post] in Hpost.
  destruct Hpost as (HS & Hfr & Hdry & Herr).
  assert (Hkeep : forall h, h ∈ reachable st -> stat_blob s' h = stat_blob s h).
  { intros h Hh. apply (frame_stat_blob l); [exact Hfr|].
    subst l. rewrite list_elem_of_filter. tauto. }
  assert (Hsub : forall p f, lookup_file s' p = Some f -> is_Some (lookup_file s p)).
  { intros p f Hf. destruct dryRun.
    - destruct (Hdry eq_refl) as [-> _]. eauto.
    - destruct (decide (Exists (fun h0 => DataStore h0 = p) l)) as [Hex|Hno].
      + apply Exists_exists in Hex as (h0 & Hin & Hd).
        destruct err as [e|].
        * destruct Herr as (pre & h1 & post & f1 & Hl & _ & _ & _ & _ & Hpre & Hpost).
          rewrite Hl in Hin. apply elem_of_app in Hin as [Hin|Hin].
          -- specialize (Hpre h0 Hin). unfold stat_blob in Hpre. congruence.
          -- specialize (Hpost h0 Hin). unfold stat_blob in Hpost.
             rewrite Hd in Hpost. rewrite <- Hpost. eauto.
        * destruct Herr as [_ Hgone]. specialize (Hgone eq_refl h0 Hin).
          unfold stat_blob in Hgone. congruence.
      + rewrite <- (Hfr p); [eauto|].
        intros h0 Hin Hd. apply Hno. apply Exists_exists. eauto. }
  split; [exact HS|]. split; [|split].
  - intros h Hh. split; [|now apply Hkeep].
    unfold open_blob. rewrite (Hkeep h Hh).
    replace (under_stray s' h) with (under_stray s h); [reflexivity|].
    unfold under_stray. destruct (DataStore h) as [[shard file]|]; [|reflexivity].
    specialize (Hstray shard s zero_stats). rewrite HP in Hstray. cbn [fst] in Hstray.
    destruct (StoreData s !! shard) as [[files|]|] eqn:E1;
      destruct (StoreData s' !! shard) as [[files'|]|] eqn:E2; try reflexivity;
      try (destruct Hstray as [H1 H2]; first [now discriminate (H1 eq_refl)
                                             | now discriminate (H2 eq_refl)]).
  - intros h Hh. apply elem_of_GetAllBlobs_lookup in Hh as [shard [f Hf]].
    apply elem_of_GetAllBlobs_lookup. exists shard. eapply Hsub; exact Hf.
  - intros -> -> h Hh Hnr. destruct Herr as [_ Hgone]. apply (Hgone eq_refl).
    subst l. rewrite list_elem_of_filter, elem_of_elements. split; [exact Hnr|].
    apply elem_of_GetAllBlobs_lookup in Hh as [shard [f Hf]].
    apply elem_of_GetAllBlobs_lookup. exists shard. eapply Hsub; exact Hf.
Qed.



(* --------------------------------------------------------------------- *)
(** *** What the reader returns                                           *)
(* --------------------------------------------------------------------- *)

Lemma length_substring (s : string) :
  forall n m, (n + m <= String.length s)%nat -> String.length (String.substring n m s) = m.
Proof.
  induction s as [|c s IH]; intros n m H; simpl in H.
  - assert (n = 0 /\ m = 0)%nat as [-> ->] by lia. reflexivity.
  - destruct n as [|n]; simpl.
    + destruct m as [|m]; [reflexivity|]. simpl. f_equal. apply IH. simpl. lia.
    + apply IH. lia.
Qed.

Lemma length_slice_from (s : string) :
  forall i, String.length (slice_from s i) = (String.length s - i)%nat.
Proof.
  induction s as [|c s IH]; intros [|i]; simpl; try reflexivity. apply IH.
Qed.

(** Where an entry of the reader comes from. *)
Definition from_line (name : string) (e : BackupEntry) (line : string) : Prop :=
  (36 <= len line)%nat
  /\ name = slice_from line 35
  /\ BackupEntry_Name e = name
  /\ BackupEntry_Hash e = slice line 2 34
  /\ (is_BackupDirectory e = true <-> byte_at line 0 = Some "D"%char).

Lemma entries_line_from (st : entries_state) (line name : string) (e : BackupEntry) :
  entries (entries_line st line) !! name = Some e ->
  from_line name e line \/ entries st !! name = Some e.
Proof.
  unfold entries_line.
  destruct (len line <? 36)%nat eqn:Hlen; [now right|]. cbn [orb].
  apply Nat.ltb_ge in Hlen.
  destruct (negb _ || negb _); [now right|].
  assert (Hadd : forall e0,
            BackupEntry_Name e0 = slice_from line 35 ->
            BackupEntry_Hash e0 = slice line 2 34 ->
            (is_BackupDirectory e0 = true <-> byte_at line 0 = Some "D"%char) ->
            entries (add_entry (slice_from line 35) e0 st) !! name = Some e ->
            from_line name e line \/ entries st !! name = Some e).
  { intros e0 Hn Hh Hd. simpl.
    destruct (decide (slice_from line 35 = name)) as [<-|Hne].
    - rewrite lookup_insert_eq. intros [= <-]. left.
      split; [exact Hlen|]. split; [reflexivity|]. split; [exact Hn|]. split; [exact Hh | exact Hd].
    - rewrite lookup_insert_ne by assumption. now right. }
  destruct (byte_at line 0) as [c|] eqn:Hc; [|now right].
  destruct (Ascii.eqb_spec c "D") as [->|HD].
  { apply Hadd; [reflexivity | reflexivity | now split]. }
  destruct (Ascii.eqb_spec c "F") as [->|HF].
  { apply Hadd; [reflexivity | reflexivity | split; discriminate]. }
  destruct (Ascii.eqb_spec c "L") as [->|HL].
  { apply Hadd; [reflexivity | reflexivity | split; discriminate]. }
  intros H. right.
  destruct c as [[] [] [] [] [] [] [] []]; try exact H; congruence.
Qed.

Lemma foldl_entries_line_from (lines : list string) :
  forall st name e,
    entries (foldl entries_line st lines) !! name = Some e ->
    (exists line, line ∈ lines /\ from_line name e line) \/ entries st !! name = Some e.
Proof.
  induction lines as [|line rest IH]; intros st name e H; [now right|].
  cbn [foldl] in H. destruct (IH _ _ _ H) as [(l & Hl & Hf)|H'].
  - left. exists l. split; [now right | exact Hf].
  - apply entries_line_from in H' as [Hf|H']; [|now right].
    left. exists line. split; [left | exact Hf].
Qed.

Lemma Entries_from_line (s : Store) (d name : string) (st : entries_state)
    (scan_err : bool) (e : BackupEntry) :
  Entries s d = EntriesRead st scan_err ->
  entries st !! name = Some e ->
  exists line, line ∈ reach_children s d /\ from_line name e line.
Proof.
  intros HE He. unfold Entries in HE.
  destruct (open_blob s d) as [| |bytes] eqn:Ho; try discriminate.
  destruct (scan_stream (gunzip bytes)) as [[lines err]|] eqn:Hg; [|discriminate].
  injection HE as <- <-.
  apply foldl_entries_line_from in He as [(line & Hl & Hf)|He];
    [|cbn [entries] in He; now rewrite lookup_empty in He].
  exists line. split; [|exact Hf].
  unfold reach_children. rewrite Ho, Hg. apply list_elem_of_filter.
  split; [apply Hf | exact Hl].
Qed.

(** X12.  Every entry that [Entries] returns for a directory that the
    reachability traversal reads is protected from [Prune]: its name is its
    key and is not empty, its digest has 32 bytes and is marked reachable,
    and when it is a directory entry its listing is read by the traversal
    too. *)
Theorem Entries_are_reachable (s : Store) (roots : list string) (d name : string)
    (st : entries_state) (scan_err : bool) (e : BackupEntry) :
  dir_reach s roots d ->
  Entries s d = EntriesRead st scan_err ->
  entries st !! name = Some e ->
  BackupEntry_Name e = name
  /\ name <> EmptyString
  /\ String.length (BackupEntry_Hash e) = 32%nat
  /\ reach s roots (BackupEntry_Hash e)
  /\ (is_BackupDirectory e = true -> dir_reach s roots (BackupEntry_Hash e)).
Proof.
  intros Hd HE He.
  destruct (Entries_from_line s d name st scan_err e HE He)
    as (line & Hin & Hlen & Hn & Hname & Hh & Hdir).
  split; [exact Hname|]. split.
  - intros E. apply (f_equal String.length) in E. rewrite Hn, length_slice_from in E.
    simpl in E. unfold len in Hlen. lia.
  - rewrite Hh. split; [apply length_substring; unfold len in Hlen; lia|].
    split; [eapply reach_child; eassumption|].
    intros Hb. eapply dir_reach_child; [exact Hd | exact Hin | now apply Hdir].
Qed.

(* --------------------------------------------------------------------- *)
(** *** Looking up a path                                                 *)
(* --------------------------------------------------------------------- *)

Lemma LocateDirectory_loop_Locate_loop (s : Store) (parts : list string) :
  forall current,
    is_BackupDirectory current = true ->
    LocateDirectory_loop s current parts
    = match Locate_loop s current parts with
      | Located e => if is_BackupDirectory e then Located e else LocateNil
      | other => other
      end.
Proof.
  induction parts as [|part rest IH]; intros current Hc; cbn [LocateDirectory_loop Locate_loop].
  - now rewrite Hc.
  - destruct (String.eqb part ""); [now apply IH|].
    destruct (dir_entries s current) as [m|]; [|reflexivity].
    destruct (m !! part) as [entry|]; [|reflexivity].
    destruct rest as [|part' rest'].
    + now destruct entry.
    + destruct entry; try reflexivity. now apply IH.
Qed.

(** X16.  [LocateDirectory] is [Locate] followed by the test that the
    entry is a directory: for every root and path the two return an error
    together, and [LocateDirectory] returns the entry that [Locate] returns
    when it is a [BackupDirectory], and [(nil, nil)] when [Locate] finds a
    file, a link or nothing. *)
Theorem LocateDirectory_is_Locate (s : Store) (r : BackupRoot) (fullName : string) :
  LocateDirectory s r fullName
  = match Locate s r fullName with
    | Located e => if is_BackupDirectory e then Located e else LocateNil
    | other => other
    end.
Proof.
  unfold LocateDirectory, Locate, locate_with, TopDirectory.
  destruct (BackupRoot_Hash s r) as [h|]; [|reflexivity]. cbn [fmap option_fmap option_map].
  destruct (String.eqb fullName "" || String.eqb fullName "." || String.eqb fullName "/");
    [reflexivity|].
  cbn zeta. destruct (String.eqb (Clean fullName) "."); [reflexivity|].
  now apply LocateDirectory_loop_Locate_loop.
Qed.

Lemma dir_reach_reach (s : Store) (roots : list string) (d : string) :
  dir_reach s roots d -> reach s roots d.
Proof.
  intros [h Hh | d' line Hd Hl _]; [now apply reach_root | eapply reach_child; eassumption].
Qed.

Lemma dir_entries_reach (s : Store) (roots : list string) (current entry : BackupEntry)
    (m : gmap string BackupEntry) (part : string) :
  dir_reach s roots (BackupEntry_Hash current) ->
  dir_entries s current = Some m ->
  m !! part = Some entry ->
  reach s roots (BackupEntry_Hash entry)
  /\ (is_BackupDirectory entry = true -> dir_reach s roots (BackupEntry_Hash entry)).
Proof.
  intros Hd Hm He. unfold dir_entries in Hm.
  destruct (Entries s (BackupEntry_Hash current)) as [| |st [|]] eqn:HE; try discriminate.
  injection Hm as <-.
  destruct (Entries_from_line s _ part st false entry HE He)
    as (line & Hin & _ & _ & _ & Hh & Hdir).
  rewrite Hh. split; [eapply reach_child; eassumption|].
  intros Hb. eapply dir_reach_child; [exact Hd | exact Hin | now apply Hdir].
Qed.

Lemma Locate_loop_reach (s : Store) (roots : list string) (parts : list string) :
  forall current e,
    dir_reach s roots (BackupEntry_Hash current) ->
    Locate_loop s current parts = Located e ->
    reach s roots (BackupEntry_Hash e).
Proof.
  induction parts as [|part rest IH]; intros current e Hd H; cbn [Locate_loop] in H.
  - injection H as <-. now apply dir_reach_reach.
  - destruct (String.eqb part ""); [now apply (IH current)|].
    destruct (dir_entries s current) as [m|] eqn:Hm; [|discriminate].
    destruct (m !! part) as [entry|] eqn:He; [|discriminate].
    destruct (dir_entries_reach s roots current entry m part Hd Hm He) as [Hr Hdir].
    destruct rest as [|part' rest'].
    + now injection H as <-.
    + destruct entry as [h n|h n|h n]; try discriminate.
      apply (IH (BackupDirectory h n)); [now apply Hdir | exact H].
Qed.

Lemma Locate_loop_agree (s s' : Store) (roots : list string) (parts : list string) :
  (forall d, dir_reach s roots d -> open_blob s' d = open_blob s d) ->
  forall current,
    dir_reach s roots (BackupEntry_Hash current) ->
    Locate_loop s' current parts = Locate_loop s current parts.
Proof.
  intros Ho. induction parts as [|part rest IH]; intros current Hd; cbn [Locate_loop].
  - reflexivity.
  - destruct (String.eqb part ""); [now apply IH|].
    assert (E : dir_entries s' current = dir_entries s current).
    { unfold dir_entries, Entries. now rewrite (Ho _ Hd). }
    rewrite E. destruct (dir_entries s current) as [m|] eqn:Hm; [|reflexivity].
    destruct (m !! part) as [entry|] eqn:He; [|reflexivity].
    destruct rest as [|part' rest']; [reflexivity|].
    destruct entry as [h n|h n|h n]; try reflexivity.
    apply (IH (BackupDirectory h n)).
    now apply (dir_entries_reach s roots current (BackupDirectory h n) m part Hd Hm He).
Qed.

(* --------------------------------------------------------------------- *)
(** *** The two ignore files of a directory                               *)
(* --------------------------------------------------------------------- *)





(* --------------------------------------------------------------------- *)
(** *** The content check of the status                                   *)
(* --------------------------------------------------------------------- *)

Lemma AllFilesContentIsSaved_DirectoryEntry (s : Store) (p : path) (n : string)
    (m : IgnoreMatcher) (es : list Entry) (ig : list IgnoredEntry) :
  AllFilesContentIsSaved s (DirectoryEntry p n m (Some es) ig) = all_saved_loop s es.
Proof. reflexivity. Qed.

Lemma saved_Hash (s : Store) (e : Entry) :
  saved s e -> exists h, Hash e = Some h /\ is_Some (stat_blob s h).
Proof.
  destruct e as [p n h r b | p n t h | p n m [es|] ig].
  - intros H. now exists h.
  - intros H. now exists h.
  - intros H. apply saved_DirectoryEntry in H as [_ (text & Ht & Hs)].
    exists (md5hex text). split; [|exact Hs]. now rewrite Hash_DirectoryEntry, Ht.
  - intros [].
Qed.

Lemma saved_AllFilesContentIsSaved (s : Store) (e : Entry) :
  saved s e ->
  match e with
  | DirectoryEntry _ _ _ _ _ => AllFilesContentIsSaved s e = Some true
  | _ => True
  end.
Proof.
  induction e as [p n h r b | p n t h | p n m ig | p n m es ig IH] using Entry_ind';
    intros Hs; try exact I; [destruct Hs|].
  rewrite AllFilesContentIsSaved_DirectoryEntry.
  apply saved_DirectoryEntry in Hs as [Hes _].
  induction es as [|e es IHes]; [reflexivity|].
  apply Forall_cons in IH as [IHe IH]. apply Forall_cons in Hes as [He Hes].
  cbn [all_saved_loop]. destruct (saved_Hash s e He) as (h & -> & [f Hf]).
  unfold os_Stat. rewrite Hf. specialize (IHe He).
  destruct e; [now apply IHes | now apply IHes |].
  rewrite IHe. now apply IHes.
Qed.

Lemma AllFilesContentIsSaved_children (s : Store) :
  (forall h, under_stray s h = false) ->
  forall e,
    match e with
    | DirectoryEntry _ _ _ (Some es) _ =>
        AllFilesContentIsSaved s e = Some true -> Forall (saved s) es
    | _ => True
    end.
Proof.
  intros Hstray.
  induction e as [p n h r b | p n t h | p n m ig | p n m es ig IH] using Entry_ind';
    try exact I.
  rewrite AllFilesContentIsSaved_DirectoryEntry.
  induction es as [|e es IHes]; intros H; [constructor|].
  apply Forall_cons in IH as [IHe IH]. cbn [all_saved_loop] in H.
  destruct (Hash e) as [h|] eqn:Hh; [|discriminate].
  assert (Hb : is_Some (stat_blob s h)).
  { unfold os_Stat in H. destruct (stat_blob s h) as [f|]; [now exists f|].
    rewrite Hstray in H. discriminate. }
  assert (Hrest : match e with
                  | DirectoryEntry _ _ _ _ _ =>
                      AllFilesContentIsSaved s e = Some true /\ all_saved_loop s es = Some true
                  | _ => all_saved_loop s es = Some true
                  end).
  { destruct (os_Stat s h); [|discriminate|]; destruct e; try exact H;
      destruct (AllFilesContentIsSaved s _) as [[]|]; try discriminate; now split. }
  clear H. apply Forall_cons.
  destruct e as [p0 n0 h0 r0 b0 | p0 n0 t0 h0 | p0 n0 m0 [es0|] ig0].
  - injection Hh as ->. split; [exact Hb | exact (IHes IH Hrest)].
  - injection Hh as ->. split; [exact Hb | exact (IHes IH Hrest)].
  - destruct Hrest as [He Hrest]. split; [|exact (IHes IH Hrest)].
    apply saved_DirectoryEntry. split; [exact (IHe He)|].
    rewrite Hash_DirectoryEntry in Hh. destruct (listing_text es0) as [text|]; [|discriminate].
    injection Hh as <-. now exists text.
  - discriminate.
Qed.

(** X14.  After a [Save] that returned no error and was no dry run,
    [AllFilesContentIsSaved] answers true for the directory, in the store
    that [Save] left and in every store that has kept its blobs. *)
Theorem saved_directory_is_reported (p : path) (n : string) (m : IgnoreMatcher)
    (es : list Entry) (ig : list IgnoredEntry) (st st' : backup_state) (s2 : Store) :
  Save false (DirectoryEntry p n m (Some es) ig) st = (st', None) ->
  grows (store st') s2 ->
  AllFilesContentIsSaved (store st') (DirectoryEntry p n m (Some es) ig) = Some true
  /\ AllFilesContentIsSaved s2 (DirectoryEntry p n m (Some es) ig) = Some true.
Proof.
  intros HS Hg.
  destruct (Save_post false (DirectoryEntry p n m (Some es) ig) st) as (_ & _ & _ & K).
  rewrite HS in K. specialize (K eq_refl eq_refl). cbn [fst] in K.
  assert (K2 : saved s2 (DirectoryEntry p n m (Some es) ig))
    by (eapply saved_grows; eassumption).
  split; [exact (saved_AllFilesContentIsSaved _ _ K)|].
  exact (saved_AllFilesContentIsSaved _ _ K2).
Qed.

(** X15.  In a store in which no shard name is taken by something that
    is not a directory, a true answer of [AllFilesContentIsSaved] means that
    every blob below the directory is in the store; the blob of the
    directory itself is not looked at, and when it is there too, [Save] of
    the directory returns no error and leaves the store as it is, dry run or
    not. *)
Theorem reported_directory_is_saved (s : Store) (d : Entry) (h : string) :
  (forall h', under_stray s h' = false) ->
  AllFilesContentIsSaved s d = Some true ->
  Hash d = Some h ->
  is_Some (stat_blob s h) ->
  saved s d
  /\ forall DryRun stats,
       exists st', Save DryRun d {| store := s; Stats := stats |} = (st', None)
                   /\ store st' = s.
Proof.
  intros Hstray Ha Hh Hb.
  assert (K : saved s d).
  { destruct d as [p n h0 r b | p n t h0 | p n m [es|] ig]; try discriminate.
    apply saved_DirectoryEntry. split.
    - exact (AllFilesContentIsSaved_children s Hstray (DirectoryEntry p n m (Some es) ig) Ha).
    - rewrite Hash_DirectoryEntry in Hh. destruct (listing_text es) as [text|]; [|discriminate].
      injection Hh as <-. now exists text. }
  split; [exact K|]. intros DryRun stats.
  destruct (Save_noop DryRun d {| store := s; Stats := stats |} K) as (st' & E & A & _).
  exists st'. split; [exact E | exact A].
Qed.

(* --------------------------------------------------------------------- *)
(** *** The check of a healthy store                                      *)
(* --------------------------------------------------------------------- *)

Lemma verifyBlob_good (s : Store) (deep : bool) (h : string) (st : check_state) :
  good_blob s deep h ->
  errs (fst (verifyBlob s deep h st)) = errs st
  /\ snd (verifyBlob s deep h st) = false
  /\ traversedDirs (fst (verifyBlob s deep h st)) = traversedDirs st.
Proof.
  intros (f & Hf & Hne & Hdeep). unfold verifyBlob.
  destruct (bool_decide (h ∈ verifiedBlobs st)); [now repeat split|].
  unfold os_Stat. rewrite Hf.
  destruct (len (bbytes f) =? 0)%nat eqn:El.
  { apply Nat.eqb_eq in El. destruct (bbytes f); [contradiction | discriminate]. }
  destruct deep; [|now repeat split].
  destruct (Hdeep eq_refl) as (Hr & payload & Hg & Hm).
  unfold verifyBlobHash, open_blob. rewrite Hf, Hr, Hg, Hm, String.eqb_refl.
  now repeat split.
Qed.

Lemma good_blob_stat (s : Store) (deep : bool) (h : string) :
  good_blob s deep h -> os_Stat s h <> StatError.
Proof. intros (f & Hf & _). unfold os_Stat. now rewrite Hf. Qed.

Lemma check_lines_good (s : Store) (deep : bool) (roots : list string)
    (rec : string -> check_state -> check_result) (d : string) :
  (forall h, verified_from s roots h -> good_blob s deep h) ->
  traversed_from s roots d ->
  (forall c st r,
     traversed_from s roots c -> errs st = [] -> rec c st = r ->
     match r with CkOutOfFuel => True | CkDone st' err => errs st' = [] /\ err = false end) ->
  forall lines st st',
    (forall line, line ∈ lines -> (36 <= len line)%nat -> line ∈ check_children s d) ->
    errs st = [] ->
    check_lines rec s deep lines st = Some st' ->
    errs st' = [].
Proof.
  intros Hgood Hd Hrec. induction lines as [|line rest IH]; intros st st' Hin He H.
  - now injection H as <-.
  - cbn [check_lines] in H. unfold check_line in H.
    destruct (len line <? 36)%nat eqn:El.
    + eapply IH; [| exact He | exact H]. intros l Hl. apply Hin. now right.
    + apply Nat.ltb_ge in El.
      assert (Hc : line ∈ check_children s d) by (apply Hin; [left | exact El]).
      destruct (verifyBlob_good s deep (slice line 2 34) st) as (E1 & _ & _).
      { apply Hgood. eapply verified_child; eassumption. }
      cbn zeta in H.
      destruct (bool_decide (byte_at line 0 = Some "D"%char)) eqn:ED.
      * apply bool_decide_eq_true in ED.
        specialize (Hrec (slice line 2 34) (fst (verifyBlob s deep (slice line 2 34) st))
                      _ (traversed_child s roots d line Hd Hc ED)
                      ltac:(now rewrite E1) eq_refl).
        destruct (rec (slice line 2 34) _) as [|st1 err1]; [discriminate|].
        destruct Hrec as [He1 _].
        eapply IH; [| exact He1 | exact H]. intros l Hl. apply Hin. now right.
      * eapply IH; [| | exact H]; [intros l Hl; apply Hin; now right | now rewrite E1].
Qed.

Lemma traverseDirectory_good (s : Store) (deep : bool) (roots : list string) :
  (forall h, verified_from s roots h -> good_blob s deep h) ->
  (forall d, traversed_from s roots d -> good_dir s d) ->
  forall fuel d st r,
    traversed_from s roots d -> errs st = [] ->
    traverseDirectory s deep fuel d st = r ->
    match r with CkOutOfFuel => True | CkDone st' err => errs st' = [] /\ err = false end.
Proof.
  intros Hgood Hdir. induction fuel as [|fuel IH]; intros d st r Hd He <-.
  - cbn [traverseDirectory]. now destruct (bool_decide (d ∈ traversedDirs st)).
  - cbn [traverseDirectory]. destruct (bool_decide (d ∈ traversedDirs st)); [now split|].
    destruct (Hdir d Hd) as (bytes & Ho & [[lines serr] Hs]). rewrite Ho, Hs.
    destruct (check_lines _ s deep lines (mark_traversed d st)) as [st'|] eqn:E; [|exact I].
    split; [|reflexivity].
    eapply (check_lines_good s deep roots _ d Hgood Hd IH lines); [| | exact E].
    + intros line Hl Hlen. unfold check_children. rewrite Ho, Hs.
      apply list_elem_of_filter. now split.
    + exact He.
Qed.

Lemma verify_roots_good (s : Store) (deep : bool) (all : list string) :
  (forall h, verified_from s all h -> good_blob s deep h) ->
  (forall d, traversed_from s all d -> good_dir s d) ->
  forall fuel roots st st',
    (forall r, r ∈ roots -> exists h, BackupRoot_Hash s r = Some h /\ h ∈ all) ->
    errs st = [] ->
    verify_roots s deep fuel roots st = Some st' ->
    errs st' = [].
Proof.
  intros Hgood Hdir fuel. induction roots as [|r rest IH]; intros st st' Hall He H.
  - now injection H as <-.
  - cbn [verify_roots] in H.
    destruct (Hall r) as (h & Hh & Hin); [left|]. rewrite Hh in H.
    assert (Hg : good_blob s deep h) by (apply Hgood; now apply verified_root).
    destruct (verifyBlob_good s deep h st Hg) as (E1 & E2 & _).
    unfold verifyTree in H. destruct (verifyBlob s deep h st) as [st1 e1].
    cbn [fst snd] in E1, E2. subst e1.
    pose proof (traverseDirectory_good s deep all Hgood Hdir fuel h st1 _
                  (traversed_root s all h Hin (good_blob_stat s deep h Hg))
                  ltac:(now rewrite E1) eq_refl) as Ht.
    destruct (traverseDirectory s deep fuel h st1) as [|st2 e2]; [discriminate|].
    destruct Ht as [He2 ->].
    eapply IH; [| exact He2 | exact H]. intros r' Hr'. apply Hall. now right.
Qed.

(** X10.  [Verify] reports nothing on a healthy store: when every head
    of the project gives a digest, every digest that is a root or is listed
    in a traversed directory has a blob that is not empty (and, for the deep
    check, opens and decompresses to bytes with that digest), every
    traversed directory opens as a gzip stream, no blob is unreferenced and
    the hash cache verifies, the list of errors is empty. *)
Theorem healthy_store_passes (s : Store) (ProjectName : string) (deep : bool)
    (roots : list BackupRoot) :
  BackupRoots s ProjectName = Some roots ->
  (forall r, r ∈ roots -> is_Some (BackupRoot_Hash s r)) ->
  (forall h, verified_from s (root_hashes s roots) h -> good_blob s deep h) ->
  (forall d, traversed_from s (root_hashes s roots) d -> good_dir s d) ->
  FindUnreferenced s = Found [] ->
  Verify s ProjectName false deep = Some [].
Proof.
  intros Hroots Hhash Hgood Hdir Hun.
  destruct (Verify_errs s ProjectName false deep roots Hroots)
    as (st & l & Hv & HV & _).
  rewrite HV. unfold Verify in HV. rewrite Hroots, Hv, Hun in HV.
  injection HV as <-.
  rewrite (verify_roots_good s deep (root_hashes s roots) Hgood Hdir
             (store_fuel s) roots empty_check st); [reflexivity | | reflexivity | exact Hv].
  intros r Hr. destruct (Hhash r Hr) as [h Hh]. exists h. split; [exact Hh|].
  unfold root_hashes. apply list_elem_of_omap. now exists r.
Qed.

(* --------------------------------------------------------------------- *)
(** *** The blobs that [Save] writes                                      *)
(* --------------------------------------------------------------------- *)

(** Every blob of [s'] is a blob of [s], or the compressed form of bytes
    with the digest of its name. *)
Definition writes_digests (s s' : Store) : Prop :=
  forall h f,
    stat_blob s' h = Some f ->
    stat_blob s h = Some f \/ exists payload, f = new_blob payload /\ md5hex payload = h.

Lemma writes_digests_refl (s : Store) : writes_digests s s.
Proof. intros h f H. now left. Qed.

Lemma writes_digests_trans (s1 s2 s3 : Store) :
  writes_digests s1 s2 -> writes_digests s2 s3 -> writes_digests s1 s3.
Proof.
  intros H1 H2 h f H. destruct (H2 h f H) as [H'|H']; [now apply H1 | now right].
Qed.

Lemma writes_digests_lookup (s s' : Store) :
  (forall p, lookup_file s' p = lookup_file s p) -> writes_digests s s'.
Proof. intros H h f Hf. left. unfold stat_blob in *. now rewrite <- H. Qed.

Lemma place_blob_writes_digests (s : Store) (shard file payload : string) :
  DataStore (md5hex payload) = Some (shard, file) ->
  writes_digests s (place_blob s shard file payload).
Proof.
  intros Hd h f Hf. unfold stat_blob in *.
  destruct (DataStore h) as [[sh' f']|] eqn:E; [|discriminate].
  rewrite lookup_file_place_blob in Hf.
  destruct (decide (shard = sh')) as [<-|]; [|now left].
  destruct (decide (f' = file)) as [->|].
  { injection Hf as <-. right. exists payload. split; [reflexivity|].
    eapply DataStore_inj; eassumption. }
  destruct (decide (f' = file +:+ ".partial")); [discriminate | now left].
Qed.

Lemma leaf_writes_digests (s s1 : Store) (shard file payload : string) :
  DataStore (md5hex payload) = Some (shard, file) ->
  MkdirAll_shard s shard = Some s1 ->
  writes_digests s (place_blob s1 shard file payload).
Proof.
  intros Hd Hm. apply MkdirAll_shard_lookup in Hm as [_ Hm].
  eapply writes_digests_trans; [apply writes_digests_lookup; exact Hm|].
  now apply place_blob_writes_digests.
Qed.

Lemma honest_DirectoryEntry (p : path) (n : string) (m : IgnoreMatcher)
    (es : list Entry) (ig : list IgnoredEntry) :
  honest (DirectoryEntry p n m (Some es) ig) <-> Forall honest es.
Proof.
  cbn [honest].
  induction es as [|e es IH]; [split; [constructor | exact (fun _ => I)]|].
  rewrite Forall_cons. now rewrite IH.
Qed.

Lemma Save_writes_digests (DryRun : bool) (e : Entry) :
  honest e ->
  forall st, writes_digests (store st) (store (fst (Save DryRun e st))).
Proof.
  induction e as [p n h r b | p n t h | p n m ig | p n m es ig IH] using Entry_ind';
    intros Hh st.
  - cbn [honest] in Hh. subst h. cbn [Save]. unfold FileEntry_Save.
    destruct (DataStore (md5hex b)) as [[shard file]|] eqn:Hd; simpl;
      [|apply writes_digests_refl].
    destruct (stat_blob (store st) (md5hex b)); simpl; [apply writes_digests_refl|].
    destruct DryRun; simpl; [apply writes_digests_refl|].
    destruct (MkdirAll_shard (store st) shard) as [s1|] eqn:Hm; simpl;
      [|apply writes_digests_refl].
    destruct r; simpl; [now apply leaf_writes_digests|].
    apply MkdirAll_shard_lookup in Hm as [_ Hm]. now apply writes_digests_lookup.
  - cbn [honest] in Hh. subst h. cbn [Save]. unfold LinkEntry_Save.
    destruct (DataStore (md5hex t)) as [[shard file]|] eqn:Hd; simpl;
      [|apply writes_digests_refl].
    destruct (stat_blob (store st) (md5hex t)); simpl; [apply writes_digests_refl|].
    destruct DryRun; simpl; [apply writes_digests_refl|].
    destruct (MkdirAll_shard (store st) shard) as [s1|] eqn:Hm; simpl;
      [|apply writes_digests_refl].
    now apply leaf_writes_digests.
  - apply writes_digests_refl.
  - rewrite Save_DirectoryEntry. apply honest_DirectoryEntry in Hh.
    assert (Hc : forall st0,
              writes_digests (store st0) (store (fst (save_children DryRun es st0)))).
    { induction es as [|e es IHes]; intros st0; [apply writes_digests_refl|].
      apply Forall_cons in IH as [IHe IH]. apply Forall_cons in Hh as [He Hes].
      cbn [save_children]. specialize (IHe He st0).
      destruct (Save DryRun e st0) as [st1 [err|]]; [exact IHe|].
      eapply writes_digests_trans; [exact IHe | now apply IHes]. }
    specialize (Hc (incDirsTotal st)).
    destruct (save_children DryRun es (incDirsTotal st)) as [st1 [err|]]; [exact Hc|].
    cbn [fst] in Hc.
    destruct (listing_text es) as [text|]; [|exact Hc].
    eapply writes_digests_trans; [exact Hc|]. unfold save_listing.
    destruct (DataStore (md5hex text)) as [[shard file]|] eqn:Hd; simpl;
      [|apply writes_digests_refl].
    destruct (stat_blob (store st1) (md5hex text)); simpl; [apply writes_digests_refl|].
    destruct DryRun; simpl; [apply writes_digests_refl|].
    destruct (MkdirAll_shard (store st1) shard) as [s1|] eqn:Hm; simpl;
      [|apply writes_digests_refl].
    now apply leaf_writes_digests.
Qed.

(** X11.  With a gzip codec that inverts and never gives the empty
    stream, [Save] of an entry tree whose leaves carry the digest of their
    own bytes writes only blobs that pass the deep check: every blob of the
    store afterwards is a blob that was there before, unchanged, or is not
    empty, opens, and decompresses to bytes whose digest is its name, so
    that [verifyBlobHash] accepts it.  A store in which every blob passes
    is left in that state. *)
Theorem Save_writes_verifiable_blobs (DryRun : bool) (e : Entry) (st : backup_state) :
  (forall x, gunzip (gzip x) = GzOk x) ->
  (forall x, gzip x <> EmptyString) ->
  honest e ->
  (forall h f,
     stat_blob (store (fst (Save DryRun e st))) h = Some f ->
     stat_blob (store st) h = Some f
     \/ (stat_blob (store st) h = None
         /\ good_blob (store (fst (Save DryRun e st))) true h
         /\ verifyBlobHash (store (fst (Save DryRun e st))) h = None))
  /\ ((forall h, is_Some (stat_blob (store st) h) -> good_blob (store st) true h) ->
      forall h, is_Some (stat_blob (store (fst (Save DryRun e st))) h) ->
                good_blob (store (fst (Save DryRun e st))) true h).
Proof.
  intros Hcodec Hne Hh.
  pose proof (Save_writes_digests DryRun e Hh st) as W.
  pose proof (Save_only_adds DryRun e st) as [_ A].
  set (s' := store (fst (Save DryRun e st))) in *.
  assert (Hnew : forall h f payload,
            stat_blob s' h = Some f -> f = new_blob payload -> md5hex payload = h ->
            good_blob s' true h /\ verifyBlobHash s' h = None).
  { intros h f payload Hf -> Hm. split.
    - exists (new_blob payload). split; [exact Hf|]. split; [apply Hne|].
      intros _. split; [reflexivity|]. exists payload. split; [apply Hcodec | exact Hm].
    - unfold verifyBlobHash, open_blob. rewrite Hf. cbn [breadable bbytes new_blob].
      now rewrite Hcodec, Hm, String.eqb_refl. }
  assert (Hold : forall h f, stat_blob (store st) h = Some f -> stat_blob s' h = Some f).
  { intros h f Hf. unfold stat_blob in *.
    destruct (DataStore h) as [[shard file]|] eqn:Hd; [|discriminate].
    destruct (A shard file) as [E|[(_ & E & _)|(Hp & _)]].
    - now rewrite E.
    - rewrite E in Hf. discriminate.
    - exfalso. apply DataStore_file in Hd. subst file.
      eapply gz_not_partial_name; [apply HasSuffix_app | exact Hp]. }
  split.
  - intros h f Hf. destruct (stat_blob (store st) h) as [f0|] eqn:E0.
    + left. apply Hold in E0. congruence.
    + right. split; [reflexivity|].
      destruct (W h f Hf) as [H0|(payload & Hp & Hm)]; [congruence|].
      exact (Hnew h f payload Hf Hp Hm).
  - intros Hgood h [f Hf]. destruct (W h f Hf) as [H0|(payload & Hp & Hm)].
    + destruct (Hgood h (ex_intro _ f H0)) as (f0 & Hf0 & Hrest).
      exists f0. split; [now apply Hold | exact Hrest].
    + exact (proj1 (Hnew h f payload Hf Hp Hm)).
Qed.

Lemma elem_of_insert_root (r x : BackupRoot) (rs : list BackupRoot) :
  x ∈ insert_root r rs -> x = r \/ x ∈ rs.
Proof.
  induction rs as [|r' rs IH]; cbn [insert_root]; intros H.
  - apply list_elem_of_singleton in H. now left.
  - destruct (Time r' <? Time r).
    + apply elem_of_cons in H as [->|H]; [right; left|].
      destruct (IH H) as [->|Hin]; [now left | right; now right].
    + apply elem_of_cons in H as [->|H]; [now left | now right].
Qed.

Lemma elem_of_sort_roots (x : BackupRoot) (rs : list BackupRoot) :
  x ∈ sort_roots rs -> x ∈ rs.
Proof.
  induction rs as [|r rs IH]; cbn [sort_roots fold_right]; intros H; [exact H|].
  apply elem_of_insert_root in H as [->|H]; [left | right; now apply IH].
Qed.

Lemma NewBackupRoot_hash (headPath : list string) (name : string)
    (content : option string) (r : BackupRoot) :
  NewBackupRoot headPath name content = Some r -> hash r <> EmptyString.
Proof.
  unfold NewBackupRoot. destruct (parse_timestamp name); [|discriminate].
  destruct content as [c|]; [|discriminate].
  destruct (len (TrimSpace c) =? 0)%nat eqn:E; [discriminate|].
  intros [= <-]. cbn [hash]. intros H. rewrite H in E. discriminate.
Qed.

Lemma AllBackupRoots_hash (s : Store) (r : BackupRoot) :
  r ∈ AllBackupRoots s -> hash r <> EmptyString.
Proof.
  intros H. apply elem_of_sort_roots, list_elem_of_In, in_flat_map in H
    as ([p e] & _ & H).
  destruct e as [heads|]; [|destruct H].
  apply list_elem_of_In, list_elem_of_omap in H as ([name he] & _ & H).
  destruct he as [content|]; [|discriminate].
  eapply NewBackupRoot_hash. exact H.
Qed.

(** X17.  What [Locate] finds in a snapshot is safe from [Prune]: the
    digest of an entry located below a root that [AllBackupRoots] lists is
    in the reachable closure, and after [Prune], in either mode and whatever
    it returns, [Locate] finds the same entry for the same path and the blob
    of the entry is as it was. *)
Theorem Locate_survives_Prune (s s' : Store) (dryRun : bool) (stats : PruneStats)
    (err : option prune_error) (r : BackupRoot) (fullName : string) (e : BackupEntry) :
  r ∈ AllBackupRoots s ->
  Locate s r fullName = Located e ->
  Prune dryRun s = Some (s', stats, err) ->
  reach s (hash <$> AllBackupRoots s) (BackupEntry_Hash e)
  /\ Locate s' r fullName = Located e
  /\ stat_blob s' (BackupEntry_Hash e) = stat_blob s (BackupEntry_Hash e).
Proof.
  intros Hr HL HP.
  set (roots := hash <$> AllBackupRoots s).
  assert (Hh : BackupRoot_Hash s r = Some (hash r)).
  { unfold BackupRoot_Hash. apply AllBackupRoots_hash, String.eqb_neq in Hr as ->.
    reflexivity. }
  assert (Hh' : BackupRoot_Hash s' r = Some (hash r)).
  { unfold BackupRoot_Hash. apply AllBackupRoots_hash, String.eqb_neq in Hr as ->.
    reflexivity. }
  assert (Htop : dir_reach s roots (hash r)).
  { apply dir_reach_root. apply list_elem_of_fmap. now exists r. }
  assert (Hreach : reach s roots (BackupEntry_Hash e)).
  { unfold Locate, locate_with, TopDirectory in HL. rewrite Hh in HL.
    cbn [fmap option_fmap option_map] in HL.
    destruct (String.eqb fullName "" || String.eqb fullName "." || String.eqb fullName "/").
    { injection HL as <-. now apply dir_reach_reach. }
    cbn zeta in HL. destruct (String.eqb (Clean fullName) ".").
    { injection HL as <-. now apply dir_reach_reach. }
    eapply Locate_loop_reach; [|exact HL]. exact Htop. }
  split; [exact Hreach|].
  pose proof (GetReachableBlobs_total s) as Htot.
  destruct (GetReachableBlobs s) as [|re|st] eqn:Hst; [contradiction| |].
  { unfold Prune, FindUnreferenced in HP. rewrite Hst in HP. injection HP as <- _ _.
    split; [exact HL | reflexivity]. }
  destruct (Prune_after s s' dryRun stats err st Hst HP) as (_ & Hkeep & _).
  destruct (GetReachableBlobs_marks s st Hst) as [_ Hmark].
  split; [|now apply Hkeep, Hmark].
  rewrite <- HL. unfold Locate, locate_with, TopDirectory. rewrite Hh, Hh'.
  cbn [fmap option_fmap option_map].
  destruct (String.eqb fullName "" || String.eqb fullName "." || String.eqb fullName "/");
    [reflexivity|].
  cbn zeta. destruct (String.eqb (Clean fullName) "."); [reflexivity|].
  apply (Locate_loop_agree s s' roots); [|exact Htop].
  intros d Hd. now apply Hkeep, Hmark, dir_reach_reach.
Qed.

(* --------------------------------------------------------------------- *)
(** *** Cleaning up partial files                                         *)
(* --------------------------------------------------------------------- *)

(** The file or stray entry [name] is removed by a run of
    [CleanupPartials]. *)
Definition doomed (DryRun : bool) (name : string) (removable : bool) : bool :=
  negb DryRun && HasSuffix name ".partial" && removable.

Definition clean_files (DryRun : bool) (files : gmap string blob_file)
    : gmap string blob_file :=
  filter (fun '(n, f) => doomed DryRun n (bremovable f) = false) files.

Definition clean_entry (stray_removable : string -> bool) (DryRun : bool)
    (name : string) (e : data_entry) : option data_entry :=
  match e with
  | Shard files => Some (Shard (clean_files DryRun files))
  | DataStray => if doomed DryRun name (stray_removable name) then None else Some DataStray
  end.

Lemma cleanup_visit_doomed (DryRun : bool) (name : string) (removable : bool)
    (remove : Store -> Store) (s : Store) (c : Z) :
  fst (cleanup_visit DryRun name removable remove (s, c))
  = if doomed DryRun name removable then remove s else s.
Proof.
  unfold cleanup_visit, doomed.
  destruct (HasSuffix name ".partial"), DryRun, removable; reflexivity.
Qed.

Lemma lookup_clean_files (DryRun : bool) (files : gmap string blob_file) (n : string) :
  clean_files DryRun files !! n
  = match files !! n with
    | Some f => if doomed DryRun n (bremovable f) then None else Some f
    | None => None
    end.
Proof.
  unfold clean_files. destruct (files !! n) as [f|] eqn:E.
  - destruct (doomed DryRun n (bremovable f)) eqn:D.
    + apply map_lookup_filter_None. right. intros f' Hf'. rewrite E in Hf'.
      injection Hf' as <-. cbn. now rewrite D.
    + apply map_lookup_filter_Some. split; [exact E | exact D].
  - apply map_lookup_filter_None. now left.
Qed.

Lemma cleanup_shard_post (DryRun : bool) (shard : string)
    (files : gmap string blob_file) (s : Store) (c : Z) :
  StoreData s !! shard = Some (Shard files) ->
  StoreSnapshots (fst (cleanup_shard DryRun shard files (s, c))) = StoreSnapshots s
  /\ StoreData (fst (cleanup_shard DryRun shard files (s, c)))
     = <[shard := Shard (clean_files DryRun files)]> (StoreData s).
Proof.
  intros Hs. unfold cleanup_shard.
  set (step := fun (file : string) (f : blob_file) (acc : Store * Z) =>
                 cleanup_visit DryRun file (bremovable f)
                   (fun s0 => remove_file s0 (Some (shard, file))) acc).
  assert (H : forall fm, fm ⊆ files ->
            StoreSnapshots (fst (map_fold step (s, c) fm)) = StoreSnapshots s
            /\ exists files',
                 StoreData (fst (map_fold step (s, c) fm))
                 = <[shard := Shard files']> (StoreData s)
                 /\ forall n, files' !! n
                              = match fm !! n with
                                | Some f => if doomed DryRun n (bremovable f)
                                            then None else Some f
                                | None => files !! n
                                end).
  { intros fm.
    apply (map_fold_weak_ind
             (fun r fm => fm ⊆ files ->
                StoreSnapshots (fst r) = StoreSnapshots s
                /\ exists files',
                     StoreData (fst r) = <[shard := Shard files']> (StoreData s)
                     /\ forall n, files' !! n
                                  = match fm !! n with
                                    | Some f => if doomed DryRun n (bremovable f)
                                                then None else Some f
                                    | None => files !! n
                                    end)).
    - intros _. split; [reflexivity|]. exists files. split.
      + cbn [fst]. symmetry. now apply insert_id.
      + intros n. now rewrite lookup_empty.
    - intros i x m [s1 c1] Hi IH Hsub.
      assert (Hx : files !! i = Some x).
      { eapply lookup_weaken; [|exact Hsub]. apply lookup_insert_eq. }
      destruct IH as (Hsn & files' & Hd & Hf).
      { etrans; [|exact Hsub]. now apply insert_subseteq. }
      cbn [fst] in Hsn, Hd. unfold step. rewrite cleanup_visit_doomed.
      destruct (doomed DryRun i (bremovable x)) eqn:D.
      + unfold remove_file. rewrite Hd, lookup_insert_eq. cbn [StoreSnapshots StoreData].
        split; [exact Hsn|]. exists (delete i files'). split.
        * now rewrite insert_insert_eq.
        * intros n. destruct (decide (n = i)) as [->|Hn].
          -- now rewrite lookup_delete_eq, lookup_insert_eq, D.
          -- rewrite lookup_delete_ne, lookup_insert_ne by congruence. apply Hf.
      + split; [exact Hsn|]. exists files'. split; [exact Hd|].
        intros n. destruct (decide (n = i)) as [->|Hn].
        * rewrite lookup_insert_eq, D, Hf, Hi. exact Hx.
        * rewrite lookup_insert_ne by congruence. apply Hf. }
  destruct (H files (reflexivity _)) as (Hsn & files' & Hd & Hf).
  split; [exact Hsn|]. rewrite Hd. f_equal. f_equal.
  apply map_eq. intros n. rewrite Hf, lookup_clean_files.
  now destruct (files !! n).
Qed.

Lemma CleanupPartials_post (stray_removable : string -> bool) (DryRun : bool)
    (s : Store) :
  StoreSnapshots (fst (CleanupPartials stray_removable DryRun s)) = StoreSnapshots s
  /\ forall name,
       StoreData (fst (CleanupPartials stray_removable DryRun s)) !! name
       = StoreData s !! name ≫= clean_entry stray_removable DryRun name.
Proof.
  unfold CleanupPartials.
  set (step := fun (name : string) (e : data_entry) (acc : Store * Z) =>
                 match e with
                 | Shard files => cleanup_shard DryRun name files acc
                 | DataStray =>
                     cleanup_visit DryRun name (stray_removable name)
                       (fun s0 => remove_stray s0 name) acc
                 end).
  assert (H : forall m, m ⊆ StoreData s ->
            StoreSnapshots (fst (map_fold step (s, 0) m)) = StoreSnapshots s
            /\ forall name,
                 StoreData (fst (map_fold step (s, 0) m)) !! name
                 = match m !! name with
                   | Some e => clean_entry stray_removable DryRun name e
                   | None => StoreData s !! name
                   end).
  { intros m.
    apply (map_fold_weak_ind
             (fun r m => m ⊆ StoreData s ->
                StoreSnapshots (fst r) = StoreSnapshots s
                /\ forall name,
                     StoreData (fst r) !! name
                     = match m !! name with
                       | Some e => clean_entry stray_removable DryRun name e
                       | None => StoreData s !! name
                       end)).
    - intros _. split; [reflexivity|]. intros name. now rewrite lookup_empty.
    - intros i x m0 [s1 c1] Hi IH Hsub.
      assert (Hx : StoreData s !! i = Some x).
      { eapply lookup_weaken; [|exact Hsub]. apply lookup_insert_eq. }
      destruct IH as (Hsn & Hd).
      { etrans; [|exact Hsub]. now apply insert_subseteq. }
      cbn [fst] in Hsn, Hd.
      assert (H1 : StoreData s1 !! i = Some x) by now rewrite Hd, Hi.
      unfold step. destruct x as [files|].
      + destruct (cleanup_shard_post DryRun i files s1 c1 H1) as [Hsn' Hd'].
        split; [now rewrite Hsn'|]. intros name. rewrite Hd'.
        destruct (decide (name = i)) as [->|Hn].
        * now rewrite !lookup_insert_eq.
        * rewrite !lookup_insert_ne by congruence. apply Hd.
      + rewrite cleanup_visit_doomed.
        destruct (doomed DryRun i (stray_removable i)) eqn:D.
        * split; [exact Hsn|]. intros name. cbn [remove_stray StoreData].
          destruct (decide (name = i)) as [->|Hn].
          -- rewrite lookup_delete_eq, lookup_insert_eq. cbn [clean_entry]. now rewrite D.
          -- rewrite lookup_delete_ne, lookup_insert_ne by congruence. apply Hd.
        * split; [exact Hsn|]. intros name.
          destruct (decide (name = i)) as [->|Hn].
          -- rewrite lookup_insert_eq, H1. cbn [clean_entry]. now rewrite D.
          -- rewrite lookup_insert_ne by congruence. apply Hd. }
  destruct (H (StoreData s) (reflexivity _)) as [Hsn Hd].
  split; [exact Hsn|]. intros name. rewrite Hd. now destruct (StoreData s !! name).
Qed.

(** Two stores that the traversals cannot tell apart: the same heads, the
    same answers of [os.Stat] and [os.Open] for the blob of every digest,
    and the same set of blob names. *)
Definition same_view (s s' : Store) : Prop :=
  StoreSnapshots s' = StoreSnapshots s
  /\ (forall h, stat_blob s' h = stat_blob s h)
  /\ (forall h, under_stray s' h = under_stray s h)
  /\ GetAllBlobs s' = GetAllBlobs s.

Lemma same_view_open (s s' : Store) :
  same_view s s' ->
  (forall h, open_blob s' h = open_blob s h) /\ (forall h, os_Stat s' h = os_Stat s h).
Proof.
  intros (_ & Hs & Hu & _). split; intros h.
  - unfold open_blob. now rewrite Hs, Hu.
  - unfold os_Stat. now rewrite Hs, Hu.
Qed.

Lemma traverse_lines_ext (rec rec' : string -> reach_state -> traverse_result) :
  (forall c st, rec c st = rec' c st) ->
  forall hash scan_err lines st,
    traverse_lines rec hash scan_err lines st = traverse_lines rec' hash scan_err lines st.
Proof.
  intros Hrec hash scan_err. induction lines as [|line rest IH]; intros st; [reflexivity|].
  cbn [traverse_lines]. unfold traverse_line. rewrite Hrec.
  destruct (len line <? 36)%nat; [apply IH|]. cbn zeta.
  destruct (_ && _); [|apply IH].
  destruct (rec' _ _); try reflexivity. apply IH.
Qed.

Lemma traverseReachable_same_view (s s' : Store) :
  (forall h, open_blob s' h = open_blob s h) ->
  forall fuel hash st, traverseReachable s' fuel hash st = traverseReachable s fuel hash st.
Proof.
  intros Ho. induction fuel as [|fuel IH]; intros hash st; [reflexivity|].
  cbn [traverseReachable]. rewrite Ho.
  destruct (open_blob s hash); try reflexivity.
  destruct (scan_stream _) as [[lines e]|]; [|reflexivity].
  now apply traverse_lines_ext.
Qed.

Lemma GetReachableBlobs_same_view (s s' : Store) :
  same_view s s' -> GetReachableBlobs s' = GetReachableBlobs s.
Proof.
  intros V. destruct (same_view_open s s' V) as [Ho _]. destruct V as (Hsn & _ & _ & Hall).
  unfold GetReachableBlobs, store_fuel. rewrite Hall, (AllBackupRoots_snapshots s s' Hsn).
  generalize (S (size (GetAllBlobs s))) empty_reach. intros fuel.
  induction (AllBackupRoots s) as [|r rest IH]; intros st; [reflexivity|].
  cbn [mark_roots]. unfold markReachable.
  rewrite (traverseReachable_same_view s s' Ho).
  destruct (if bool_decide _ then _ else _); try reflexivity. apply IH.
Qed.

Lemma check_lines_ext (rec rec' : string -> check_state -> check_result)
    (s s' : Store) (deep : bool) :
  (forall c st, rec' c st = rec c st) ->
  (forall h st, verifyBlob s' deep h st = verifyBlob s deep h st) ->
  forall lines st, check_lines rec' s' deep lines st = check_lines rec s deep lines st.
Proof.
  intros Hrec Hv. induction lines as [|line rest IH]; intros st; [reflexivity|].
  cbn [check_lines]. unfold check_line. rewrite Hv.
  destruct (len line <? 36)%nat; [apply IH|]. cbn zeta.
  destruct (bool_decide _); [|apply IH]. rewrite Hrec.
  destruct (rec _ _); [reflexivity | apply IH].
Qed.

Lemma verifyBlob_same_view (s s' : Store) (deep : bool) :
  same_view s s' -> forall h st, verifyBlob s' deep h st = verifyBlob s deep h st.
Proof.
  intros V h st. destruct (same_view_open s s' V) as [Ho Hs].
  unfold verifyBlob, verifyBlobHash. now rewrite Hs, Ho.
Qed.

Lemma traverseDirectory_same_view (s s' : Store) (deep : bool) :
  same_view s s' ->
  forall fuel hash st,
    traverseDirectory s' deep fuel hash st = traverseDirectory s deep fuel hash st.
Proof.
  intros V. destruct (same_view_open s s' V) as [Ho _].
  induction fuel as [|fuel IH]; intros hash st; [reflexivity|].
  cbn [traverseDirectory]. destruct (bool_decide _); [reflexivity|]. rewrite Ho.
  destruct (open_blob s hash); try reflexivity.
  destruct (scan_stream _) as [[lines e]|]; [|reflexivity].
  rewrite (check_lines_ext (traverseDirectory s deep fuel) (traverseDirectory s' deep fuel)
             s s' deep IH (verifyBlob_same_view s s' deep V)).
  reflexivity.
Qed.

Lemma BackupRoots_same_view (s s' : Store) (ProjectName : string) :
  StoreSnapshots s' = StoreSnapshots s -> BackupRoots s' ProjectName = BackupRoots s ProjectName.
Proof.
  intros H. unfold BackupRoots. now rewrite H, (AllBackupRoots_snapshots s s' H).
Qed.

Lemma Verify_same_view (s s' : Store) (ProjectName : string) (hashCacheErr deep : bool) :
  same_view s s' ->
  Verify s' ProjectName hashCacheErr deep = Verify s ProjectName hashCacheErr deep.
Proof.
  intros V. pose proof (GetReachableBlobs_same_view s s' V) as HR.
  pose proof V as (Hsn & _ & _ & Hall).
  unfold Verify, FindUnreferenced, store_fuel.
  rewrite HR, Hall, (BackupRoots_same_view s s' ProjectName Hsn).
  destruct (BackupRoots s ProjectName) as [roots|]; [|reflexivity].
  assert (E : forall fuel st,
            verify_roots s' deep fuel roots st = verify_roots s deep fuel roots st).
  { intros fuel. induction roots as [|r rest IH]; intros st; [reflexivity|].
    cbn [verify_roots].
    assert (Hh : BackupRoot_Hash s' r = BackupRoot_Hash s r).
    { unfold BackupRoot_Hash, read_head. now rewrite Hsn. }
    rewrite Hh. destruct (BackupRoot_Hash s r) as [h|]; [|apply IH].
    unfold verifyTree. rewrite (verifyBlob_same_view s s' deep V).
    destruct (verifyBlob s deep h st) as [st1 [|]]; [apply IH|].
    rewrite (traverseDirectory_same_view s s' deep V).
    destruct (traverseDirectory s deep fuel h st1) as [|st2 [|]];
      [reflexivity | apply IH | apply IH]. }
  now rewrite E.
Qed.

Lemma Store_eq (a b : Store) :
  StoreData a = StoreData b -> StoreSnapshots a = StoreSnapshots b -> a = b.
Proof. destruct a, b. cbn. now intros -> ->. Qed.

Lemma short_not_partial (name : string) :
  (String.length name <= 2)%nat -> HasSuffix name ".partial" = false.
Proof.
  intros H. unfold HasSuffix.
  destruct (String.length ".partial" <=? String.length name)%nat eqn:E; [|reflexivity].
  apply Nat.leb_le in E. cbn in E. lia.
Qed.

Lemma length_substring_le (s : string) :
  forall n m, (String.length (String.substring n m s) <= m)%nat.
Proof.
  induction s as [|c s IH]; intros [|n] [|m]; cbn; try lia.
  - specialize (IH 0%nat m). lia.
  - apply (IH n 0%nat).
  - apply (IH n (S m)).
Qed.

(** X18.  [CleanupPartials] never touches a blob or a head: after a run,
    a file of the data directory is gone exactly when it was there, its name
    ends in [.partial], the run was no dry run and [os.Remove] succeeded on
    it, and every other file is as it was.  So [os.Stat] and [os.Open]
    answer the same for the blob of every digest, [GetAllBlobs] returns the
    same set, the check and the search for unreferenced blobs return what
    they returned before, and a dry run leaves the store as it is. *)
Theorem CleanupPartials_keeps_blobs (stray_removable : string -> bool) (DryRun : bool)
    (s : Store) (ProjectName : string) (hashCacheErr deep : bool) :
  StoreSnapshots (fst (CleanupPartials stray_removable DryRun s)) = StoreSnapshots s
  /\ (forall shard name,
        lookup_file (fst (CleanupPartials stray_removable DryRun s)) (Some (shard, name))
        = match lookup_file s (Some (shard, name)) with
          | Some f =>
              if negb DryRun && HasSuffix name ".partial" && bremovable f
              then None else Some f
          | None => None
          end)
  /\ (forall h,
        stat_blob (fst (CleanupPartials stray_removable DryRun s)) h = stat_blob s h
        /\ open_blob (fst (CleanupPartials stray_removable DryRun s)) h = open_blob s h)
  /\ GetAllBlobs (fst (CleanupPartials stray_removable DryRun s)) = GetAllBlobs s
  /\ FindUnreferenced (fst (CleanupPartials stray_removable DryRun s)) = FindUnreferenced s
  /\ Verify (fst (CleanupPartials stray_removable DryRun s)) ProjectName hashCacheErr deep
     = Verify s ProjectName hashCacheErr deep
  /\ (DryRun = true -> fst (CleanupPartials stray_removable DryRun s) = s).
Proof.
  destruct (CleanupPartials_post stray_removable DryRun s) as [Hsn Hd].
  set (s' := fst (CleanupPartials stray_removable DryRun s)) in *.
  assert (Hl : forall shard name,
            lookup_file s' (Some (shard, name))
            = match lookup_file s (Some (shard, name)) with
              | Some f => if doomed DryRun name (bremovable f) then None else Some f
              | None => None
              end).
  { intros shard name. cbn [lookup_file]. rewrite Hd.
    destruct (StoreData s !! shard) as [[files|]|]; cbn; [| |reflexivity].
    - apply lookup_clean_files.
    - now destruct (doomed DryRun shard (stray_removable shard)). }
  assert (Hstat : forall h, stat_blob s' h = stat_blob s h).
  { intros h. unfold stat_blob. destruct (DataStore h) as [[shard file]|] eqn:E; [|reflexivity].
    rewrite Hl. destruct (lookup_file s (Some (shard, file))) as [f|]; [|reflexivity].
    apply DataStore_file in E. subst file. unfold doomed.
    destruct (HasSuffix (h +:+ ".gz") ".partial") eqn:Hp;
      [|now rewrite andb_false_r].
    exfalso. eapply gz_not_partial_name; [apply HasSuffix_app | exact Hp]. }
  assert (Hstray : forall h, under_stray s' h = under_stray s h).
  { intros h. unfold under_stray, DataStore.
    destruct (len h <? 2)%nat; [reflexivity|]. rewrite Hd.
    destruct (StoreData s !! slice h 0 2) as [[files|]|]; cbn; try reflexivity.
    unfold doomed. rewrite short_not_partial; [now rewrite andb_false_r|].
    apply length_substring_le. }
  assert (Hall : GetAllBlobs s' = GetAllBlobs s).
  { apply set_eq. intros h. rewrite !elem_of_GetAllBlobs_lookup.
    assert (Hgz : forall f, doomed DryRun (h +:+ ".gz") (bremovable f) = false).
    { intros f. unfold doomed.
      destruct (HasSuffix (h +:+ ".gz") ".partial") eqn:Hp; [|now rewrite andb_false_r].
      exfalso. eapply gz_not_partial_name; [apply HasSuffix_app | exact Hp]. }
    split; intros [shard Hf]; exists shard; rewrite Hl in *;
      destruct (lookup_file s (Some (shard, h +:+ ".gz"))) as [f|]; try exact Hf;
      rewrite Hgz in *; eauto. }
  assert (V : same_view s s') by (repeat split; assumption).
  split; [exact Hsn|]. split; [exact Hl|]. split.
  { intros h. split; [apply Hstat|]. apply (same_view_open s s' V). }
  split; [exact Hall|]. split.
  { unfold FindUnreferenced. now rewrite (GetReachableBlobs_same_view s s' V), Hall. }
  split; [now apply Verify_same_view|].
  intros ->. apply Store_eq; [|exact Hsn]. apply map_eq. intros name. rewrite Hd.
  destruct (StoreData s !! name) as [[files|]|]; cbn; try reflexivity.
  do 2 f_equal. apply map_eq. intros n. rewrite lookup_clean_files.
  now destruct (files !! n).
Qed.

(* --------------------------------------------------------------------- *)
(** *** Restoring what was saved                                          *)
(* --------------------------------------------------------------------- *)

Lemma Split_slash_plain (n : string) :
  contains_byte "/" n = false -> Split_slash n = [n].
Proof.
  induction n as [|c n IH]; [reflexivity|]. cbn [contains_byte Split_slash].
  intros H. apply orb_false_iff in H as [Hc Hn]. rewrite Ascii.eqb_sym in Hc.
  rewrite Hc, (IH Hn). reflexivity.
Qed.

Lemma Join_name_plain (dest : path) (n : string) :
  plain_name n -> Join_name dest n = dest ++ [n].
Proof.
  intros (Hne & Hs & Hd & Hdd). unfold Join_name. rewrite Split_slash_plain by exact Hs.
  cbn [foldl]. unfold clean_step.
  apply String.eqb_neq in Hne, Hd, Hdd. rewrite Hne, Hd, Hdd. cbn [orb].
  cbn [rev]. now rewrite rev_involutive.
Qed.

(** Every directory on the way to [dest], [dest] included, is there. *)
Definition dirs_to (fs : fsys) (dest : path) : Prop :=
  forall p, p <> [] -> p `prefix_of` dest -> exists m, fs !! p = Some (FDir m).

Lemma mkdir_from_app (umask perm : Z) (r1 r2 : path) :
  forall done fs,
    mkdir_from umask perm done (r1 ++ r2) fs
    = match mkdir_from umask perm done r1 fs with
      | (fs1, FsOk) => mkdir_from umask perm (done ++ r1) r2 fs1
      | other => other
      end.
Proof.
  induction r1 as [|name r1 IH]; intros done fs.
  - cbn [app mkdir_from]. now rewrite app_nil_r.
  - cbn [app mkdir_from].
    replace (done ++ name :: r1) with ((done ++ [name]) ++ r1) by (now rewrite <- app_assoc).
    destruct (fs !! (done ++ [name])) as [[mode c|t|mode]|]; try reflexivity; apply IH.
Qed.

Lemma mkdir_from_dirs_to (umask perm : Z) (rest : path) :
  forall done fs, dirs_to fs (done ++ rest) -> mkdir_from umask perm done rest fs = (fs, FsOk).
Proof.
  induction rest as [|name rest IH]; intros done fs H; [reflexivity|].
  cbn [mkdir_from].
  destruct (H (done ++ [name])) as [m Hm].
  - now destruct done.
  - exists rest. now rewrite <- app_assoc.
  - rewrite Hm. apply IH. now rewrite <- app_assoc.
Qed.

Lemma MkdirAll_dirs_to (umask : Z) (fs : fsys) (dest : path) :
  dirs_to fs dest -> MkdirAll umask fs dest 493 = (fs, FsOk).
Proof. intros H. unfold MkdirAll. now apply mkdir_from_dirs_to. Qed.

Lemma prefix_snoc_inv (p l : path) (x : string) :
  p `prefix_of` l ++ [x] -> p = l ++ [x] \/ p `prefix_of` l.
Proof.
  intros [k Hk]. destruct k as [|y k _] using rev_ind.
  - left. now rewrite app_nil_r in Hk.
  - right. rewrite app_assoc in Hk. apply List.app_inj_tail in Hk as [-> _].
    now exists k.
Qed.

Lemma mkdir_from_makes_dirs (umask perm : Z) (rest : path) :
  forall done fs fs',
    dirs_to fs done ->
    mkdir_from umask perm done rest fs = (fs', FsOk) ->
    dirs_to fs' (done ++ rest).
Proof.
  induction rest as [|name rest IH]; intros done fs fs' Hd H.
  - injection H as <-. now rewrite app_nil_r.
  - cbn [mkdir_from] in H.
    replace (done ++ name :: rest) with ((done ++ [name]) ++ rest)
      by (now rewrite <- app_assoc).
    assert (Hstep : forall fs0 m,
              (forall q n, fs !! q = Some n -> fs0 !! q = Some n) ->
              fs0 !! (done ++ [name]) = Some (FDir m) ->
              dirs_to fs0 (done ++ [name])).
    { intros fs0 m Hk Hm p Hp Hpre. apply prefix_snoc_inv in Hpre as [->|Hpre]; [eauto|].
      destruct (Hd p Hp Hpre) as [m' Hm']. exists m'. now apply Hk. }
    destruct (fs !! (done ++ [name])) as [[mode c|t|mode]|] eqn:Hp; try discriminate.
    + eapply IH; [|exact H]. eapply Hstep; [|exact Hp]. auto.
    + eapply IH; [|exact H]. eapply Hstep; [|apply lookup_insert_eq].
      intros q n Hq. rewrite lookup_insert_ne; [exact Hq|]. congruence.
Qed.

Lemma MkdirAll_makes_dirs (umask : Z) (fs fs1 : fsys) (dest : path) :
  MkdirAll umask fs dest 493 = (fs1, FsOk) -> dirs_to fs1 dest.
Proof.
  intros H. apply (mkdir_from_makes_dirs umask 493 dest [] fs fs1); [|exact H].
  intros p Hp [k Hk]. destruct p; [contradiction | discriminate].
Qed.

Lemma Dir_snoc (dest : path) (n : string) : Dir (dest ++ [n]) = dest.
Proof. unfold Dir. apply removelast_last. Qed.

Lemma dirs_to_is_dir (fs : fsys) (dest : path) : dirs_to fs dest -> is_dir_at fs dest = true.
Proof.
  intros H. destruct dest as [|x dest]; [reflexivity|].
  destruct (H (x :: dest)) as [m Hm]; [discriminate | reflexivity|].
  eapply is_dir_at_lookup. exact Hm.
Qed.

Lemma MkdirAll_child (umask : Z) (fs : fsys) (dest : path) (n : string) :
  dirs_to fs dest ->
  fs !! (dest ++ [n]) = None ->
  MkdirAll umask fs (dest ++ [n]) 493
  = (<[dest ++ [n] := FDir (Z.ldiff 493 umask)]> fs, FsOk).
Proof.
  intros Hd Hn. unfold MkdirAll. rewrite mkdir_from_app.
  rewrite mkdir_from_dirs_to by exact Hd. cbn [app mkdir_from]. now rewrite Hn.
Qed.

Lemma BackupFile_Restore_fresh (s : Store) (umask : Z) (fs : fsys) (h payload : string)
    (dest : path) (n : string) :
  holds s h payload ->
  dirs_to fs dest ->
  fs !! (dest ++ [n]) = None ->
  BackupFile_Restore s umask fs h (dest ++ [n])
  = (<[dest ++ [n] := FFile (Z.ldiff 438 umask) payload]> fs, RestoreOk).
Proof.
  intros (bytes & Ho & Hg) Hd Hn. unfold BackupFile_Restore.
  rewrite Ho, Hg, Dir_snoc, (MkdirAll_dirs_to umask fs dest Hd).
  unfold os_Create. rewrite Hn, Dir_snoc, (dirs_to_is_dir fs dest Hd).
  destruct (dest ++ [n]) eqn:E; [now destruct dest|]. rewrite <- E.
  unfold write_at. now rewrite lookup_insert_eq, insert_insert_eq.
Qed.

Lemma BackupLink_Restore_fresh (s : Store) (umask : Z) (fs : fsys) (h payload : string)
    (dest : path) (n : string) :
  holds s h payload ->
  payload <> EmptyString ->
  dirs_to fs dest ->
  fs !! (dest ++ [n]) = None ->
  BackupLink_Restore s umask fs h (dest ++ [n])
  = (<[dest ++ [n] := FLink payload]> fs, RestoreOk).
Proof.
  intros (bytes & Ho & Hg) Hne Hd Hn. unfold BackupLink_Restore.
  rewrite Ho, Hg, Dir_snoc, (MkdirAll_dirs_to umask fs dest Hd).
  rewrite os_Lstat_lookup by (now destruct dest).
  rewrite Hn. rewrite bool_decide_eq_false_2 by (intros [x Hx]; discriminate).
  unfold os_Symlink. apply String.eqb_neq in Hne. rewrite Hne.
  rewrite os_Lstat_lookup by (now destruct dest).
  rewrite Hn. rewrite bool_decide_eq_false_2 by (intros [x Hx]; discriminate).
  now rewrite Dir_snoc, (dirs_to_is_dir fs dest Hd).
Qed.

Lemma tree_entries_DirectoryEntry (p : path) (n : string) (m : IgnoreMatcher)
    (es : list Entry) (ig : list IgnoredEntry) :
  tree_entries (DirectoryEntry p n m (Some es) ig)
  = DirectoryEntry p n m (Some es) ig :: flat_map tree_entries es.
Proof.
  reflexivity.
Qed.

Lemma tree_entries_self (e : Entry) : e ∈ tree_entries e.
Proof. destruct e; left. Qed.

Lemma tree_entries_child (p : path) (n : string) (m : IgnoreMatcher)
    (es : list Entry) (ig : list IgnoredEntry) (c x : Entry) :
  c ∈ es -> x ∈ tree_entries c -> x ∈ tree_entries (DirectoryEntry p n m (Some es) ig).
Proof.
  intros Hc Hx. rewrite tree_entries_DirectoryEntry. right.
  apply list_elem_of_In, in_flat_map. exists c. split; now apply list_elem_of_In.
Qed.

Lemma depth_child (p : path) (n : string) (m : IgnoreMatcher)
    (es : list Entry) (ig : list IgnoredEntry) (c : Entry) :
  c ∈ es -> (depth c < depth (DirectoryEntry p n m (Some es) ig))%nat.
Proof.
  cbn [depth]. induction es as [|e es IH]; intros Hc; [now apply elem_of_nil in Hc|].
  apply elem_of_cons in Hc as [->|Hc]; [lia|]. specialize (IH Hc). lia.
Qed.

Lemma find_Name (es : list Entry) (c : Entry) :
  NoDup (Name <$> es) -> c ∈ es ->
  List.find (fun x => String.eqb (Name x) (Name c)) es = Some c.
Proof.
  induction es as [|e es IH]; intros Hnd Hc; [now apply elem_of_nil in Hc|].
  rewrite fmap_cons in Hnd. apply NoDup_cons in Hnd as [Hne Hnd]. cbn [List.find].
  apply elem_of_cons in Hc as [->|Hc]; [now rewrite String.eqb_refl|].
  destruct (String.eqb_spec (Name e) (Name c)) as [E|_]; [|now apply IH].
  exfalso. apply Hne. rewrite E. apply list_elem_of_fmap. now exists c.
Qed.

Lemma NoDup_Name_inj (es : list Entry) (c c' : Entry) :
  NoDup (Name <$> es) -> c ∈ es -> c' ∈ es -> Name c = Name c' -> c = c'.
Proof.
  induction es as [|e es IH]; intros Hnd Hc Hc' E; [now apply elem_of_nil in Hc|].
  rewrite fmap_cons in Hnd. apply NoDup_cons in Hnd as [Hne Hnd].
  apply elem_of_cons in Hc as [->|Hc]; apply elem_of_cons in Hc' as [->|Hc'].
  - reflexivity.
  - exfalso. apply Hne. rewrite E. apply list_elem_of_fmap. now exists c'.
  - exfalso. apply Hne. rewrite <- E. apply list_elem_of_fmap. now exists c.
  - now apply IH.
Qed.

Lemma find_Name_None (es : list Entry) (name : string) :
  name ∉ Name <$> es -> List.find (fun x => String.eqb (Name x) name) es = None.
Proof.
  induction es as [|e es IH]; intros Hn; [reflexivity|]. cbn [List.find].
  rewrite fmap_cons in Hn. apply not_elem_of_cons in Hn as [Hne Hn].
  destruct (String.eqb_spec (Name e) name) as [E|_]; [congruence | now apply IH].
Qed.

Lemma Entries_of_listing (s : Store) (es : list Entry) (text : string) :
  listing_text es = Some text ->
  holds s (md5hex text) text ->
  Forall clean_item (item_of <$> es) ->
  Entries s (md5hex text)
  = EntriesRead {| entries := foldl add_item ∅ (item_of <$> es); warnings := [] |} false.
Proof.
  intros Ht (bytes & Ho & Hg) Hclean. unfold Entries. rewrite Ho, Hg. cbn [scan_stream].
  apply listing_text_print_items in Ht as [-> _].
  rewrite ScanLines_print_items by exact Hclean.
  now rewrite foldl_entries_line by exact Hclean.
Qed.

Lemma elem_of_listing_entries (es : list Entry) (name : string) (entry : BackupEntry) :
  NoDup (Name <$> es) ->
  (name, entry) ∈ map_to_list (foldl add_item ∅ (item_of <$> es)) ->
  exists c, c ∈ es /\ name = Name c /\ entry = backup_of (item_of c).
Proof.
  intros Hnd H.
  rewrite map_to_list_foldl_add_item in H.
  - rewrite map_to_list_empty, app_nil_r in H.
    apply list_elem_of_fmap in H as (it & E & Hit).
    apply list_elem_of_fmap in Hit as (c & -> & Hc).
    injection E as -> ->. now exists c.
  - now rewrite <- list_fmap_compose.
  - intros it _. apply lookup_empty.
Qed.

Lemma listing_entries_elem_of (es : list Entry) (c : Entry) :
  NoDup (Name <$> es) -> c ∈ es ->
  (Name c, backup_of (item_of c)) ∈ map_to_list (foldl add_item ∅ (item_of <$> es)).
Proof.
  intros Hnd Hc. apply elem_of_map_to_list.
  apply (foldl_add_item_lookup (item_of <$> es) (item_of c)).
  - now rewrite <- list_fmap_compose.
  - apply list_elem_of_fmap. now exists c.
Qed.

(** The restore of the entry of [c] into a free place below [dest]
    succeeds, leaves the tree of [c] there and nothing else. *)
Definition restores (s : Store) (umask : Z) (c : Entry) : Prop :=
  forall fuel fs dest,
    (depth c <= fuel)%nat ->
    dirs_to fs dest ->
    (forall q, (dest ++ [Name c]) `prefix_of` q -> fs !! q = None) ->
    exists fs',
      BackupEntry_Restore s umask fuel fs (backup_of (item_of c)) (dest ++ [Name c])
      = Some (fs', TreeOk)
      /\ (forall rel, fs' !! ((dest ++ [Name c]) ++ rel)
                      = restored_node umask <$> subentry c rel)
      /\ (forall q, ~ (dest ++ [Name c]) `prefix_of` q -> fs' !! q = fs !! q).

Lemma snoc_prefix_ne (dest : path) (n1 n2 : string) (q : path) :
  n1 <> n2 -> (dest ++ [n1]) `prefix_of` q -> ~ (dest ++ [n2]) `prefix_of` q.
Proof.
  intros Hne [k1 ->] [k2 H]. rewrite <- !app_assoc in H.
  apply app_inv_head in H. cbn in H. congruence.
Qed.

Lemma restore_entries_ok (s : Store) (umask : Z) (fuel : nat) (dest : path)
    (es : list Entry) :
  NoDup (Name <$> es) ->
  Forall (fun x => plain_name (Name x)) es ->
  (forall c, c ∈ es -> (depth c <= fuel)%nat /\ restores s umask c) ->
  forall l,
    NoDup l.*1 ->
    (forall name entry, (name, entry) ∈ l ->
       exists c, c ∈ es /\ name = Name c /\ entry = backup_of (item_of c)) ->
    forall fs,
      dirs_to fs dest ->
      (forall name entry q,
         (name, entry) ∈ l -> (dest ++ [name]) `prefix_of` q -> fs !! q = None) ->
      exists fs',
        restore_entries (BackupEntry_Restore s umask fuel) dest l fs = Some (fs', TreeOk)
        /\ (forall c rel,
              c ∈ es -> Name c ∈ l.*1 ->
              fs' !! ((dest ++ [Name c]) ++ rel) = restored_node umask <$> subentry c rel)
        /\ (forall q,
              (forall name, name ∈ l.*1 -> ~ (dest ++ [name]) `prefix_of` q) ->
              fs' !! q = fs !! q).
Proof.
  intros Hnd Hplain Hres. induction l as [|[name entry] l IH]; intros Hndl Hl fs Hd Hfresh.
  - exists fs. split; [reflexivity|]. split; [|reflexivity].
    intros c rel _ Hin. cbn in Hin. now apply elem_of_nil in Hin.
  - rewrite fmap_cons in Hndl. cbn [fst] in Hndl. apply NoDup_cons in Hndl as [Hname Hndl].
    destruct (Hl name entry) as (c & Hc & -> & ->); [left|].
    destruct (Hres c Hc) as [Hdepth Hrc].
    assert (Hpl : plain_name (Name c)).
    { rewrite Forall_forall in Hplain. now apply Hplain. }
    destruct (Hrc fuel fs dest Hdepth Hd) as (fs1 & E1 & C1 & F1).
    { intros q Hq. eapply Hfresh; [left | exact Hq]. }
    cbn [restore_entries]. rewrite (Join_name_plain dest (Name c) Hpl), E1.
    assert (Hd1 : dirs_to fs1 dest).
    { intros p Hp Hpre. destruct (Hd p Hp Hpre) as [m Hm]. exists m. rewrite F1; [exact Hm|].
      intros Hq. apply prefix_length in Hq, Hpre. rewrite List.length_app in Hq.
      cbn in Hq. lia. }
    destruct (IH Hndl) with (fs := fs1) as (fs2 & E2 & C2 & F2).
    + intros n e Hin. apply Hl. now right.
    + exact Hd1.
    + intros n e q Hin Hq. rewrite F1.
      * eapply Hfresh; [right; exact Hin | exact Hq].
      * eapply snoc_prefix_ne; [|exact Hq]. intros ->. apply Hname.
        apply list_elem_of_fmap. now exists (Name c, e).
    + exists fs2. split; [exact E2|]. split.
      * intros c' rel Hc' Hin. rewrite fmap_cons in Hin. cbn [fst] in Hin.
        apply elem_of_cons in Hin as [E|Hin]; [|now apply C2].
        assert (c' = c) as -> by (now apply (NoDup_Name_inj es)).
        rewrite F2; [apply C1|].
        intros n Hn. apply snoc_prefix_ne with (n1 := Name c).
        -- intros <-. contradiction.
        -- now exists rel.
      * intros q Hq. rewrite F2.
        -- apply F1. apply Hq. rewrite fmap_cons. left.
        -- intros n Hn. apply Hq. rewrite fmap_cons. now right.
Qed.

Lemma restore_directory_ok (s : Store) (umask : Z) (p : path) (n : string)
    (m : IgnoreMatcher) (es : list Entry) (ig : list IgnoredEntry) (text : string) :
  listing_text es = Some text ->
  holds s (md5hex text) text ->
  Forall clean_item (item_of <$> es) ->
  NoDup (Name <$> es) ->
  Forall (fun x => plain_name (Name x)) es ->
  (forall c, c ∈ es -> restores s umask c) ->
  forall fuel fs fs1 dest,
    (depth (DirectoryEntry p n m (Some es) ig) <= fuel)%nat ->
    MkdirAll umask fs dest 493 = (fs1, FsOk) ->
    (forall q, dest `prefix_of` q -> q <> dest -> fs1 !! q = None) ->
    exists fs',
      BackupDirectory_Restore s umask fuel fs (md5hex text) dest = Some (fs', TreeOk)
      /\ (forall rel, rel <> [] ->
            fs' !! (dest ++ rel)
            = restored_node umask <$> subentry (DirectoryEntry p n m (Some es) ig) rel)
      /\ (forall q, ~ (dest `prefix_of` q /\ q <> dest) -> fs' !! q = fs1 !! q).
Proof.
  intros Ht Hh Hclean Hnd Hplain Hres fuel fs fs1 dest Hfuel Hmk Hfresh.
  destruct fuel as [|fuel].
  { exfalso. cbn [depth] in Hfuel. lia. }
  assert (Hbelow : forall name q, (dest ++ [name]) `prefix_of` q ->
            dest `prefix_of` q /\ q <> dest).
  { intros name q [k ->]. split.
    - exists ([name] ++ k). now rewrite app_assoc.
    - intros E. apply (f_equal (@length _)) in E. rewrite !List.length_app in E.
      cbn in E. lia. }
  set (l := map_to_list (foldl add_item ∅ (item_of <$> es))).
  destruct (restore_entries_ok s umask fuel dest es Hnd Hplain) with (l := l) (fs := fs1)
    as (fs' & E & C & F).
  - intros c Hc. split; [|now apply Hres].
    pose proof (depth_child p n m es ig c Hc). lia.
  - apply NoDup_fst_map_to_list.
  - intros name entry Hin. now apply elem_of_listing_entries.
  - eapply MkdirAll_makes_dirs. exact Hmk.
  - intros name entry q _ Hq. destruct (Hbelow name q Hq). now apply Hfresh.
  - exists fs'. split; [|split].
    + cbn [BackupDirectory_Restore]. rewrite (Entries_of_listing s es text Ht Hh Hclean).
      cbn [entries]. rewrite Hmk. exact E.
    + intros rel Hrel. destruct rel as [|name rel]; [contradiction|].
      replace (dest ++ name :: rel) with ((dest ++ [name]) ++ rel)
        by (now rewrite <- app_assoc).
      cbn [subentry].
      destruct (decide (name ∈ Name <$> es)) as [Hin|Hnin].
      * apply list_elem_of_fmap in Hin as (c & -> & Hc).
        rewrite (find_Name es c Hnd Hc). apply C; [exact Hc|].
        apply list_elem_of_fmap. exists (Name c, backup_of (item_of c)).
        split; [reflexivity|]. now apply listing_entries_elem_of.
      * rewrite (find_Name_None es name Hnin). cbn. rewrite F.
        -- apply Hfresh; apply (Hbelow name); now exists rel.
        -- intros name' Hin'. apply list_elem_of_fmap in Hin' as ([n' e'] & -> & Hin').
           apply elem_of_listing_entries in Hin' as (c & Hc & -> & _); [|exact Hnd].
           cbn [fst]. intros Hq. revert Hq. apply snoc_prefix_ne with (n1 := name).
           ++ intros ->. apply Hnin. apply list_elem_of_fmap. now exists c.
           ++ now exists rel.
    + intros q Hq. apply F. intros name _ Hpre. apply Hq. now apply (Hbelow name).
Qed.

Lemma stored_restores (s : Store) (umask : Z) (e : Entry) :
  stored s e -> well_named e -> restores s umask e.
Proof.
  induction e as [p n h r b | p n t h | p n m ig | p n m es ig IH] using Entry_ind';
    intros Hs Hw.
  - destruct (Hs _ (tree_entries_self _)) as (h' & payload & [= <-] & [= <-] & Hh).
    intros fuel fs dest _ Hd Hfresh. cbn [Name] in *.
    exists (<[dest ++ [n] := FFile (Z.ldiff 438 umask) b]> fs). split; [|split].
    + cbn. rewrite (BackupFile_Restore_fresh s umask fs h b dest n Hh Hd); [reflexivity|].
      apply Hfresh. reflexivity.
    + intros [|x rel].
      * rewrite app_nil_r. now rewrite lookup_insert_eq.
      * rewrite lookup_insert_ne.
        -- cbn. apply Hfresh. now exists (x :: rel).
        -- intros E. apply (f_equal (@length _)) in E. rewrite !List.length_app in E.
           cbn in E. lia.
    + intros q Hq. apply lookup_insert_ne. intros <-. apply Hq. reflexivity.
  - destruct (Hs _ (tree_entries_self _)) as (h' & payload & [= <-] & [= <-] & Hh).
    pose proof (Hw _ (tree_entries_self _)) as Hne. cbn in Hne.
    intros fuel fs dest _ Hd Hfresh. cbn [Name] in *.
    exists (<[dest ++ [n] := FLink t]> fs). split; [|split].
    + cbn. rewrite (BackupLink_Restore_fresh s umask fs h t dest n Hh Hne Hd); [reflexivity|].
      apply Hfresh. reflexivity.
    + intros [|x rel].
      * rewrite app_nil_r. now rewrite lookup_insert_eq.
      * rewrite lookup_insert_ne.
        -- cbn. apply Hfresh. now exists (x :: rel).
        -- intros E. apply (f_equal (@length _)) in E. rewrite !List.length_app in E.
           cbn in E. lia.
    + intros q Hq. apply lookup_insert_ne. intros <-. apply Hq. reflexivity.
  - destruct (Hs _ (tree_entries_self _)) as (h' & payload & _ & Hp & _). discriminate.
  - destruct (Hs _ (tree_entries_self _)) as (h & text & Hh & Ht & Hholds).
    cbn in Ht. rewrite Hash_DirectoryEntry, Ht in Hh. injection Hh as <-.
    destruct (Hw _ (tree_entries_self _)) as (Hnd & Hplain & Hclean).
    assert (Hres : forall c, c ∈ es -> restores s umask c).
    { intros c Hc. rewrite Forall_forall in IH. apply (IH c Hc).
      - intros x Hx. apply Hs. eapply tree_entries_child; eassumption.
      - intros x Hx. apply Hw. eapply tree_entries_child; eassumption. }
    intros fuel fs dest Hfuel Hd Hfresh. cbn [Name] in *.
    destruct (restore_directory_ok s umask p n m es ig text Ht Hholds Hclean Hnd Hplain Hres
                fuel fs (<[dest ++ [n] := FDir (Z.ldiff 493 umask)]> fs) (dest ++ [n]) Hfuel)
      as (fs' & E & C & F).
    + apply MkdirAll_child; [exact Hd|]. apply Hfresh. reflexivity.
    + intros q Hq Hne. rewrite lookup_insert_ne by congruence. now apply Hfresh.
    + exists fs'. split; [|split].
      * unfold item_of, hash_or_empty. rewrite Hash_DirectoryEntry, Ht. exact E.
      * intros [|x rel].
        -- rewrite app_nil_r. rewrite F by (intros [_ Hq]; now apply Hq).
           now rewrite lookup_insert_eq.
        -- now apply C.
      * intros q Hq. rewrite F by (intros [Hpre _]; now apply Hq).
        apply lookup_insert_ne. intros <-. apply Hq. reflexivity.
Qed.

(** X19.  A restore brings back the tree that the store holds.  When the
    blob of every entry of a tree opens and decompresses to the bytes of
    that entry, the names below every directory are distinct plain path
    elements, no link target is empty, [os.MkdirAll] of the destination
    succeeds and nothing lies below the destination, [Restore] of the
    directory returns no error; afterwards the destination holds, at the
    path of every entry of the tree, a file with the bytes of the file entry
    and the bits [0666 &^ umask], a link with the target of the link entry,
    or a directory with the bits [0755 &^ umask], nothing else lies below
    the destination, and every path that is not below it is as [MkdirAll]
    left it. *)
Theorem Restore_brings_back_the_tree (s : Store) (umask : Z) (p : path) (n : string)
    (m : IgnoreMatcher) (es : list Entry) (ig : list IgnoredEntry) (h : string)
    (fuel : nat) (fs fs1 : fsys) (dest : path) :
  stored s (DirectoryEntry p n m (Some es) ig) ->
  well_named (DirectoryEntry p n m (Some es) ig) ->
  Hash (DirectoryEntry p n m (Some es) ig) = Some h ->
  (depth (DirectoryEntry p n m (Some es) ig) <= fuel)%nat ->
  MkdirAll umask fs dest 493 = (fs1, FsOk) ->
  (forall q, dest `prefix_of` q -> q <> dest -> fs1 !! q = None) ->
  exists fs',
    BackupDirectory_Restore s umask fuel fs h dest = Some (fs', TreeOk)
    /\ (forall rel, rel <> [] ->
          fs' !! (dest ++ rel)
          = restored_node umask <$> subentry (DirectoryEntry p n m (Some es) ig) rel)
    /\ (forall q, ~ (dest `prefix_of` q /\ q <> dest) -> fs' !! q = fs1 !! q).
Proof.
  intros Hs Hw Hh Hfuel Hmk Hfresh.
  destruct (Hs _ (tree_entries_self _)) as (h' & text & Hh' & Ht & Hholds).
  rewrite Hh in Hh'. injection Hh' as <-.
  cbn in Ht. rewrite Hash_DirectoryEntry, Ht in Hh. injection Hh as <-.
  destruct (Hw _ (tree_entries_self _)) as (Hnd & Hplain & Hclean).
  apply (restore_directory_ok s umask p n m es ig text Ht Hholds Hclean Hnd Hplain);
    try assumption.
  intros c Hc. apply stored_restores.
  - intros x Hx. apply Hs. eapply tree_entries_child; eassumption.
  - intros x Hx. apply Hw. eapply tree_entries_child; eassumption.
Qed.
End Engine.

(* ===================================================================== *)
(** ** The engine run on the concrete stores                              *)
(* ===================================================================== *)

(** C1.  A head written directly under [snapshots/] (a source without a
    project name) is not enumerated by [AllBackupRoots]: nothing is
    reachable, the blob of that snapshot is reported unreferenced, and
    [Prune] deletes it.  The same head inside a project directory is
    enumerated and keeps its blob. *)
Theorem legacy_head_not_enumerated :
  AllBackupRoots Scenario.legacy_store = []
  /\ GetReachableBlobs Demo.gunzip Scenario.legacy_store = TrOk empty_reach
  /\ FindUnreferenced Demo.gunzip Scenario.legacy_store
     = Found [Scenario.empty_digest]
  /\ (exists s' stats,
        Prune Demo.gunzip false Scenario.legacy_store = Some (s', stats, None)
        /\ stat_blob s' Scenario.empty_digest = None
        /\ BlobsRemoved stats = 1)
  /\ hash <$> AllBackupRoots Scenario.project_store = [Scenario.empty_digest]
  /\ FindUnreferenced Demo.gunzip Scenario.project_store = Found [].
Proof.
  split; [vm_compute; reflexivity|].
  split; [vm_compute; reflexivity|].
  split; [vm_compute; reflexivity|].
  split; [|split; vm_compute; reflexivity].
  eexists _, _. split; [vm_compute; reflexivity|].
  split; vm_compute; reflexivity.
Qed.

(** C8, counterexample.  On a listing with a line of 12 bytes the snapshot
    reader prints a warning for that line, and the reachability traversal
    passes over the same line without a warning. *)
Lemma traversal_skips_silently :
  Entries Demo.gunzip Scenario.ragged_store Scenario.dir_digest
  = EntriesRead
      {| entries := {[ "a.txt" := BackupFile Scenario.file_digest "a.txt" ]};
         warnings := [WarnInvalidEntry "F 49f6 b.txt"] |} false
  /\ traverseReachable Demo.gunzip Scenario.ragged_store 1 Scenario.dir_digest
       empty_reach
     = TrOk {| reachable := {[ Scenario.file_digest ]};
               visitedDirs := {[ Scenario.dir_digest ]};
               reach_warnings := [] |}.
Proof. split; vm_compute; reflexivity. Qed.

(** C6, counterexample.  A child named [.backup] that is a symbolic link is
    not skipped: it becomes a link entry of the listing.  A [.backup]
    directory that an ignore pattern matches is not skipped before the
    patterns are evaluated: it is recorded as ignored. *)
Lemma dot_backup_is_not_skipped_first :
  fst (NewDirectoryEntry Demo.md5hex Demo.path_Match Scenario.top
         Scenario.linked_config ∅ Scenario.top nil_matcher)
  = DirectoryEntry Scenario.top "src" (MkMatcher [] nil_matcher Scenario.top)
      (Some [LinkEntry (Scenario.top ++ [".backup"]) ".backup" "/mnt/config"
               (Demo.md5hex "/mnt/config")])
      []
  /\ (exists m pat,
        fst (NewDirectoryEntry Demo.md5hex Demo.path_Match Scenario.top
               Scenario.dotfiles_ignored ∅ Scenario.top nil_matcher)
        = DirectoryEntry Scenario.top "src" m (Some [])
            [ {| Path := Scenario.top ++ [".backup"]; IgnoredName := ".backup";
                 Reason := Some pat |};
              {| Path := Scenario.top ++ [".gitignore"]; IgnoredName := ".gitignore";
                 Reason := Some pat |} ]).
Proof.
  split; [vm_compute; reflexivity|].
  eexists _, _. vm_compute. reflexivity.
Qed.

Lemma Demo_gunzip_gzip (payload : string) :
  Demo.gunzip (Demo.gzip payload) = GzOk payload.
Proof. destruct payload; reflexivity. Qed.

(** C3, counterexample.  A file whose name ends in a carriage return is
    listed with that byte; the scanner of the reader drops it, so the
    listing that is read back names another file and its re-serialization
    is not the stored payload. *)
Lemma carriage_return_name_is_not_canonical :
  exists d hc st text h m,
    NewDirectoryEntry Demo.md5hex Demo.path_Match Scenario.top
      Scenario.cr_source ∅ Scenario.top nil_matcher = (d, hc)
    /\ Save Demo.gzip Demo.md5hex false d Scenario.empty_state = (st, None)
    /\ ContentAsText Demo.md5hex d = Some text
    /\ Hash Demo.md5hex d = Some h
    /\ Entries Demo.gunzip (store st) h
       = EntriesRead {| entries := m; warnings := [] |} false
    /\ m !! "a" = Some (BackupFile (Demo.md5hex "hi") "a")
    /\ reserialize m <> text.
Proof.
  eexists _, _, _, _, _, _.
  split; [vm_compute; reflexivity|].
  split; [vm_compute; reflexivity|].
  split; [vm_compute; reflexivity|].
  split; [vm_compute; reflexivity|].
  split; [vm_compute; reflexivity|].
  split; [vm_compute; reflexivity|].
  vm_compute. discriminate.
Qed.

(** C3, witness.  The source of the first scenario is saved into an empty
    store; its root listing is read back without a warning and
    re-serializes to the stored text. *)
Lemma listing_canonical_witness :
  exists text m',
    ContentAsText Demo.md5hex
      (fst (NewDirectoryEntry Demo.md5hex Demo.path_Match Scenario.top
              Scenario.small_source ∅ Scenario.top nil_matcher)) = Some text
    /\ Entries Demo.gunzip
         (store (fst (Save Demo.gzip Demo.md5hex false
                        (fst (NewDirectoryEntry Demo.md5hex Demo.path_Match Scenario.top
                                Scenario.small_source ∅ Scenario.top nil_matcher))
                        Scenario.empty_state)))
         (Demo.md5hex text)
       = EntriesRead {| entries := m'; warnings := [] |} false
    /\ reserialize m' = text.
Proof.
  pose proof (listing_canonical Demo.gunzip Demo.gzip Demo.md5hex Demo.path_Match
                Scenario.top Scenario.small_source ∅ Scenario.top nil_matcher) as H.
  remember (fst (NewDirectoryEntry Demo.md5hex Demo.path_Match Scenario.top
                   Scenario.small_source ∅ Scenario.top nil_matcher)) as d eqn:Ed.
  vm_compute in Ed. subst d. cbn beta iota zeta in H.
  destruct H as (_ & _ & _ & _ & H).
  match goal with
  | |- exists text m', ContentAsText _ ?d = Some text /\ Entries _ ?s _ = _ /\ _ =>
      let t := eval vm_compute in (ContentAsText Demo.md5hex d) in
      lazymatch t with
      | Some ?text =>
          destruct (H text s) as (m' & He & _ & Hr);
          [ vm_compute; reflexivity
          | cbn [fmap list_fmap];
            repeat (apply List.Forall_cons; [vm_compute; intuition congruence|]);
            apply List.Forall_nil
          | apply (bool_decide_unpack _); vm_compute; exact I
          | apply Demo_gunzip_gzip
          | vm_compute; reflexivity
          | exists text, m'; split; [vm_compute; reflexivity | split; assumption] ]
      end
  end.
Defined.






(** C7, counterexample.  With the umask [0002] a restored file that was not
    there has the bits [0664], and with the umask [0022] a file that was
    there with the bits [0755] keeps them: neither is [0644]. *)
Lemma restored_file_mode_is_not_0644 :
  BackupFile_Restore Demo.gunzip Scenario.file_store 2 ∅ Scenario.hi_digest
    ["out"; "a.txt"]
  = ({[ ["out"] := FDir 493; ["out"; "a.txt"] := FFile 436 "hi" ]}, RestoreOk)
  /\ BackupFile_Restore Demo.gunzip Scenario.file_store 18
       {[ ["a.txt"] := FFile 493 "old" ]} Scenario.hi_digest ["a.txt"]
     = ({[ ["a.txt"] := FFile 493 "hi" ]}, RestoreOk)
  /\ 436 <> 420 /\ 493 <> 420.
Proof.
  split; [vm_compute; reflexivity|].
  split; [vm_compute; reflexivity|].
  split; discriminate.
Qed.

(** C7, witness.  With the umask [0022] the blob of [hi] is restored below a
    directory that is not there yet: as a file with the bits [0644], and as a
    link with the target [hi] in the place of a file. *)
Lemma Restore_file_and_link_witness :
  BackupFile_Restore Demo.gunzip Scenario.file_store 18 ∅ Scenario.hi_digest
    ["out"; "a.txt"]
  = ({[ ["out"] := FDir 493; ["out"; "a.txt"] := FFile 420 "hi" ]}, RestoreOk)
  /\ BackupLink_Restore Demo.gunzip Scenario.file_store 18
       {[ ["out"] := FDir 493; ["out"; "a.txt"] := FFile 420 "old" ]}
       Scenario.hi_digest ["out"; "a.txt"]
     = ({[ ["out"] := FDir 493; ["out"; "a.txt"] := FLink "hi" ]}, RestoreOk).
Proof.
  split.
  - destruct (Restore_file_and_link Demo.gunzip Scenario.file_store 18 ∅
                {[ ["out"] := FDir 493 ]} Scenario.hi_digest ["out"; "a.txt"]
                (Demo.gzip "hi") "hi"
                ltac:(discriminate) ltac:(vm_compute; reflexivity)
                ltac:(vm_compute; reflexivity) ltac:(vm_compute; reflexivity))
      as (_ & _ & _ & H & _).
    rewrite H. vm_compute. reflexivity.
  - destruct (Restore_file_and_link Demo.gunzip Scenario.file_store 18
                {[ ["out"] := FDir 493; ["out"; "a.txt"] := FFile 420 "old" ]}
                {[ ["out"] := FDir 493; ["out"; "a.txt"] := FFile 420 "old" ]}
                Scenario.hi_digest ["out"; "a.txt"] (Demo.gzip "hi") "hi"
                ltac:(discriminate) ltac:(vm_compute; reflexivity)
                ltac:(vm_compute; reflexivity) ltac:(vm_compute; reflexivity))
      as (_ & _ & _ & _ & _ & H).
    rewrite H by discriminate. vm_compute. reflexivity.
Defined.

(** C5, witness.  With the patterns [*.log] and [!keep.log] of one ignore
    file, [keep.log] is included by the negation, the last pattern that
    matches it, and [x.log] is ignored by the first. *)
Lemma Match_last_pattern_wins_witness :
  Match Demo.path_Match
    (loadFile (NewIgnoreMatcher Scenario.top nil_matcher) ".gitignore"
       ("*.log" +:+ Scenario.nl +:+ "!keep.log" +:+ Scenario.nl))
    (Scenario.top ++ ["keep.log"]) false
  = (false, Some {| raw := "!keep.log"; pattern := "keep.log"; isNegation := true;
                    isDirOnly := false; isRooted := false; Source := ".gitignore" |})
  /\ Match Demo.path_Match
       (loadFile (NewIgnoreMatcher Scenario.top nil_matcher) ".gitignore"
          ("*.log" +:+ Scenario.nl +:+ "!keep.log" +:+ Scenario.nl))
       (Scenario.top ++ ["x.log"]) false
     = (true, Some {| raw := "*.log"; pattern := "*.log"; isNegation := false;
                      isDirOnly := false; isRooted := false; Source := ".gitignore" |}).
Proof.
  split.
  - destruct (Match_last_pattern_wins Demo.path_Match
                (loadFile (NewIgnoreMatcher Scenario.top nil_matcher) ".gitignore"
                   ("*.log" +:+ Scenario.nl +:+ "!keep.log" +:+ Scenario.nl))
                (Scenario.top ++ ["keep.log"]) false) as (H & _).
    apply (H [ {| raw := "*.log"; pattern := "*.log"; isNegation := false;
                  isDirOnly := false; isRooted := false; Source := ".gitignore" |} ]
             {| raw := "!keep.log"; pattern := "keep.log"; isNegation := true;
                isDirOnly := false; isRooted := false; Source := ".gitignore" |}
             []).
    + vm_compute. reflexivity.
    + vm_compute. reflexivity.
    + intros q Hq. now apply elem_of_nil in Hq.
  - destruct (Match_last_pattern_wins Demo.path_Match
                (loadFile (NewIgnoreMatcher Scenario.top nil_matcher) ".gitignore"
                   ("*.log" +:+ Scenario.nl +:+ "!keep.log" +:+ Scenario.nl))
                (Scenario.top ++ ["x.log"]) false) as (H & _).
    apply (H []
             {| raw := "*.log"; pattern := "*.log"; isNegation := false;
                isDirOnly := false; isRooted := false; Source := ".gitignore" |}
             [ {| raw := "!keep.log"; pattern := "keep.log"; isNegation := true;
                  isDirOnly := false; isRooted := false; Source := ".gitignore" |} ]).
    + vm_compute. reflexivity.
    + vm_compute. reflexivity.
    + intros q Hq. apply list_elem_of_singleton in Hq. subst q. vm_compute. reflexivity.
Defined.

(** C6, witness.  A [.backup] directory under a matcher without patterns is
    skipped, and a [.backup] symbolic link under the same matcher becomes a
    link entry. *)
Lemma scan_child_order_witness :
  scan_child Demo.md5hex Demo.path_Match
    (NewDirectoryEntry Demo.md5hex Demo.path_Match Scenario.top)
    Scenario.top (NewIgnoreMatcher Scenario.top nil_matcher) Scenario.top ∅
    ".backup" (NDir true [])
  = StepSkip
  /\ scan_child Demo.md5hex Demo.path_Match
       (NewDirectoryEntry Demo.md5hex Demo.path_Match Scenario.top)
       Scenario.top (NewIgnoreMatcher Scenario.top nil_matcher) Scenario.top ∅
       ".backup" (NSymlink "/mnt/config")
     = StepEntry (LinkEntry (Scenario.top ++ [".backup"]) ".backup" "/mnt/config"
                    (Demo.md5hex "/mnt/config")) ∅.
Proof.
  split.
  - destruct (scan_child_order Demo.md5hex Demo.path_Match
                (NewDirectoryEntry Demo.md5hex Demo.path_Match Scenario.top)
                Scenario.top (NewIgnoreMatcher Scenario.top nil_matcher) Scenario.top ∅
                ".backup" (NDir true [])) as (_ & _ & H & _).
    apply (H None); reflexivity.
  - destruct (scan_child_order Demo.md5hex Demo.path_Match
                (NewDirectoryEntry Demo.md5hex Demo.path_Match Scenario.top)
                Scenario.top (NewIgnoreMatcher Scenario.top nil_matcher) Scenario.top ∅
                ".backup" (NSymlink "/mnt/config")) as (_ & H & _).
    apply (H None); reflexivity.
Defined.

(** C8, witness.  The reader warns about the short line [F 49f6 b.txt] and
    takes the three fields of a well-formed line at their offsets. *)
Lemma directory_line_parsing_witness :
  entries_line {| entries := ∅; warnings := [] |} "F 49f6 b.txt"
  = {| entries := ∅; warnings := [WarnInvalidEntry "F 49f6 b.txt"] |}
  /\ entries_line {| entries := ∅; warnings := [] |}
       "F 49f68a5c8493ec2c0bf489821c21fc3b a.txt"
     = {| entries := {[ "a.txt" := BackupFile Scenario.file_digest "a.txt" ]};
          warnings := [] |}.
Proof.
  destruct (directory_line_parsing Demo.gunzip) as (Hshort & _ & Hok & _).
  split.
  - rewrite Hshort by (vm_compute; lia). reflexivity.
  - rewrite Hok by (vm_compute; first [lia | reflexivity]). vm_compute. reflexivity.
Defined.

(** C10, witness.  A directory that cannot be listed is saved into the empty
    store as the empty listing. *)
Lemma unreadable_directory_is_empty_witness :
  exists m st',
    NewDirectoryEntry Demo.md5hex Demo.path_Match Scenario.top
      (NDir false [("a.txt", NFile 1 true "hi")]) ∅ Scenario.top nil_matcher
    = (DirectoryEntry Scenario.top "src" m (Some []) [], ∅)
    /\ Save Demo.gzip Demo.md5hex false
         (DirectoryEntry Scenario.top "src" m (Some []) []) Scenario.empty_state
       = (st', None)
    /\ is_Some (stat_blob (store st') (Demo.md5hex EmptyString)).
Proof.
  destruct (unreadable_directory_is_empty Demo.gzip Demo.md5hex Demo.path_Match
              Scenario.top [("a.txt", NFile 1 true "hi")] ∅ Scenario.top nil_matcher)
    as (m & Hnew & _ & _ & _ & _ & Hsave).
  destruct (Hsave Scenario.empty_state "00" "00000000000000000000000000000000.gz")
    as (st' & Hs & Hb); [vm_compute; reflexivity | vm_compute; discriminate |].
  exists m, st'. split; [exact Hnew|]. split; [exact Hs | exact Hb].
Defined.

(* --------------------------------------------------------------------- *)
(** *** The heads of a project                                            *)
(* --------------------------------------------------------------------- *)









(* ===================================================================== *)
(** ** The properties on concrete stores                                  *)
(* ===================================================================== *)

(** In the store with the blob of [hi], the digest is found again from its
    path and is listed by [GetAllBlobs]. *)
Lemma DataStore_round_trip_witness :
  TrimSuffix (Scenario.hi_digest +:+ ".gz") ".gz" = Scenario.hi_digest
  /\ Scenario.hi_digest ∈ GetAllBlobs Scenario.file_store.
Proof.
  destruct (DataStore_round_trip Scenario.file_store Scenario.hi_digest Scenario.hi_digest
              "00" (Scenario.hi_digest +:+ ".gz") (Scenario.blob "hi")
              ltac:(vm_compute; reflexivity) ltac:(vm_compute; reflexivity))
    as (_ & _ & _ & H1 & H2).
  split; [exact H1 | exact H2].
Defined.

(** The deep check of the healthy snapshot of one file finds nothing, and
    the blob of the file decodes to a payload with the digest of its name. *)
Lemma deep_check_vouches_witness :
  FindUnreferenced Demo.gunzip Scenario.one_file_store = Found []
  /\ exists f payload,
       stat_blob Scenario.one_file_store Scenario.hi_digest = Some f
       /\ Demo.gunzip (bbytes f) = GzOk payload
       /\ Demo.md5hex payload = Scenario.hi_digest.
Proof.
  assert (Hr : BackupRoots Scenario.one_file_store "proj"
               = Some (default [] (BackupRoots Scenario.one_file_store "proj")))
    by (vm_compute; reflexivity).
  assert (Hroots : root_hashes Scenario.one_file_store
                     (default [] (BackupRoots Scenario.one_file_store "proj"))
                   = [Scenario.one_file_digest]) by (vm_compute; reflexivity).
  assert (Hc : check_children Demo.gunzip Scenario.one_file_store Scenario.one_file_digest
               = ["F " +:+ Scenario.hi_digest +:+ " a.txt"]) by (vm_compute; reflexivity).
  destruct (deep_check_vouches Demo.gunzip Demo.gzip Demo.md5hex Demo.path_Match
              Scenario.one_file_store "proj" false
              (default [] (BackupRoots Scenario.one_file_store "proj"))
              Scenario.hi_digest Hr ltac:(vm_compute; reflexivity))
    as (H1 & _ & [H2|(f & payload & H2 & _ & _ & H3 & H4)]).
  - rewrite Hroots.
    apply (verified_child Demo.gunzip Scenario.one_file_store [Scenario.one_file_digest]
             Scenario.one_file_digest ("F " +:+ Scenario.hi_digest +:+ " a.txt")).
    + apply traversed_root; [apply list_elem_of_here | vm_compute; discriminate].
    + rewrite Hc. apply list_elem_of_here.
  - vm_compute in H2. discriminate.
  - split; [exact H1|]. exists f, payload. split; [exact H2 | split; [exact H3 | exact H4]].
Defined.

(** Two files scanned in either order give the same listing. *)
Lemma listing_order_independent_witness :
  listing_text Demo.md5hex
    (sort_entries Demo.md5hex
       [FileEntry (Scenario.top ++ ["b.txt"]) "b.txt" Scenario.hi_digest true "hi";
        FileEntry (Scenario.top ++ ["a.txt"]) "a.txt" Scenario.hi_digest true "hi"])
  = listing_text Demo.md5hex
      (sort_entries Demo.md5hex
         [FileEntry (Scenario.top ++ ["a.txt"]) "a.txt" Scenario.hi_digest true "hi";
          FileEntry (Scenario.top ++ ["b.txt"]) "b.txt" Scenario.hi_digest true "hi"]).
Proof.
  destruct (listing_order_independent Demo.gunzip Demo.gzip Demo.md5hex Demo.path_Match
              [FileEntry (Scenario.top ++ ["b.txt"]) "b.txt" Scenario.hi_digest true "hi";
               FileEntry (Scenario.top ++ ["a.txt"]) "a.txt" Scenario.hi_digest true "hi"]
              [FileEntry (Scenario.top ++ ["a.txt"]) "a.txt" Scenario.hi_digest true "hi";
               FileEntry (Scenario.top ++ ["b.txt"]) "b.txt" Scenario.hi_digest true "hi"]
              Scenario.top "src" nil_matcher [] (perm_swap _ _ _)) as (_ & H & _).
  exact H.
Defined.


(** The traversal of the one-file store marks the blob of the file exactly
    when the listing of the root leads to it. *)
Lemma reachable_is_closure_witness :
  exists st,
    GetReachableBlobs Demo.gunzip Scenario.one_file_store = TrOk st
    /\ (Scenario.hi_digest ∈ reachable st
        <-> reach Demo.gunzip Scenario.one_file_store
              (hash <$> AllBackupRoots Scenario.one_file_store) Scenario.hi_digest).
Proof.
  destruct (GetReachableBlobs Demo.gunzip Scenario.one_file_store) as [|e|st] eqn:E.
  - vm_compute in E. discriminate.
  - vm_compute in E. discriminate.
  - exists st. split; [reflexivity|].
    exact (proj1 (reachable_is_closure Demo.gunzip Demo.gzip Demo.md5hex Demo.path_Match
                    Scenario.one_file_store st Scenario.hi_digest E)).
Defined.

(** The entry [a.txt] read from the root listing of the one-file store is
    reachable. *)
Lemma Entries_are_reachable_witness :
  reach Demo.gunzip Scenario.one_file_store [Scenario.one_file_digest] Scenario.hi_digest
  /\ String.length Scenario.hi_digest = 32%nat.
Proof.
  assert (HE : Entries Demo.gunzip Scenario.one_file_store Scenario.one_file_digest
               = EntriesRead {| entries := {[ "a.txt" := BackupFile Scenario.hi_digest "a.txt" ]};
                                warnings := [] |} false)
    by (vm_compute; reflexivity).
  destruct (Entries_are_reachable Demo.gunzip Scenario.one_file_store
              [Scenario.one_file_digest] Scenario.one_file_digest "a.txt" _ false
              (BackupFile Scenario.hi_digest "a.txt")
              (dir_reach_root _ _ _ _ (list_elem_of_here _ _)) HE
              ltac:(vm_compute; reflexivity))
    as (_ & _ & H1 & H2 & _).
  split; [exact H2 | exact H1].
Defined.


(** A directory with one file saved into the empty store is reported as
    saved. *)
Lemma saved_directory_is_reported_witness :
  AllFilesContentIsSaved Demo.md5hex
    (store (fst (Save Demo.gzip Demo.md5hex false
                   (DirectoryEntry Scenario.top "src" nil_matcher
                      (Some [FileEntry (Scenario.top ++ ["a.txt"]) "a.txt"
                               Scenario.hi_digest true "hi"]) [])
                   Scenario.empty_state)))
    (DirectoryEntry Scenario.top "src" nil_matcher
       (Some [FileEntry (Scenario.top ++ ["a.txt"]) "a.txt" Scenario.hi_digest true "hi"]) [])
  = Some true.
Proof.
  refine (proj1 (saved_directory_is_reported Demo.gzip Demo.md5hex
                   Scenario.top "src" nil_matcher
                   [FileEntry (Scenario.top ++ ["a.txt"]) "a.txt" Scenario.hi_digest true "hi"]
                   [] Scenario.empty_state _ _ _ (fun h H => H))).
  vm_compute. reflexivity.
Defined.

(** The directory of the one-file store is saved again without a change
    of the store. *)
Lemma reported_directory_is_saved_witness :
  exists st',
    Save Demo.gzip Demo.md5hex false
      (DirectoryEntry Scenario.top "src" nil_matcher
         (Some [FileEntry (Scenario.top ++ ["a.txt"]) "a.txt" Scenario.hi_digest true "hi"]) [])
      {| store := Scenario.one_file_store; Stats := Stats Scenario.empty_state |}
    = (st', None)
    /\ store st' = Scenario.one_file_store.
Proof.
  destruct (reported_directory_is_saved Demo.gzip Demo.md5hex Scenario.one_file_store
              (DirectoryEntry Scenario.top "src" nil_matcher
                 (Some [FileEntry (Scenario.top ++ ["a.txt"]) "a.txt"
                          Scenario.hi_digest true "hi"]) [])
              Scenario.one_file_digest) as (_ & H).
  - intros h'. unfold under_stray. destruct (DataStore h') as [[shard file]|]; [|reflexivity].
    destruct (StoreData Scenario.one_file_store !! shard) as [[files|]|] eqn:E;
      try reflexivity.
    unfold Scenario.one_file_store in E. cbn [StoreData] in E.
    apply lookup_insert_Some in E as [[_ E]|[_ E]]; [discriminate|].
    apply lookup_singleton_Some in E as [_ E]. discriminate.
  - vm_compute. reflexivity.
  - vm_compute. reflexivity.
  - eexists. vm_compute. reflexivity.
  - exact (H false (Stats Scenario.empty_state)).
Defined.

(** The deep check of the healthy one-file store returns no error. *)
Lemma healthy_store_passes_witness :
  Verify Demo.gunzip Demo.md5hex Scenario.one_file_store "proj" false true = Some [].
Proof.
  assert (Hroots : root_hashes Scenario.one_file_store
                     (default [] (BackupRoots Scenario.one_file_store "proj"))
                   = [Scenario.one_file_digest]) by (vm_compute; reflexivity).
  assert (Hc : check_children Demo.gunzip Scenario.one_file_store Scenario.one_file_digest
               = ["F " +:+ Scenario.hi_digest +:+ " a.txt"]) by (vm_compute; reflexivity).
  assert (Ht : forall d,
             traversed_from Demo.gunzip Scenario.one_file_store [Scenario.one_file_digest] d ->
             d = Scenario.one_file_digest).
  { intros d Hd. induction Hd as [h Hh _ | d line _ IH Hl HD].
    - now apply list_elem_of_singleton in Hh.
    - subst d. rewrite Hc in Hl. apply list_elem_of_singleton in Hl. subst line.
      discriminate HD. }
  apply (healthy_store_passes Demo.gunzip Demo.gzip Demo.md5hex Demo.path_Match
           Scenario.one_file_store "proj" true
           (default [] (BackupRoots Scenario.one_file_store "proj"))).
  - vm_compute. reflexivity.
  - intros r Hr.
    assert (E : default [] (BackupRoots Scenario.one_file_store "proj")
                = [ {| Time := default 0 (parse_timestamp "250101-120000");
                       BackupHead := ["proj"; "250101-120000"];
                       hash := Scenario.one_file_digest |} ]) by (vm_compute; reflexivity).
    rewrite E in Hr.
    apply list_elem_of_singleton in Hr. subst r.
    eexists. vm_compute. reflexivity.
  - rewrite Hroots. intros h [h' Hh | d line Hd Hl].
    + apply list_elem_of_singleton in Hh. subst h'.
      exists (Scenario.blob ("F " +:+ Scenario.hi_digest +:+ " a.txt" +:+ Scenario.nl)).
      split; [vm_compute; reflexivity|]. split; [discriminate|].
      intros _. split; [reflexivity|].
      exists ("F " +:+ Scenario.hi_digest +:+ " a.txt" +:+ Scenario.nl).
      split; [apply Demo_gunzip_gzip | vm_compute; reflexivity].
    + apply Ht in Hd. subst d. rewrite Hc in Hl. apply list_elem_of_singleton in Hl.
      subst line.
      exists (Scenario.blob "hi"). split; [vm_compute; reflexivity|]. split; [discriminate|].
      intros _. split; [reflexivity|].
      exists "hi". split; [apply Demo_gunzip_gzip | vm_compute; reflexivity].
  - rewrite Hroots. intros d Hd. apply Ht in Hd. subst d.
    eexists. split; [vm_compute; reflexivity|]. eexists. vm_compute. reflexivity.
  - vm_compute. reflexivity.
Defined.

(** The blobs written for a directory with one file into the empty store
    pass the deep check. *)
Lemma Save_writes_verifiable_blobs_witness :
  good_blob Demo.gunzip Demo.md5hex
    (store (fst (Save Demo.gzip Demo.md5hex false
                   (DirectoryEntry Scenario.top "src" nil_matcher
                      (Some [FileEntry (Scenario.top ++ ["a.txt"]) "a.txt"
                               Scenario.hi_digest true "hi"]) [])
                   Scenario.empty_state)))
    true Scenario.hi_digest.
Proof.
  refine (proj2 (Save_writes_verifiable_blobs Demo.gunzip Demo.gzip Demo.md5hex false
                   (DirectoryEntry Scenario.top "src" nil_matcher
                      (Some [FileEntry (Scenario.top ++ ["a.txt"]) "a.txt"
                               Scenario.hi_digest true "hi"]) [])
                   Scenario.empty_state Demo_gunzip_gzip _ _) _ Scenario.hi_digest _).
  - intros x. discriminate.
  - vm_compute. split; [reflexivity | exact I].
  - intros h [f Hf]. unfold stat_blob, lookup_file in Hf.
    destruct (DataStore h) as [[shard file]|]; [|discriminate].
    cbn in Hf. rewrite lookup_empty in Hf. discriminate.
  - eexists. vm_compute. reflexivity.
Defined.

(** After pruning the cluttered store, which removes the old blob, the file
    [a.txt] is found in the snapshot as before. *)
Lemma Locate_survives_Prune_witness :
  exists s' stats,
    Prune Demo.gunzip false Scenario.cluttered_store = Some (s', stats, None)
    /\ stat_blob s' Scenario.old_digest = None
    /\ Locate Demo.gunzip s' Scenario.one_file_root "a.txt"
       = Located (BackupFile Scenario.hi_digest "a.txt").
Proof.
  assert (Hr : AllBackupRoots Scenario.cluttered_store = [Scenario.one_file_root])
    by (vm_compute; reflexivity).
  eexists. eexists. split; [vm_compute; reflexivity|].
  split; [vm_compute; reflexivity|].
  refine (proj1 (proj2 (Locate_survives_Prune Demo.gunzip Demo.gzip Demo.md5hex
                          Demo.path_Match Scenario.cluttered_store _ false _ None
                          Scenario.one_file_root "a.txt"
                          (BackupFile Scenario.hi_digest "a.txt") _ _ _))).
  - rewrite Hr. apply list_elem_of_here.
  - vm_compute. reflexivity.
  - vm_compute. reflexivity.
Defined.
